(** * vivarium_output_processing: a shallow embedding

    The module [model_validation/vivarium_output_processing.py] is a thin
    layer over pandas: it sets indexes, groups and sums, and subtracts or
    divides index-aligned frames.  This development embeds

    - the pandas primitives the module calls ([set_index], [reset_index],
      column selection, boolean masks, [groupby(...).sum()], arithmetic
      with index alignment, [dropna], [insert]) as functions on a small
      [frame] record, and
    - the module's own functions ([_ensure_iterable],
      [_ensure_columns_not_levels], [value], [marginalize], [stratify],
      [ratio], [difference], [averted], [get_mean_lower_upper]) on top of
      them, line by line.

    Numbers are exact: a finite float or integer is a canonical rational
    ([Qc]), next to the IEEE specials [PInf], [NInf] and [NaN]; rounding is
    not modelled.  Column labels are assumed distinct inside one frame, as
    the module's own set arithmetic on [df.columns] presumes.  [describe]
    (percentiles and the standard deviation over draws) is not embedded. *)

From Stdlib Require Import List String Ascii Bool Arith ZArith QArith Qcanon Lia.
From Stdlib Require Import FinFun OrderedTypeEx DecimalString.
Import ListNotations.

Local Open Scope string_scope.
Local Open Scope list_scope.

(** ** Python values *)

(** A number held in a frame or passed as the multiplier. *)
Inductive num : Type :=
| Fin (q : Qc)
| PInf
| NInf
| NaN.

(** A cell of a frame: a string label or a number.  A missing cell is
    [Num NaN], as pandas stores it. *)
Inductive scalar : Type :=
| Str (s : string)
| Num (x : num).

(** A column label: [None], a string, or a tuple of strings. *)
Inductive name : Type :=
| NNone
| NStr (s : string)
| NTuple (l : list string).

(** An argument that stands for column names: one label (which may be
    [None] or a tuple), a Python list of labels, or a [pd.Index]. *)
Inductive pyarg : Type :=
| Scalar (n : name)
| PList (l : list name)
| PIndex (l : list name).

Inductive exn : Type :=
| ValueError (msg : string)
| KeyError (k : name)
| TypeError (msg : string)
| NotImplementedError (msg : string).

Inductive result (A : Type) : Type :=
| Ok (a : A)
| Err (e : exn).

Arguments Ok {A} a.
Arguments Err {A} e.

Definition bind {A B : Type} (m : result A) (k : A -> result B) : result B :=
  match m with
  | Ok a => k a
  | Err e => Err e
  end.

Notation "x <- m ;; k" := (bind m (fun x => k))
  (at level 61, m at next level, right associativity).

Fixpoint mapM {A B : Type} (f : A -> result B) (l : list A) : result (list B) :=
  match l with
  | [] => Ok []
  | a :: l' => b <- f a ;; bs <- mapM f l' ;; Ok (b :: bs)
  end.

Definition qz (z : Z) : Qc := Q2Qc (inject_Z z).

(** ** Decidable equality *)

Definition num_eq_dec (x y : num) : {x = y} + {x <> y}.
Proof. decide equality. apply Qc_eq_dec. Defined.

Definition scalar_eq_dec (x y : scalar) : {x = y} + {x <> y}.
Proof. decide equality; [apply string_dec | apply num_eq_dec]. Defined.

Definition name_eq_dec (x y : name) : {x = y} + {x <> y}.
Proof. decide equality; [apply string_dec | apply (list_eq_dec string_dec)]. Defined.

Definition key_eq_dec : forall x y : list scalar, {x = y} + {x <> y} :=
  list_eq_dec scalar_eq_dec.

Definition name_eqb (x y : name) : bool := if name_eq_dec x y then true else false.
Definition key_eqb (x y : list scalar) : bool := if key_eq_dec x y then true else false.

Definition mem (c : name) (l : list name) : bool := existsb (name_eqb c) l.

(** Python's [==] on cells: a NaN equals nothing, itself included. *)
Definition py_eq (a b : scalar) : bool :=
  match a, b with
  | Num NaN, _ | _, Num NaN => false
  | _, _ => if scalar_eq_dec a b then true else false
  end.

Definition is_nan (a : scalar) : bool :=
  match a with Num NaN => true | _ => false end.

(** ** Float arithmetic, exact on finite values *)

Definition sign_inf (neg : bool) : num := if neg then NInf else PInf.

Definition fneg (x : num) : num :=
  match x with
  | Fin q => Fin (- q)
  | PInf => NInf
  | NInf => PInf
  | NaN => NaN
  end.

Definition fadd (x y : num) : num :=
  match x, y with
  | NaN, _ | _, NaN => NaN
  | Fin a, Fin b => Fin (a + b)
  | PInf, NInf | NInf, PInf => NaN
  | PInf, _ | _, PInf => PInf
  | NInf, _ | _, NInf => NInf
  end.

Definition fsub (x y : num) : num := fadd x (fneg y).

Definition qneg (q : Qc) : bool :=
  match (q ?= 0)%Qc with Lt => true | _ => false end.

Definition qzero (q : Qc) : bool :=
  if Qc_eq_dec q 0 then true else false.

Definition fmul (x y : num) : num :=
  match x, y with
  | NaN, _ | _, NaN => NaN
  | Fin a, Fin b => Fin (a * b)
  | Fin a, PInf | PInf, Fin a => if qzero a then NaN else sign_inf (qneg a)
  | Fin a, NInf | NInf, Fin a => if qzero a then NaN else sign_inf (negb (qneg a))
  | PInf, PInf | NInf, NInf => PInf
  | PInf, NInf | NInf, PInf => NInf
  end.

(** True division as numpy does it: [x/0] is an infinity for [x <> 0] and
    NaN for [x = 0]. *)
Definition fdiv (x y : num) : num :=
  match x, y with
  | NaN, _ | _, NaN => NaN
  | Fin a, Fin b =>
      if qzero b then (if qzero a then NaN else sign_inf (qneg a))
      else Fin (a / b)
  | Fin _, _ => Fin 0
  | PInf, Fin b => sign_inf (qneg b)
  | NInf, Fin b => sign_inf (negb (qneg b))
  | _, _ => NaN
  end.

(** A cell used as a number; a string there is a type error. *)
Definition as_num (what : string) (a : scalar) : result num :=
  match a with
  | Num x => Ok x
  | Str _ => Err (TypeError what)
  end.

(** [Series.sum()] as groupby uses it: NaN cells are skipped and the empty
    sum is 0. *)
Fixpoint nansum (l : list scalar) : result num :=
  match l with
  | [] => Ok (Fin 0)
  | Num NaN :: l' => nansum l'
  | a :: l' =>
      x <- as_num "unsupported operand type(s) for +" a ;;
      s <- nansum l' ;;
      Ok (fadd x s)
  end.

(** ** Ordering of labels, as [sort=True] uses it *)

Definition num_compare (x y : num) : comparison :=
  match x, y with
  | NInf, NInf => Eq
  | NInf, _ => Lt
  | _, NInf => Gt
  | Fin a, Fin b => (a ?= b)%Qc
  | Fin _, _ => Lt
  | _, Fin _ => Gt
  | PInf, PInf => Eq
  | PInf, NaN => Lt
  | NaN, PInf => Gt
  | NaN, NaN => Eq
  end.

(** Numbers sort before strings; Python cannot compare the two, and no
    statement below relies on where a mixed column puts them. *)
Definition scalar_compare (a b : scalar) : comparison :=
  match a, b with
  | Num x, Num y => num_compare x y
  | Num _, Str _ => Lt
  | Str _, Num _ => Gt
  | Str s, Str t => String.compare s t
  end.

Fixpoint key_compare (k1 k2 : list scalar) : comparison :=
  match k1, k2 with
  | [], [] => Eq
  | [], _ :: _ => Lt
  | _ :: _, [] => Gt
  | a :: k1', b :: k2' =>
      match scalar_compare a b with
      | Eq => key_compare k1' k2'
      | c => c
      end
  end.

(** Insertion into a strictly increasing list: the sorted list of the
    distinct elements. *)
Fixpoint sinsert {A : Type} (cmp : A -> A -> comparison) (x : A) (l : list A) : list A :=
  match l with
  | [] => [x]
  | y :: l' =>
      match cmp x y with
      | Lt => x :: l
      | Eq => l
      | Gt => y :: sinsert cmp x l'
      end
  end.

Definition sort_unique {A : Type} (cmp : A -> A -> comparison) (l : list A) : list A :=
  fold_right (sinsert cmp) [] l.

Definition sort_keys : list (list scalar) -> list (list scalar) := sort_unique key_compare.

(** ** Frames *)

(** One row: its index labels (one per index level) and its cells (one
    per column). *)
Record row : Type := mkrow { ix : list scalar; cells : list scalar }.

(** A DataFrame: the names of its index levels, its column labels and its
    rows.  A default [RangeIndex] is one level named [None]. *)
Record frame : Type := mkframe {
  index : list name;
  columns : list name;
  rows : list row
}.

Fixpoint range_from (start : Z) (n : nat) : list Z :=
  match n with
  | O => []
  | S n' => start :: range_from (start + 1) n'
  end.

(** [pd.DataFrame] built from column labels and rows of cells, with the
    default [RangeIndex]. *)
Definition range_index (cellss : list (list scalar)) : list row :=
  map (fun p => mkrow [Num (Fin (qz (fst p)))] (snd p))
      (combine (range_from 0 (List.length cellss)) cellss).

Definition flat (cols : list name) (cellss : list (list scalar)) : frame :=
  mkframe [NNone] cols (range_index cellss).

(** The value under label [c] where [names] label [vals]; a missing value
    reads as NaN. *)
Fixpoint getv (names : list name) (vals : list scalar) (c : name) : scalar :=
  match names, vals with
  | n :: names', v :: vals' => if name_eqb n c then v else getv names' vals' c
  | _, _ => Num NaN
  end.

Definition cell (f : frame) (r : row) (c : name) : scalar :=
  getv (columns f) (cells r) c.

Definition level (f : frame) (r : row) (c : name) : scalar :=
  getv (index f) (ix r) c.

(** A label resolved the way [groupby] does: a column if there is one of
    that name, an index level otherwise. *)
Definition field (f : frame) (r : row) (c : name) : scalar :=
  if mem c (columns f) then cell f r c else level f r c.

Definition require_columns (f : frame) (cs : list name) : result unit :=
  match find (fun c => negb (mem c (columns f))) cs with
  | Some c => Err (KeyError c)
  | None => Ok tt
  end.

(** [df[col]]: the cells of one column. *)
Definition column (f : frame) (c : name) : result (list scalar) :=
  _ <- require_columns f [c] ;;
  Ok (map (fun r => cell f r c) (rows f)).

(** [df[cols]] with a list: the frame narrowed to these columns. *)
Definition select (f : frame) (cs : list name) : result frame :=
  _ <- require_columns f cs ;;
  Ok (mkframe (index f) cs
        (map (fun r => mkrow (ix r) (map (cell f r) cs)) (rows f))).

(** [df[df[col] == v]] and [df[df[col] != v]]. *)
Definition mask_eq (f : frame) (c : name) (v : scalar) : result frame :=
  _ <- require_columns f [c] ;;
  Ok (mkframe (index f) (columns f)
        (filter (fun r => py_eq (cell f r c) v) (rows f))).

Definition mask_ne (f : frame) (c : name) (v : scalar) : result frame :=
  _ <- require_columns f [c] ;;
  Ok (mkframe (index f) (columns f)
        (filter (fun r => negb (py_eq (cell f r c) v)) (rows f))).

Definition msg_no_levels : string := "Must pass non-zero number of levels/codes".

(** [df.set_index(keys, append=...)]: the key columns become index
    levels and leave the columns. *)
Definition set_index (f : frame) (keys : list name) (append : bool) : result frame :=
  _ <- require_columns f keys ;;
  let old := if append then index f else [] in
  match old ++ keys with
  | [] => Err (ValueError msg_no_levels)
  | names =>
      let rest := filter (fun c => negb (mem c keys)) (columns f) in
      Ok (mkframe names rest
            (map (fun r => mkrow ((if append then ix r else []) ++ map (cell f r) keys)
                                 (map (cell f r) rest))
                 (rows f)))
  end.

Definition string_of_nat (n : nat) : string :=
  NilEmpty.string_of_uint (Nat.to_uint n).

(** The column label [reset_index] gives to level number [i]. *)
Definition level_label (f : frame) (i : nat) (n : name) : name :=
  match n with
  | NNone =>
      match index f with
      | [_] => if mem (NStr "index") (columns f) then NStr "level_0" else NStr "index"
      | _ => NStr (String.append "level_" (string_of_nat i))
      end
  | _ => n
  end.

Definition msg_cannot_insert : string := "cannot insert, already exists".

(** Levels are inserted at position 0, last level first; a label already
    among the columns is refused. *)
Fixpoint insert_levels (lv : list name) (cols : list name) : result (list name) :=
  match lv with
  | [] => Ok cols
  | n :: lv' =>
      cols' <- insert_levels lv' cols ;;
      if mem n cols' then Err (ValueError msg_cannot_insert) else Ok (n :: cols')
  end.

Definition level_labels (f : frame) : list name :=
  map (fun p => level_label f (fst p) (snd p))
      (combine (seq 0 (List.length (index f))) (index f)).

(** [df.reset_index()]. *)
Definition reset_index (f : frame) : result frame :=
  cols <- insert_levels (level_labels f) (columns f) ;;
  Ok (mkframe [NNone] cols (range_index (map (fun r => ix r ++ cells r) (rows f)))).

(** [df.dropna()]: rows with a missing cell are dropped. *)
Definition dropna (f : frame) : frame :=
  mkframe (index f) (columns f)
    (filter (fun r => negb (existsb is_nan (cells r))) (rows f)).

(** [df[c] = v] with a constant: overwrite the column or add it last. *)
Fixpoint setv (names : list name) (vals : list scalar) (c : name) (v : scalar) : list scalar :=
  match names, vals with
  | n :: names', x :: vals' =>
      if name_eqb n c then v :: vals' else x :: setv names' vals' c v
  | _, _ => vals
  end.

Definition assign (f : frame) (c : name) (v : scalar) : frame :=
  if mem c (columns f)
  then mkframe (index f) (columns f)
         (map (fun r => mkrow (ix r) (setv (columns f) (cells r) c v)) (rows f))
  else mkframe (index f) (columns f ++ [c])
         (map (fun r => mkrow (ix r) (cells r ++ [v])) (rows f)).

Fixpoint get_loc (cols : list name) (c : name) : result nat :=
  match cols with
  | [] => Err (KeyError c)
  | n :: cols' => if name_eqb n c then Ok O else i <- get_loc cols' c ;; Ok (S i)
  end.

(** [df.insert(loc, c, v)] with a constant. *)
Definition insert (f : frame) (loc : nat) (c : name) (v : scalar) : result frame :=
  if mem c (columns f) then Err (ValueError msg_cannot_insert)
  else Ok (mkframe (index f) (firstn loc (columns f) ++ c :: skipn loc (columns f))
             (map (fun r => mkrow (ix r) (firstn loc (cells r) ++ v :: skipn loc (cells r)))
                  (rows f))).

(** ** [groupby(keys)[vcols].sum()] *)

Definition msg_no_group_keys : string := "No group keys passed!".

Definition require_fields (f : frame) (cs : list name) : result unit :=
  match find (fun c => negb (mem c (columns f) || mem c (index f))) cs with
  | Some c => Err (KeyError c)
  | None => Ok tt
  end.

Definition group_key (f : frame) (keys : list name) (r : row) : list scalar :=
  map (field f r) keys.

(** Rows with a missing key are left out ([dropna=True]). *)
Definition live_rows (f : frame) (keys : list name) : list row :=
  filter (fun r => negb (existsb is_nan (group_key f keys r))) (rows f).

Definition group_rows (f : frame) (keys : list name) (k : list scalar) : list row :=
  filter (fun r => key_eqb (group_key f keys r) k) (live_rows f keys).

Definition group_sum (f : frame) (keys : list name) (k : list scalar) (c : name)
  : result scalar :=
  s <- nansum (map (fun r => cell f r c) (group_rows f keys k)) ;;
  Ok (Num s).

(** The groups are the distinct keys in sorted order ([sort=True]); only
    keys that occur make a group ([observed=True]). *)
Definition groupby_sum (f : frame) (keys vcols : list name) : result frame :=
  _ <- require_fields f keys ;;
  match keys, rows f with
  | [], _ :: _ => Err (ValueError msg_no_group_keys)
  | _, _ =>
      _ <- require_columns f vcols ;;
      rs <- mapM (fun k =>
                    sums <- mapM (group_sum f keys k) vcols ;;
                    Ok (mkrow k sums))
                 (sort_keys (map (group_key f keys) (live_rows f keys))) ;;
      Ok (mkframe keys vcols rs)
  end.

(** ** Arithmetic between frames, aligned on the index *)

(** One operand's row seen from the join: the labels joined on, the
    labels of the levels only this operand has, and the cells. *)
Record side : Type := mkside { jkey : list scalar; extra : list scalar; vals : list scalar }.

Fixpoint nodupb (ks : list (list scalar)) : bool :=
  match ks with
  | [] => true
  | k :: ks' => negb (existsb (key_eqb k) ks') && nodupb ks'
  end.

Definition keys_eqb (a b : list (list scalar)) : bool :=
  if list_eq_dec key_eq_dec a b then true else false.

Definition with_key (k : list scalar) (s : side) : bool := key_eqb (jkey s) k.

(** Outer join of two indexes on the same levels.  An empty operand, or
    two equal indexes without repeated labels, leave the order as it is;
    otherwise the joined labels come out sorted, and repeated labels pair
    up in all combinations. *)
Definition outer_join (L R : list side) : list (list scalar * option side * option side) :=
  match L, R with
  | _, [] => map (fun l => (jkey l, Some l, None)) L
  | [], _ => map (fun r => (jkey r, None, Some r)) R
  | _, _ =>
      if nodupb (map jkey L) && nodupb (map jkey R) && keys_eqb (map jkey L) (map jkey R)
      then map (fun p => (jkey (fst p), Some (fst p), Some (snd p))) (combine L R)
      else flat_map
             (fun k =>
                match filter (with_key k) L, filter (with_key k) R with
                | [], rs => map (fun r => (k, None, Some r)) rs
                | ls, [] => map (fun l => (k, Some l, None)) ls
                | ls, rs => flat_map (fun l => map (fun r => (k, Some l, Some r)) rs) ls
                end)
             (sort_keys (map jkey L ++ map jkey R))
  end.

Definition msg_join_level : string :=
  "Index._join_level on non-unique index is not implemented".

(** Join of a one-level index [F] with a multi-level index [M] on one
    level: the rows are those of [M], each with the row of [F] that
    carries its label, if any. *)
Definition join_level (F M : list side) : result (list (side * option side)) :=
  if nodupb (map jkey F)
  then Ok (map (fun m => (m, find (with_key (jkey m)) F)) M)
  else Err (NotImplementedError msg_join_level).

Definition msg_no_overlap : string := "cannot join with no overlapping index names".

Definition names_eqb (a b : list name) : bool :=
  if list_eq_dec name_eq_dec a b then true else false.

Definition nans {A : Type} (l : list A) : list scalar := map (fun _ => Num NaN) l.

Definition single {A : Type} (l : list A) : bool :=
  match l with [_] => true | _ => false end.

Definition minus (a b : list name) : list name := filter (fun n => negb (mem n b)) a.
Definition common (a b : list name) : list name := filter (fun n => mem n b) a.

Definition side_of (f : frame) (on drop : list name) (r : row) : side :=
  mkside (map (level f r) on) (map (level f r) drop) (cells r).

(** The aligned rows of [l] and [r]: the level names of the result and,
    per row, its labels and the cells of each operand where it has the
    row. *)
Definition align (l r : frame)
  : result (list name * list (list scalar * option (list scalar) * option (list scalar))) :=
  let nl := index l in
  let nr := index r in
  if Nat.eqb (List.length nl) (List.length nr) && keys_eqb (map ix (rows l)) (map ix (rows r))
  then Ok (nl, map (fun p => (ix (fst p), Some (cells (fst p)), Some (cells (snd p))))
                   (combine (rows l) (rows r)))
  else if names_eqb nl nr || (single nl && single nr)
  then
    let whole := fun (x : row) => mkside (ix x) [] (cells x) in
    Ok (if names_eqb nl nr then nl else [NNone],
        map (fun e => match e with
                      | (k, a, b) => (k, option_map vals a, option_map vals b)
                      end)
            (outer_join (map whole (rows l)) (map whole (rows r))))
  else
    match common nl nr with
    | [] => Err (ValueError msg_no_overlap)
    | on =>
        if single nl
        then
          es <- join_level (map (side_of l on []) (rows l))
                           (map (fun x => mkside (map (level r x) on) (ix x) (cells x)) (rows r)) ;;
          Ok (nr, map (fun e => (extra (fst e), option_map vals (snd e), Some (vals (fst e)))) es)
        else if single nr
        then
          es <- join_level (map (side_of r on []) (rows r))
                           (map (fun x => mkside (map (level l x) on) (ix x) (cells x)) (rows l)) ;;
          Ok (nl, map (fun e => (extra (fst e), Some (vals (fst e)), option_map vals (snd e))) es)
        else
          let ld := minus nl nr in
          let rd := minus nr nl in
          Ok (on ++ ld ++ rd,
              map (fun e => match e with
                            | (k, a, b) =>
                                (k ++ match a with Some s => extra s | None => nans ld end
                                   ++ match b with Some s => extra s | None => nans rd end,
                                 option_map vals a, option_map vals b)
                            end)
                  (outer_join (map (side_of l on ld) (rows l))
                              (map (side_of r on rd) (rows r))))
    end.

Definition msg_operand : string := "unsupported operand type(s)".

Definition cell_op (op : num -> num -> num) (p : scalar * scalar) : result scalar :=
  x <- as_num msg_operand (fst p) ;;
  y <- as_num msg_operand (snd p) ;;
  Ok (Num (op x y)).

(** [l op r] for two frames.  At every call site of the module both
    operands carry the same columns, so cells pair up by position; a row
    that only one operand has is filled with NaN on the other side. *)
Definition frame_op (op : num -> num -> num) (l r : frame) : result frame :=
  a <- align l r ;;
  rs <- mapM (fun e =>
                match e with
                | (k, x, y) =>
                    let xs := match x with Some c => c | None => nans (columns l) end in
                    let ys := match y with Some c => c | None => nans (columns l) end in
                    cs <- mapM (cell_op op) (combine xs ys) ;;
                    Ok (mkrow k cs)
                end)
             (snd a) ;;
  Ok (mkframe (fst a) (columns l) rs).

(** [df * m] with a number. *)
Definition frame_scale (f : frame) (m : num) : result frame :=
  rs <- mapM (fun r =>
                cs <- mapM (fun c => x <- as_num msg_operand c ;; Ok (Num (fmul x m))) (cells r) ;;
                Ok (mkrow (ix r) cs))
             (rows f) ;;
  Ok (mkframe (index f) (columns f) rs).

(** ** The module's constants and global state *)

Definition VALUE_COLUMN : name := NStr "value".
Definition DRAW_COLUMN : name := NStr "input_draw".
Definition SCENARIO_COLUMN : name := NStr "scenario".
Definition MEASURE_COLUMN : name := NStr "measure".

(** The module-level variable [INDEX_COLUMNS]; every function that reads
    it takes the current globals. *)
Record globals : Type := mkglobals { INDEX_COLUMNS : list name }.

Definition initial_globals : globals := mkglobals [DRAW_COLUMN; SCENARIO_COLUMN].


Definition PyNone : pyarg := Scalar NNone.

Definition is_None (a : pyarg) : bool :=
  match a with Scalar NNone => true | _ => false end.

(** ** Column-name normalization *)

(** [isinstance(colnames, (list, pd.Index))] or wrap in a list. *)
Definition method1 (colnames : pyarg) (df : frame) : list name :=
  match colnames with
  | PList l => l
  | PIndex l => l
  | Scalar n => [n]
  end.

Definition _ensure_iterable (colnames : pyarg) (df : frame) (default : pyarg) : list name :=
  let colnames := if is_None colnames then default else colnames in
  method1 colnames df.

Definition index_name (f : frame) : name :=
  match index f with [n] => n | _ => NNone end.

Definition _ensure_columns_not_levels (df : frame) (column_list : option (list name))
  : result frame :=
  let column_list := match column_list with None => [] | Some l => l end in
  if Nat.ltb 1 (List.length (index df)) || mem (index_name df) column_list
  then reset_index df
  else Ok df.

(** [Index.difference]: the distinct labels of [cols] not in [other],
    sorted when they can be compared (all strings, or all tuples), as
    they are otherwise. *)
Fixpoint unique_names (l : list name) : list name :=
  match l with
  | [] => []
  | a :: l' => a :: filter (fun b => negb (name_eqb a b)) (unique_names l')
  end.

Fixpoint all_strings (l : list name) : option (list string) :=
  match l with
  | [] => Some []
  | NStr s :: l' => option_map (cons s) (all_strings l')
  | _ :: _ => None
  end.

Fixpoint all_tuples (l : list name) : option (list (list string)) :=
  match l with
  | [] => Some []
  | NTuple t :: l' => option_map (cons t) (all_tuples l')
  | _ :: _ => None
  end.

(** Python's order on tuples of strings. *)
Fixpoint tuple_compare (a b : list string) : comparison :=
  match a, b with
  | [], [] => Eq
  | [], _ :: _ => Lt
  | _ :: _, [] => Gt
  | x :: a', y :: b' =>
      match String.compare x y with
      | Eq => tuple_compare a' b'
      | c => c
      end
  end.

Definition safe_sort (l : list name) : list name :=
  match all_strings l with
  | Some ss => map NStr (sort_unique String.compare ss)
  | None =>
      match all_tuples l with
      | Some ts => map NTuple (sort_unique tuple_compare ts)
      | None => l
      end
  end.

Definition Index_difference (cols other : list name) : list name :=
  safe_sort (unique_names (minus cols other)).

(** ** [value] *)

Definition msg_include_exclude : string :=
  "Only one of `include` or `exclude` can be specified.".

Definition value_index (g : globals) (df : frame) (include exclude : pyarg)
  (value_cols : list name) : result (list name) :=
  if is_None include then
    let exclude := _ensure_iterable exclude df (PList []) in
    Ok (Index_difference (columns df) (value_cols ++ exclude))
  else if negb (is_None exclude) then
    Err (ValueError msg_include_exclude)
  else
    let include := _ensure_iterable include df PyNone in
    Ok (include ++ INDEX_COLUMNS g).

Definition value (g : globals) (df : frame) (include exclude value_cols : pyarg)
  : result frame :=
  let value_cols := _ensure_iterable value_cols df PyNone in
  index_cols <- value_index g df include exclude value_cols ;;
  indexed <- set_index df index_cols false ;;
  select indexed value_cols.

(** ** [marginalize] and [stratify] *)

Definition marginalize (df : frame) (marginalized_cols value_cols : pyarg)
  (reset : bool) : result frame :=
  let marginalized_cols := _ensure_iterable marginalized_cols df PyNone in
  let value_cols := _ensure_iterable value_cols df PyNone in
  df <- _ensure_columns_not_levels df (Some marginalized_cols) ;;
  let index_cols := Index_difference (columns df) (marginalized_cols ++ value_cols) in
  summed_data <- groupby_sum df index_cols value_cols ;;
  if reset then reset_index summed_data else Ok summed_data.

Definition stratify (g : globals) (df : frame) (strata value_cols : pyarg)
  (reset : bool) : result frame :=
  let strata := _ensure_iterable strata df PyNone in
  let value_cols := _ensure_iterable value_cols df PyNone in
  let index_cols := strata ++ INDEX_COLUMNS g in
  summed_data <- groupby_sum df index_cols value_cols ;;
  if reset then reset_index summed_data else Ok summed_data.

(** ** [ratio] *)

Definition msg_disjoint : string :=
  "`numerator_broadcast` and `denominator_broadcast` must be disjoint lists of column names. Any column to include in both the numerator and denominator should go in `strata`.".

Fixpoint unique_cells (l : list scalar) : list scalar :=
  match l with
  | [] => []
  | a :: l' =>
      a :: filter (fun b => if scalar_eq_dec a b then false else true) (unique_cells l')
  end.

Definition msg_join : string := "sequence item: expected str instance".

(** ['|'.join(...)] of cells, which must all be strings. *)
Fixpoint join_bar (l : list scalar) : result string :=
  match l with
  | [] => Ok ""
  | Str s :: [] => Ok s
  | Str s :: l' => t <- join_bar l' ;; Ok (String.append s (String.append "|" t))
  | Num _ :: _ => Err (TypeError msg_join)
  end.

Definition measure_label (f : frame) (measure_col : name) : result string :=
  cs <- column f measure_col ;;
  join_bar (unique_cells cs).

Fixpoint join_comma (l : list string) : string :=
  match l with
  | [] => ""
  | [s] => String.append "'" (String.append s "'")
  | s :: l' => String.append "'" (String.append s (String.append "', " (join_comma l')))
  end.

(** A label as an f-string renders it. *)
Definition format_name (n : name) : string :=
  match n with
  | NNone => "None"
  | NStr s => s
  | NTuple [s] => String.append "('" (String.append s "',)")
  | NTuple l => String.append "(" (String.append (join_comma l) ")")
  end.

Definition intersects (a b : list name) : bool := existsb (fun c => mem c b) a.

Definition ratio (g : globals) (numerator denominator : frame) (strata : pyarg)
  (multiplier : num) (numerator_broadcast denominator_broadcast : pyarg)
  (value_col : pyarg) (measure_col : name)
  (drop : bool) (record_inputs : option bool) (reset : bool) : result frame :=
  numerator <- _ensure_columns_not_levels numerator None ;;
  denominator <- _ensure_columns_not_levels denominator None ;;
  let numerator_broadcast := _ensure_iterable numerator_broadcast numerator (PList []) in
  let denominator_broadcast := _ensure_iterable denominator_broadcast denominator (PList []) in
  if intersects numerator_broadcast denominator_broadcast then
    Err (ValueError msg_disjoint)
  else
    let record_inputs := match record_inputs with None => reset | Some b => b end in
    measures <- (if record_inputs
                 then nm <- measure_label numerator measure_col ;;
                      dm <- measure_label denominator measure_col ;;
                      Ok (Some (nm, dm))
                 else Ok None) ;;
    let strata := _ensure_iterable strata denominator PyNone in
    numerator <- stratify g numerator (PList (strata ++ numerator_broadcast)) value_col false ;;
    denominator <- stratify g denominator (PList (strata ++ denominator_broadcast)) value_col false ;;
    quotient <- frame_op fdiv numerator denominator ;;
    ratio <- frame_scale quotient multiplier ;;
    let ratio := if drop then dropna ratio else ratio in
    let ratio :=
      match measures with
      | Some (nm, dm) =>
          assign
            (assign
               (assign ratio (NStr (String.append "numerator_" (format_name measure_col))) (Str nm))
               (NStr (String.append "denominator_" (format_name measure_col))) (Str dm))
            (NStr "multiplier") (Num multiplier)
      | None => ratio
      end in
    if reset then reset_index ratio else Ok ratio.

(** ** [difference] and [averted] *)

Definition msg_no_id : string :=
  "At least one of `minuend_id` and `subtrahend_id` must be specified".

(** The rows of the minuend and of the subtrahend. *)
Definition difference_sides (measure : frame) (identifier_col : name)
  (minuend_id subtrahend_id : option scalar) : result (frame * frame) :=
  match minuend_id, subtrahend_id with
  | Some m, Some s =>
      minuend <- mask_eq measure identifier_col m ;;
      subtrahend <- mask_eq measure identifier_col s ;;
      Ok (minuend, subtrahend)
  | Some m, None =>
      minuend <- mask_eq measure identifier_col m ;;
      subtrahend <- mask_ne measure identifier_col m ;;
      Ok (minuend, subtrahend)
  | None, Some s =>
      subtrahend <- mask_eq measure identifier_col s ;;
      minuend <- mask_ne measure identifier_col s ;;
      Ok (minuend, subtrahend)
  | None, None => Err (ValueError msg_no_id)
  end.

(** The columns matched when subtracting: all but the identifier and the
    value column, in the order of the frame. *)
Definition difference_index (measure : frame) (identifier_col : name) : list name :=
  minus (columns measure) [identifier_col; VALUE_COLUMN].

Definition is_some {A : Type} (o : option A) : bool :=
  match o with Some _ => true | None => false end.

Definition difference (measure : frame) (identifier_col : name)
  (minuend_id subtrahend_id : option scalar) : result frame :=
  sides <- difference_sides measure identifier_col minuend_id subtrahend_id ;;
  let index_columns := difference_index measure identifier_col in
  minuend <- set_index (fst sides) index_columns false ;;
  subtrahend <- set_index (snd sides) index_columns false ;;
  minuend <- (if is_some minuend_id then Ok minuend
              else set_index minuend [identifier_col] true) ;;
  subtrahend <- (if is_some minuend_id then set_index subtrahend [identifier_col] true
                 else Ok subtrahend) ;;
  mv <- select minuend [VALUE_COLUMN] ;;
  sv <- select subtrahend [VALUE_COLUMN] ;;
  diff <- frame_op fsub mv sv ;;
  diff <- reset_index diff ;;
  let colname := if is_some minuend_id then NStr "subtracted_from" else NStr "subtracted_value" in
  let v := match minuend_id, subtrahend_id with
           | Some m, _ => m
           | None, Some s => s
           | None, None => Num NaN
           end in
  loc <- get_loc (columns diff) identifier_col ;;
  insert diff (loc + 1) colname v.




(** ** [get_mean_lower_upper] *)

(** A Python dict from column labels to column labels, as the list of
    its items in insertion order; the keys of a dict are distinct. *)
Fixpoint dict_get (d : list (name * name)) (k : name) : option name :=
  match d with
  | [] => None
  | (k', v) :: d' => if name_eqb k' k then Some v else dict_get d' k
  end.

(** [df.rename(columns=mapper)]: a label that is a key of the mapper is
    replaced by its value, any other label stays. *)
Definition rename_columns (f : frame) (mapper : list (name * name)) : frame :=
  mkframe (index f)
          (map (fun c => match dict_get mapper c with Some v => v | None => c end) (columns f))
          (rows f).

(** The default of [colname_mapper]. *)
Definition default_colname_mapper : list (name * name) :=
  [(NStr "mean", NStr "mean"); (NStr "2.5%", NStr "lower"); (NStr "97.5%", NStr "upper")].

Definition get_mean_lower_upper (described_data : frame) (colname_mapper : list (name * name))
  : result frame :=
  selected <- select described_data (map fst colname_mapper) ;;
  reset_index (rename_columns selected colname_mapper).

(** * Notions used in the statements and proofs *)

Definition library_error (e : exn) : Prop :=
  match e with
  | ValueError m =>
      m = msg_no_levels \/ m = msg_cannot_insert \/ m = msg_no_group_keys \/ m = msg_no_overlap
  | _ => True
  end.

Definition people : frame :=
  flat [NStr "input_draw"; NStr "scenario"; NStr "sex"; NStr "measure"; NStr "value"]
    [ [Num (Fin (qz 0)); Str "baseline"; Str "F"; Str "deaths"; Num (Fin (qz 5))];
      [Num (Fin (qz 0)); Str "baseline"; Str "M"; Str "deaths"; Num (Fin (qz 7))];
      [Num (Fin (qz 0)); Str "treated"; Str "F"; Str "deaths"; Num (Fin (qz 3))];
      [Num (Fin (qz 0)); Str "treated"; Str "M"; Str "deaths"; Num (Fin (qz 4))] ].

Definition to_q (a : scalar) : Qc :=
  match a with Num (Fin q) => q | _ => 0%Qc end.

Definition qsum (l : list Qc) : Qc := fold_right Qcplus 0%Qc l.

(** A cell that [sum] can take exactly: a finite number or a missing one. *)
Definition summable (a : scalar) : Prop :=
  match a with
  | Num (Fin _) | Num NaN => True
  | _ => False
  end.

Definition group_total (f : frame) (keys : list name) (k : list scalar) (c : name) : Qc :=
  qsum (map (fun r => to_q (cell f r c)) (group_rows f keys k)).

Definition group_keys (f : frame) (keys : list name) : list (list scalar) :=
  sort_keys (map (group_key f keys) (live_rows f keys)).

Definition grouped (f : frame) (keys vcols : list name) : frame :=
  mkframe keys vcols
    (map (fun k => mkrow k (map (fun c => Num (Fin (group_total f keys k c))) vcols))
         (group_keys f keys)).

(** On a frame whose key names are all columns, the key of a row is read
    off its cells. *)
Definition cells_key (cols keys : list name) (cs : list scalar) : list scalar :=
  map (getv cols cs) keys.

(** The frame [marginalize] and [stratify] return after [reset_index]. *)
Definition grouped_flat (f : frame) (keys vcols : list name) : frame :=
  mkframe [NNone] (keys ++ vcols)
    (range_index
       (map (fun k => k ++ map (fun c => Num (Fin (group_total f keys k c))) vcols)
            (group_keys f keys))).


Definition is_num (c : scalar) : bool :=
  match c with Num _ => true | Str _ => false end.

Definition numeric_rows (f : frame) : Prop :=
  forall r c, In r (rows f) -> In c (cells r) -> is_num c = true.

Definition self_op (op : num -> num -> num) (c : scalar) : scalar :=
  match c with Num x => Num (op x x) | Str s => Str s end.

Definition scale (m : num) (c : scalar) : scalar :=
  match c with Num x => Num (fmul x m) | Str s => Str s end.

Definition wf_cells (f : frame) : Prop :=
  forall r, In r (rows f) -> List.length (cells r) = List.length (columns f).

(** [f] shows the rows [D] -- one value cell each -- under the same index
    labels, possibly without those that have a missing value. *)
Definition tracks (D : list row) (f : frame) : Prop :=
  In VALUE_COLUMN (columns f) /\ wf_cells f /\
  (forall r', In r' (rows f) ->
     exists r, In r D /\ ix r' = ix r /\ cell f r' VALUE_COLUMN = hd (Num NaN) (cells r)) /\
  (forall r, In r D -> existsb is_nan (cells r) = false ->
     exists r', In r' (rows f) /\ ix r' = ix r).

Definition ratio_key (reset : bool) (n : nat) (r : row) : list scalar :=
  if reset then firstn n (cells r) else ix r.

(** With no repeated labels on either side, each joined row pairs the one
    row of each operand that carries its label. *)
Definition entry_ok (L R : list side) (e : list scalar * option side * option side) : Prop :=
  snd (fst e) = find (with_key (fst (fst e))) L /\
  snd e = find (with_key (fst (fst e))) R /\
  (snd (fst e) <> None \/ snd e <> None).

(** The labels a row is matched on. *)
Definition match_key (m : frame) (col : name) (r : row) : list scalar :=
  map (cell m r) (difference_index m col).

Definition find_row (m : frame) (col : name) (R : list row) (k : list scalar) : option row :=
  find (fun r => key_eqb (match_key m col r) k) R.

(** The value that the rows [R] hold under the labels [k]; NaN if none. *)
Definition value_at (m : frame) (col : name) (R : list row) (k : list scalar) : scalar :=
  match find_row m col R k with
  | Some r => cell m r VALUE_COLUMN
  | None => Num NaN
  end.

Definition id_rows (m : frame) (col : name) (v : scalar) : list row :=
  filter (fun r => py_eq (cell m r col) v) (rows m).

Definition other_rows (m : frame) (col : name) (v : scalar) : list row :=
  filter (fun r => negb (py_eq (cell m r col) v)) (rows m).

(** The two operands of the subtraction when [minuend_id] is given. *)
Definition left_operand (m : frame) (col : name) (R : list row) : frame :=
  mkframe (difference_index m col) [VALUE_COLUMN]
    (map (fun r => mkrow (match_key m col r) [cell m r VALUE_COLUMN]) R).

Definition right_operand (m : frame) (col : name) (R : list row) : frame :=
  mkframe (difference_index m col ++ [col]) [VALUE_COLUMN]
    (map (fun r => mkrow (match_key m col r ++ [cell m r col]) [cell m r VALUE_COLUMN]) R).

(** The rows subtracted when [minuend_id] is given. *)
Definition subtrahend_rows (m : frame) (col : name) (mid : scalar) (sid : option scalar)
  : list row :=
  match sid with
  | Some s => id_rows m col s
  | None => other_rows m col mid
  end.



(** The column labels [ratio] adds when it records its inputs. *)
Definition recorded_columns (measure_col : name) : list name :=
  [NStr ("numerator_" ++ format_name measure_col);
   NStr ("denominator_" ++ format_name measure_col);
   NStr "multiplier"].


(** What [ratio] of a table with itself needs to return: a flat table
    that has the strata and index columns, a numeric value column apart
    from them, and a measure column of strings whose recorded labels do
    not collide with the strata. *)
Definition divisible (g : globals) (t : frame) (strata : pyarg) (measure_col : name) : Prop :=
  let K := _ensure_iterable strata t PyNone ++ INDEX_COLUMNS g in
  index t = [NNone] /\
  K <> [] /\ NoDup K /\ ~ In NNone K /\
  (forall c, In c K -> In c (columns t)) /\
  In VALUE_COLUMN (columns t) /\ ~ In VALUE_COLUMN K /\
  (forall r, In r (rows t) -> is_num (cell t r VALUE_COLUMN) = true) /\
  In measure_col (columns t) /\
  (forall r, In r (rows t) -> exists s, cell t r measure_col = Str s) /\
  (forall c, In c K -> ~ In c (recorded_columns measure_col)).

(** The value a stratified frame holds under the labels [k]; NaN if it
    has no row with these labels. *)
Definition stratum_value (f : frame) (k : list scalar) : num :=
  match find (fun x => key_eqb (ix x) k) (rows f) with
  | Some x => match cells x with Num v :: _ => v | _ => NaN end
  | None => NaN
  end.

(** A second table on the same identifier columns, for the denominator. *)
Definition person_time : frame :=
  flat [NStr "input_draw"; NStr "scenario"; NStr "sex"; NStr "measure"; NStr "value"]
    [ [Num (Fin (qz 0)); Str "baseline"; Str "F"; Str "person_time"; Num (Fin (qz 100))];
      [Num (Fin (qz 0)); Str "baseline"; Str "M"; Str "person_time"; Num (Fin (qz 200))];
      [Num (Fin (qz 0)); Str "treated"; Str "F"; Str "person_time"; Num (Fin (qz 100))];
      [Num (Fin (qz 0)); Str "treated"; Str "M"; Str "person_time"; Num (Fin (qz 200))] ].


(** How the rows of the two operands of [difference] pair up when only
    the minuend rows [RA] are told apart by their match labels: an
    aligned row carries match labels [k] and an identifier, the value the
    minuend rows hold at [k], and either the value of a subtrahend row
    with these labels and this identifier, or nothing where no
    subtrahend row has the labels. *)
Definition broadcast_entry (m : frame) (col : name) (RA RB : list row)
  (e : list scalar * option (list scalar) * option (list scalar)) : Prop :=
  exists k cv,
    fst (fst e) = k ++ [cv] /\
    snd (fst e) = option_map (fun r => [cell m r VALUE_COLUMN]) (find_row m col RA k) /\
    ((exists rb, In rb RB /\ match_key m col rb = k /\ cell m rb col = cv /\
                 snd e = Some [cell m rb VALUE_COLUMN]) \/
     (snd e = None /\ cv = Num NaN /\ find_row m col RB k = None /\
      find_row m col RA k <> None)).


(** A table with a baseline and two other scenarios. *)
Definition three_arms : frame :=
  flat [NStr "input_draw"; NStr "scenario"; NStr "sex"; NStr "measure"; NStr "value"]
    [ [Num (Fin (qz 0)); Str "baseline"; Str "F"; Str "deaths"; Num (Fin (qz 5))];
      [Num (Fin (qz 0)); Str "baseline"; Str "M"; Str "deaths"; Num (Fin (qz 7))];
      [Num (Fin (qz 0)); Str "treated"; Str "F"; Str "deaths"; Num (Fin (qz 3))];
      [Num (Fin (qz 0)); Str "treated"; Str "M"; Str "deaths"; Num (Fin (qz 4))];
      [Num (Fin (qz 0)); Str "screened"; Str "F"; Str "deaths"; Num (Fin (qz 2))];
      [Num (Fin (qz 0)); Str "screened"; Str "M"; Str "deaths"; Num (Fin (qz 6))] ].

(** A table whose only columns are the identifier and the value. *)
Definition two_columns : frame :=
  flat [NStr "scenario"; NStr "value"]
    [ [Str "baseline"; Num (Fin (qz 5))];
      [Str "treated"; Num (Fin (qz 3))] ].

(** A frame of the format [describe] returns: one row per group, one
    column per statistic. *)
Definition described : frame :=
  mkframe [NStr "scenario"; NStr "sex"]
    [NStr "count"; NStr "mean"; NStr "std"; NStr "min"; NStr "2.5%"; NStr "50%"; NStr "97.5%";
     NStr "max"]
    [ mkrow [Str "baseline"; Str "F"]
        [Num (Fin (qz 2)); Num (Fin (qz 5)); Num (Fin (qz 1)); Num (Fin (qz 4)); Num (Fin (qz 4));
         Num (Fin (qz 5)); Num (Fin (qz 6)); Num (Fin (qz 6))];
      mkrow [Str "baseline"; Str "M"]
        [Num (Fin (qz 2)); Num (Fin (qz 7)); Num (Fin (qz 1)); Num (Fin (qz 6)); Num (Fin (qz 6));
         Num (Fin (qz 7)); Num (Fin (qz 8)); Num (Fin (qz 8))] ].


(** * Properties *)

(** ** The error monad *)

Lemma bind_ok {A B : Type} (m : result A) (k : A -> result B) (b : B) :
  bind m k = Ok b -> exists a, m = Ok a /\ k a = Ok b.
Proof. destruct m as [a|e]; simpl; intros H; [eauto | discriminate]. Qed.

Lemma bind_err {A B : Type} (m : result A) (k : A -> result B) (e : exn) :
  bind m k = Err e -> m = Err e \/ exists a, m = Ok a /\ k a = Err e.
Proof. destruct m as [a|e']; simpl; intros H; [right; eauto | left; congruence]. Qed.

Ltac inv_bind H :=
  let a := fresh "a" in
  let Ha := fresh "Ha" in
  apply bind_ok in H; destruct H as [a [Ha H]].

Lemma mapM_map {A B : Type} (f : A -> result B) (g : A -> B) (l : list A) :
  (forall a, In a l -> f a = Ok (g a)) -> mapM f l = Ok (map g l).
Proof.
  induction l as [|a l IH]; intros H; simpl; [reflexivity|].
  rewrite (H a (or_introl eq_refl)); simpl.
  rewrite IH by (intros; apply H; right; assumption).
  reflexivity.
Qed.

Lemma mapM_Forall2 {A B : Type} (f : A -> result B) (l : list A) (l' : list B) :
  mapM f l = Ok l' -> Forall2 (fun a b => f a = Ok b) l l'.
Proof.
  revert l'; induction l as [|a l IH]; simpl; intros l' H.
  - injection H as <-. constructor.
  - inv_bind H. inv_bind H. injection H as <-. constructor; auto.
Qed.

Lemma mapM_err {A B : Type} (f : A -> result B) (l : list A) (e : exn) :
  mapM f l = Err e -> exists a, In a l /\ f a = Err e.
Proof.
  induction l as [|a l IH]; simpl; intros H; [discriminate|].
  apply bind_err in H. destruct H as [H | [b [Hb H]]].
  - exists a; auto.
  - apply bind_err in H. destruct H as [H | [bs [Hbs H]]]; [|discriminate].
    destruct (IH H) as [a' [Hin Ha']]. exists a'; auto.
Qed.

Lemma mapM_ext {A B : Type} (f g : A -> result B) (l : list A) :
  (forall a, In a l -> f a = g a) -> mapM f l = mapM g l.
Proof.
  induction l as [|a l IH]; intros H; simpl; [reflexivity|].
  rewrite (H a (or_introl eq_refl)).
  rewrite IH by (intros; apply H; right; assumption).
  reflexivity.
Qed.

(** ** Labels and lookups *)

Lemma name_eqb_eq (a b : name) : name_eqb a b = true <-> a = b.
Proof. unfold name_eqb. destruct (name_eq_dec a b); split; congruence. Qed.

Lemma name_eqb_refl (a : name) : name_eqb a a = true.
Proof. apply name_eqb_eq; reflexivity. Qed.

Lemma name_eqb_neq (a b : name) : name_eqb a b = false <-> a <> b.
Proof. unfold name_eqb. destruct (name_eq_dec a b); split; congruence. Qed.

Lemma key_eqb_eq (a b : list scalar) : key_eqb a b = true <-> a = b.
Proof. unfold key_eqb. destruct (key_eq_dec a b); split; congruence. Qed.

Lemma key_eqb_refl (a : list scalar) : key_eqb a a = true.
Proof. apply key_eqb_eq; reflexivity. Qed.

Lemma mem_In (c : name) (l : list name) : mem c l = true <-> In c l.
Proof.
  unfold mem. rewrite existsb_exists. split.
  - intros [x [Hin Hx]]. apply name_eqb_eq in Hx. subst. assumption.
  - intros H. exists c. split; [assumption | apply name_eqb_refl].
Qed.

Lemma mem_not_In (c : name) (l : list name) : mem c l = false <-> ~ In c l.
Proof.
  rewrite <- mem_In. destruct (mem c l); split; intros; congruence.
Qed.

Lemma minus_In (a b : list name) (c : name) : In c (minus a b) <-> In c a /\ ~ In c b.
Proof.
  unfold minus. rewrite filter_In, negb_true_iff, mem_not_In. reflexivity.
Qed.

Lemma common_In (a b : list name) (c : name) : In c (common a b) <-> In c a /\ In c b.
Proof. unfold common. rewrite filter_In, mem_In. reflexivity. Qed.

Lemma getv_map (f : name -> scalar) (names : list name) (c : name) :
  In c names -> getv names (map f names) c = f c.
Proof.
  induction names as [|n names IH]; simpl; intros H; [contradiction|].
  destruct (name_eqb n c) eqn:E.
  - apply name_eqb_eq in E. subst. reflexivity.
  - destruct H as [H|H]; [apply name_eqb_neq in E; congruence | auto].
Qed.

Lemma getv_app_l (n1 n2 : list name) (v1 v2 : list scalar) (c : name) :
  List.length n1 = List.length v1 -> In c n1 ->
  getv (n1 ++ n2) (v1 ++ v2) c = getv n1 v1 c.
Proof.
  revert v1; induction n1 as [|n n1 IH]; intros [|v v1] Hlen Hin; simpl in *;
    try discriminate; try contradiction.
  destruct (name_eqb n c) eqn:E; [reflexivity|].
  apply IH; [lia|]. destruct Hin as [Hin|Hin]; [|assumption].
  apply name_eqb_neq in E. congruence.
Qed.

Lemma getv_app_r (n1 n2 : list name) (v1 v2 : list scalar) (c : name) :
  List.length n1 = List.length v1 -> ~ In c n1 ->
  getv (n1 ++ n2) (v1 ++ v2) c = getv n2 v2 c.
Proof.
  revert v1; induction n1 as [|n n1 IH]; intros [|v v1] Hlen Hin; simpl in *;
    try discriminate; [reflexivity|].
  destruct (name_eqb n c) eqn:E.
  - apply name_eqb_eq in E. exfalso. apply Hin. left. assumption.
  - apply IH; [lia|]. intros H. apply Hin. right. assumption.
Qed.

Lemma require_columns_ok (f : frame) (cs : list name) :
  require_columns f cs = Ok tt <-> (forall c, In c cs -> In c (columns f)).
Proof.
  unfold require_columns.
  destruct (find _ cs) as [c|] eqn:E; split; intros H.
  - discriminate.
  - apply find_some in E. destruct E as [Hin Hc].
    apply negb_true_iff, mem_not_In in Hc. exfalso. apply Hc, H, Hin.
  - intros c Hin. apply (find_none _ _ E) in Hin.
    apply negb_false_iff, mem_In in Hin. assumption.
  - reflexivity.
Qed.

Lemma require_columns_unit (f : frame) (cs : list name) (u : unit) :
  require_columns f cs = Ok u -> forall c, In c cs -> In c (columns f).
Proof. destruct u. apply require_columns_ok. Qed.

Lemma require_fields_ok (f : frame) (cs : list name) :
  require_fields f cs = Ok tt <->
  (forall c, In c cs -> In c (columns f) \/ In c (index f)).
Proof.
  unfold require_fields.
  destruct (find _ cs) as [c|] eqn:E; split; intros H.
  - discriminate.
  - apply find_some in E. destruct E as [Hin Hc].
    apply negb_true_iff, orb_false_iff in Hc. destruct Hc as [H1 H2].
    apply mem_not_In in H1, H2. destruct (H c Hin); contradiction.
  - intros c Hin. apply (find_none _ _ E) in Hin.
    apply negb_false_iff, orb_true_iff in Hin.
    destruct Hin as [Hin|Hin]; apply mem_In in Hin; auto.
  - reflexivity.
Qed.

(** ** Errors raised by pandas, as opposed to the module's own *)

Create HintDb pandas_err.

Ltac err_bind H :=
  let a := fresh "a" in
  let Ha := fresh "Ha" in
  apply bind_err in H; destruct H as [H | [a [Ha H]]].

Ltac err_auto :=
  repeat match goal with
         | H : bind _ _ = Err _ |- _ => err_bind H
         | H : Ok _ = Err _ |- _ => discriminate H
         | H : Err _ = Err _ |- _ => injection H as <-
         | H : (if ?b then _ else _) = Err _ |- _ => destruct b
         | H : mapM _ _ = Err _ |- _ =>
             let x := fresh "x" in
             let Hx := fresh "Hx" in
             apply mapM_err in H; destruct H as [x [Hx H]]
         end;
  try solve [eauto 6 with pandas_err];
  simpl; eauto 6 with pandas_err.

Lemma require_columns_err (f : frame) (cs : list name) (e : exn) :
  require_columns f cs = Err e -> library_error e.
Proof.
  unfold require_columns. destruct (find _ cs); intros H; [|discriminate].
  injection H as <-. exact I.
Qed.
#[local] Hint Resolve require_columns_err : pandas_err.

Lemma require_fields_err (f : frame) (cs : list name) (e : exn) :
  require_fields f cs = Err e -> library_error e.
Proof.
  unfold require_fields. destruct (find _ cs); intros H; [|discriminate].
  injection H as <-. exact I.
Qed.
#[local] Hint Resolve require_fields_err : pandas_err.

Lemma column_err (f : frame) (c : name) (e : exn) :
  column f c = Err e -> library_error e.
Proof. unfold column. intros H. err_auto. Qed.
#[local] Hint Resolve column_err : pandas_err.

Lemma select_err (f : frame) (cs : list name) (e : exn) :
  select f cs = Err e -> library_error e.
Proof. unfold select. intros H. err_auto. Qed.
#[local] Hint Resolve select_err : pandas_err.

Lemma mask_eq_err (f : frame) (c : name) (v : scalar) (e : exn) :
  mask_eq f c v = Err e -> library_error e.
Proof. unfold mask_eq. intros H. err_auto. Qed.

Lemma mask_ne_err (f : frame) (c : name) (v : scalar) (e : exn) :
  mask_ne f c v = Err e -> library_error e.
Proof. unfold mask_ne. intros H. err_auto. Qed.
#[local] Hint Resolve mask_eq_err mask_ne_err : pandas_err.

Lemma set_index_err (f : frame) (keys : list name) (append : bool) (e : exn) :
  set_index f keys append = Err e -> library_error e.
Proof.
  unfold set_index. intros H. err_bind H; [err_auto|].
  destruct (_ ++ keys); [|discriminate].
  injection H as <-. simpl. auto.
Qed.
#[local] Hint Resolve set_index_err : pandas_err.

Lemma insert_levels_err (lv cols : list name) (e : exn) :
  insert_levels lv cols = Err e -> library_error e.
Proof.
  induction lv as [|n lv IH]; simpl; intros H; [discriminate|].
  err_bind H; [auto|].
  destruct (mem n a); [|discriminate].
  injection H as <-. simpl. auto.
Qed.
#[local] Hint Resolve insert_levels_err : pandas_err.

Lemma reset_index_err (f : frame) (e : exn) :
  reset_index f = Err e -> library_error e.
Proof. unfold reset_index. intros H. err_auto. Qed.
#[local] Hint Resolve reset_index_err : pandas_err.

Lemma get_loc_err (cols : list name) (c : name) (e : exn) :
  get_loc cols c = Err e -> library_error e.
Proof.
  induction cols as [|n cols IH]; simpl; intros H.
  - injection H as <-. exact I.
  - destruct (name_eqb n c); [discriminate|]. err_auto.
Qed.
#[local] Hint Resolve get_loc_err : pandas_err.

Lemma insert_err (f : frame) (loc : nat) (c : name) (v : scalar) (e : exn) :
  insert f loc c v = Err e -> library_error e.
Proof.
  unfold insert. destruct (mem c (columns f)); intros H; [|discriminate].
  injection H as <-. simpl. auto.
Qed.
#[local] Hint Resolve insert_err : pandas_err.

Lemma as_num_err (what : string) (a : scalar) (e : exn) :
  as_num what a = Err e -> library_error e.
Proof. destruct a; simpl; intros H; [injection H as <-; exact I | discriminate]. Qed.
#[local] Hint Resolve as_num_err : pandas_err.

Lemma nansum_err (l : list scalar) (e : exn) :
  nansum l = Err e -> library_error e.
Proof.
  induction l as [|a l IH]; simpl; intros H; [discriminate|].
  destruct a as [s|[q| | |]]; auto; err_auto.
Qed.
#[local] Hint Resolve nansum_err : pandas_err.

Lemma groupby_sum_err (f : frame) (keys vcols : list name) (e : exn) :
  groupby_sum f keys vcols = Err e -> library_error e.
Proof.
  unfold groupby_sum, group_sum. intros H. err_bind H; [err_auto|].
  destruct keys as [|k keys]; [destruct (rows f)|]; err_auto.
Qed.
#[local] Hint Resolve groupby_sum_err : pandas_err.

Lemma join_level_err (F M : list side) (e : exn) :
  join_level F M = Err e -> library_error e.
Proof.
  unfold join_level. destruct (nodupb _); intros H; [discriminate|].
  injection H as <-. exact I.
Qed.
#[local] Hint Resolve join_level_err : pandas_err.

Lemma align_err (l r : frame) (e : exn) :
  align l r = Err e -> library_error e.
Proof.
  unfold align. intros H.
  destruct (_ && keys_eqb _ _); [discriminate|].
  destruct (_ || _); [discriminate|].
  destruct (common _ _).
  - injection H as <-. simpl. auto.
  - destruct (single (index l)); [err_auto|].
    destruct (single (index r)); [err_auto|discriminate].
Qed.
#[local] Hint Resolve align_err : pandas_err.

Lemma cell_op_err (op : num -> num -> num) (p : scalar * scalar) (e : exn) :
  cell_op op p = Err e -> library_error e.
Proof. unfold cell_op. intros H. err_auto. Qed.
#[local] Hint Resolve cell_op_err : pandas_err.

Lemma frame_op_err (op : num -> num -> num) (l r : frame) (e : exn) :
  frame_op op l r = Err e -> library_error e.
Proof.
  unfold frame_op. intros H. err_bind H; [err_auto|].
  err_bind H; [|discriminate].
  apply mapM_err in H. destruct H as [[[k x] y] [_ H]]. err_auto.
Qed.
#[local] Hint Resolve frame_op_err : pandas_err.

Lemma frame_scale_err (f : frame) (m : num) (e : exn) :
  frame_scale f m = Err e -> library_error e.
Proof. unfold frame_scale. intros H. err_auto. Qed.
#[local] Hint Resolve frame_scale_err : pandas_err.

Lemma join_bar_err (l : list scalar) (e : exn) :
  join_bar l = Err e -> library_error e.
Proof.
  induction l as [|a l IH]; simpl; intros H; [discriminate|].
  destruct a as [s|x]; [|injection H as <-; exact I].
  destruct l; [discriminate|]. err_auto.
Qed.
#[local] Hint Resolve join_bar_err : pandas_err.

Lemma measure_label_err (f : frame) (c : name) (e : exn) :
  measure_label f c = Err e -> library_error e.
Proof. unfold measure_label. intros H. err_auto. Qed.
#[local] Hint Resolve measure_label_err : pandas_err.

Lemma ensure_columns_not_levels_err (df : frame) (cl : option (list name)) (e : exn) :
  _ensure_columns_not_levels df cl = Err e -> library_error e.
Proof. unfold _ensure_columns_not_levels. intros H. err_auto. Qed.
#[local] Hint Resolve ensure_columns_not_levels_err : pandas_err.

Lemma stratify_err (g : globals) (df : frame) (strata value_cols : pyarg) (reset : bool)
  (e : exn) :
  stratify g df strata value_cols reset = Err e -> library_error e.
Proof. unfold stratify. intros H. err_auto. Qed.
#[local] Hint Resolve stratify_err : pandas_err.

Lemma marginalize_err (df : frame) (mc value_cols : pyarg) (reset : bool) (e : exn) :
  marginalize df mc value_cols reset = Err e -> library_error e.
Proof. unfold marginalize. intros H. err_auto. Qed.

Lemma module_errors_not_library :
  ~ library_error (ValueError msg_include_exclude) /\
  ~ library_error (ValueError msg_disjoint) /\
  ~ library_error (ValueError msg_no_id).
Proof.
  repeat split; simpl; intros [H|[H|[H|H]]]; discriminate H.
Qed.

(** ** Sorted lists of distinct elements *)

Section SortUnique.
Context {A : Type}.
Variable cmp : A -> A -> comparison.
Hypothesis cmp_eq : forall x y, cmp x y = Eq -> x = y.

Lemma sinsert_In (x z : A) (l : list A) :
  In z (sinsert cmp x l) <-> z = x \/ In z l.
Proof.
  induction l as [|y l IH]; simpl.
  - intuition.
  - destruct (cmp x y) eqn:E; simpl.
    + apply cmp_eq in E. subst. intuition.
    + intuition.
    + rewrite IH. intuition.
Qed.

Lemma sort_unique_In (z : A) (l : list A) :
  In z (sort_unique cmp l) <-> In z l.
Proof.
  induction l as [|x l IH]; simpl; [reflexivity|].
  rewrite sinsert_In, IH. intuition.
Qed.

Hypothesis cmp_antisym : forall x y, cmp x y = CompOpp (cmp y x).
Hypothesis cmp_trans : forall x y z, cmp x y = Lt -> cmp y z = Lt -> cmp x z = Lt.

Fixpoint increasing (l : list A) : Prop :=
  match l with
  | [] => True
  | x :: l' => (forall y, In y l' -> cmp x y = Lt) /\ increasing l'
  end.

Lemma cmp_irrefl (x : A) : cmp x x <> Lt.
Proof.
  intros H. pose proof (cmp_antisym x x) as Ha. rewrite H in Ha. discriminate.
Qed.

Lemma sinsert_increasing (x : A) (l : list A) :
  increasing l -> increasing (sinsert cmp x l).
Proof.
  induction l as [|y l IH]; simpl; intros Hl.
  - split; [intros y []| exact I].
  - destruct Hl as [Hy Hl]. destruct (cmp x y) eqn:E; simpl.
    + split; assumption.
    + split; [|split; assumption].
      intros z [<-|Hz]; [assumption|]. eapply cmp_trans; eauto.
    + split; [|auto].
      intros z Hz. apply sinsert_In in Hz. destruct Hz as [->|Hz]; [|auto].
      rewrite cmp_antisym, E. reflexivity.
Qed.

Lemma sort_unique_increasing (l : list A) : increasing (sort_unique cmp l).
Proof.
  induction l as [|x l IH]; simpl; [exact I|]. apply sinsert_increasing, IH.
Qed.

Lemma increasing_NoDup (l : list A) : increasing l -> NoDup l.
Proof.
  induction l as [|x l IH]; simpl; intros H; constructor.
  - intros Hin. apply (cmp_irrefl x). apply H, Hin.
  - apply IH, H.
Qed.

Lemma increasing_ext (l1 l2 : list A) :
  increasing l1 -> increasing l2 -> (forall x, In x l1 <-> In x l2) -> l1 = l2.
Proof.
  revert l2; induction l1 as [|x l1 IH]; intros [|y l2] H1 H2 Hext.
  - reflexivity.
  - exfalso. apply (proj2 (Hext y)). left; reflexivity.
  - exfalso. apply (proj1 (Hext x)). left; reflexivity.
  - simpl in H1, H2. destruct H1 as [Hx H1], H2 as [Hy H2].
    assert (x = y) as ->.
    { destruct (proj1 (Hext x) (or_introl eq_refl)) as [E|Hin]; [congruence|].
      destruct (proj2 (Hext y) (or_introl eq_refl)) as [E|Hin']; [congruence|].
      exfalso. apply (cmp_irrefl x). eapply cmp_trans; [apply Hx, Hin' | apply Hy, Hin]. }
    f_equal. apply IH; auto.
    intros z; split; intros Hz.
    + destruct (proj1 (Hext z) (or_intror Hz)) as [E|Hin]; [|assumption].
      subst. exfalso. apply (cmp_irrefl z). apply Hx, Hz.
    + destruct (proj2 (Hext z) (or_intror Hz)) as [E|Hin]; [|assumption].
      subst. exfalso. apply (cmp_irrefl z). apply Hy, Hz.
Qed.

Lemma sort_unique_ext (l1 l2 : list A) :
  (forall x, In x l1 <-> In x l2) -> sort_unique cmp l1 = sort_unique cmp l2.
Proof.
  intros H. apply increasing_ext; try apply sort_unique_increasing.
  intros x. rewrite !sort_unique_In. apply H.
Qed.

Lemma sort_unique_NoDup (l : list A) : NoDup (sort_unique cmp l).
Proof. apply increasing_NoDup, sort_unique_increasing. Qed.
End SortUnique.

(** The order on labels is a strict total order. *)

Lemma num_compare_eq (x y : num) : num_compare x y = Eq -> x = y.
Proof.
  destruct x, y; simpl; intros H; try discriminate; try reflexivity.
  apply Qceq_alt in H. congruence.
Qed.

Lemma num_compare_antisym (x y : num) : num_compare x y = CompOpp (num_compare y x).
Proof.
  destruct x, y; simpl; try reflexivity.
  unfold Qccompare. rewrite <- Qcompare_antisym.
  destruct (Qcompare q0 q); reflexivity.
Qed.

Lemma num_compare_trans (x y z : num) :
  num_compare x y = Lt -> num_compare y z = Lt -> num_compare x z = Lt.
Proof.
  destruct x, y, z; simpl; intros H1 H2; try discriminate; try reflexivity.
  apply Qclt_alt. apply Qclt_alt in H1, H2. eapply Qclt_trans; eauto.
Qed.

Lemma string_compare_trans (x y z : string) :
  String.compare x y = Lt -> String.compare y z = Lt -> String.compare x z = Lt.
Proof.
  intros H1 H2. apply String_as_OT.cmp_lt. apply String_as_OT.cmp_lt in H1, H2.
  eapply String_as_OT.lt_trans; eauto.
Qed.

Lemma scalar_compare_eq (a b : scalar) : scalar_compare a b = Eq -> a = b.
Proof.
  destruct a, b; simpl; intros H; try discriminate.
  - apply String.compare_eq_iff in H. congruence.
  - apply num_compare_eq in H. congruence.
Qed.

Lemma scalar_compare_antisym (a b : scalar) :
  scalar_compare a b = CompOpp (scalar_compare b a).
Proof.
  destruct a, b; simpl; try reflexivity.
  - apply String.compare_antisym.
  - apply num_compare_antisym.
Qed.

Lemma scalar_compare_trans (a b c : scalar) :
  scalar_compare a b = Lt -> scalar_compare b c = Lt -> scalar_compare a c = Lt.
Proof.
  destruct a, b, c; simpl; intros H1 H2; try discriminate; try reflexivity.
  - eapply string_compare_trans; eauto.
  - eapply num_compare_trans; eauto.
Qed.

Lemma key_compare_eq (k1 k2 : list scalar) : key_compare k1 k2 = Eq -> k1 = k2.
Proof.
  revert k2; induction k1 as [|a k1 IH]; intros [|b k2]; simpl; intros H;
    try discriminate; try reflexivity.
  destruct (scalar_compare a b) eqn:E; try discriminate.
  apply scalar_compare_eq in E. apply IH in H. congruence.
Qed.

Lemma key_compare_antisym (k1 k2 : list scalar) :
  key_compare k1 k2 = CompOpp (key_compare k2 k1).
Proof.
  revert k2; induction k1 as [|a k1 IH]; intros [|b k2]; simpl; try reflexivity.
  rewrite (scalar_compare_antisym a b).
  destruct (scalar_compare b a); simpl; auto.
Qed.

Lemma key_compare_trans (k1 k2 k3 : list scalar) :
  key_compare k1 k2 = Lt -> key_compare k2 k3 = Lt -> key_compare k1 k3 = Lt.
Proof.
  revert k2 k3; induction k1 as [|a k1 IH]; intros [|b k2] [|c k3]; simpl;
    intros H1 H2; try discriminate; try reflexivity.
  destruct (scalar_compare a b) eqn:Eab; try discriminate.
  - apply scalar_compare_eq in Eab. subst b.
    destruct (scalar_compare a c); try discriminate; [eauto | reflexivity].
  - destruct (scalar_compare b c) eqn:Ebc; try discriminate.
    + apply scalar_compare_eq in Ebc. subst c. rewrite Eab. reflexivity.
    + rewrite (scalar_compare_trans a b c Eab Ebc). reflexivity.
Qed.

Lemma sort_keys_In (k : list scalar) (l : list (list scalar)) :
  In k (sort_keys l) <-> In k l.
Proof. apply sort_unique_In, key_compare_eq. Qed.

Lemma sort_keys_NoDup (l : list (list scalar)) : NoDup (sort_keys l).
Proof.
  apply sort_unique_NoDup;
    [apply key_compare_eq | apply key_compare_antisym | apply key_compare_trans].
Qed.

Lemma sort_keys_ext (l1 l2 : list (list scalar)) :
  (forall k, In k l1 <-> In k l2) -> sort_keys l1 = sort_keys l2.
Proof.
  apply sort_unique_ext;
    [apply key_compare_eq | apply key_compare_antisym | apply key_compare_trans].
Qed.

(** ** Shapes of the results of the primitives *)

Lemma select_ok (f f' : frame) (cs : list name) :
  select f cs = Ok f' ->
  (forall c, In c cs -> In c (columns f)) /\
  f' = mkframe (index f) cs (map (fun r => mkrow (ix r) (map (cell f r) cs)) (rows f)).
Proof.
  unfold select. intros H. inv_bind H. injection H as <-.
  split; [eapply require_columns_unit; eauto | reflexivity].
Qed.

Lemma set_index_ok (f f' : frame) (keys : list name) (append : bool) :
  set_index f keys append = Ok f' ->
  (forall c, In c keys -> In c (columns f)) /\
  (if append then index f else []) ++ keys <> [] /\
  f' = mkframe ((if append then index f else []) ++ keys) (minus (columns f) keys)
         (map (fun r => mkrow ((if append then ix r else []) ++ map (cell f r) keys)
                              (map (cell f r) (minus (columns f) keys)))
              (rows f)).
Proof.
  unfold set_index. intros H. inv_bind H.
  split; [eapply require_columns_unit; eauto|].
  destruct (_ ++ keys) eqn:E; [discriminate|].
  injection H as <-. split; [discriminate | reflexivity].
Qed.

Lemma set_index_intro (f : frame) (keys : list name) :
  (forall c, In c keys -> In c (columns f)) -> keys <> [] ->
  set_index f keys false
  = Ok (mkframe keys (minus (columns f) keys)
          (map (fun r => mkrow (map (cell f r) keys) (map (cell f r) (minus (columns f) keys)))
               (rows f))).
Proof.
  intros Hk Hne. unfold set_index. rewrite (proj2 (require_columns_ok f keys) Hk).
  cbn [bind app]. destruct keys; [congruence | reflexivity].
Qed.

Lemma insert_levels_ok (lv cols cols' : list name) :
  insert_levels lv cols = Ok cols' ->
  cols' = lv ++ cols /\ NoDup lv /\ (forall n, In n lv -> ~ In n cols).
Proof.
  revert cols'; induction lv as [|n lv IH]; simpl; intros cols' H.
  - injection H as <-. repeat split; [constructor | intros n []].
  - inv_bind H. destruct (mem n a) eqn:E; [discriminate|].
    injection H as <-. destruct (IH _ Ha) as [-> [Hnd Hnot]].
    apply mem_not_In in E. repeat split.
    + constructor; [|assumption]. intros Hin. apply E, in_or_app. auto.
    + intros m [<-|Hm]; [|auto]. intros Hin. apply E, in_or_app. auto.
Qed.

Lemma insert_levels_intro (lv cols : list name) :
  NoDup lv -> (forall n, In n lv -> ~ In n cols) ->
  insert_levels lv cols = Ok (lv ++ cols).
Proof.
  induction lv as [|n lv IH]; simpl; intros Hnd Hnot; [reflexivity|].
  inversion Hnd; subst. rewrite IH by auto. simpl.
  replace (mem n (lv ++ cols)) with false; [reflexivity|].
  symmetry. apply mem_not_In. intros Hin. apply in_app_or in Hin.
  destruct Hin as [Hin|Hin]; [contradiction | exact (Hnot n (or_introl eq_refl) Hin)].
Qed.

(** ** [Index.difference] *)

Lemma unique_names_In (c : name) (l : list name) : In c (unique_names l) <-> In c l.
Proof.
  induction l as [|a l IH]; simpl; [reflexivity|].
  rewrite filter_In, IH. split.
  - intros [H|[H _]]; auto.
  - intros [H|H]; [auto|].
    destruct (name_eq_dec a c) as [E|E]; [auto|].
    right. split; [assumption|]. apply negb_true_iff, name_eqb_neq. assumption.
Qed.

Lemma NoDup_filter {A : Type} (p : A -> bool) (l : list A) : NoDup l -> NoDup (filter p l).
Proof.
  induction 1 as [|x l Hx Hl IH]; simpl; [constructor|].
  destruct (p x); [constructor|]; auto.
  rewrite filter_In. tauto.
Qed.

Lemma unique_names_NoDup (l : list name) : NoDup (unique_names l).
Proof.
  induction l as [|a l IH]; simpl; constructor.
  - rewrite filter_In. intros [_ H].
    apply negb_true_iff, name_eqb_neq in H. congruence.
  - apply NoDup_filter, IH.
Qed.

Lemma all_strings_map (l : list name) (ss : list string) :
  all_strings l = Some ss -> l = map NStr ss.
Proof.
  revert ss; induction l as [|a l IH]; simpl; intros ss H.
  - injection H as <-. reflexivity.
  - destruct a; try discriminate.
    destruct (all_strings l) as [ss'|]; simpl in H; [|discriminate].
    injection H as <-. simpl. f_equal. auto.
Qed.

Lemma all_tuples_map (l : list name) (ts : list (list string)) :
  all_tuples l = Some ts -> l = map NTuple ts.
Proof.
  revert ts; induction l as [|a l IH]; simpl; intros ts H.
  - injection H as <-. reflexivity.
  - destruct a; try discriminate.
    destruct (all_tuples l) as [ts'|]; simpl in H; [|discriminate].
    injection H as <-. simpl. f_equal. auto.
Qed.

Lemma tuple_compare_eq (a b : list string) : tuple_compare a b = Eq -> a = b.
Proof.
  revert b; induction a as [|x a IH]; intros [|y b]; simpl; intros H;
    try discriminate; try reflexivity.
  destruct (String.compare x y) eqn:E; try discriminate.
  apply String.compare_eq_iff in E. apply IH in H. congruence.
Qed.

Lemma tuple_compare_antisym (a b : list string) :
  tuple_compare a b = CompOpp (tuple_compare b a).
Proof.
  revert b; induction a as [|x a IH]; intros [|y b]; simpl; try reflexivity.
  rewrite (String.compare_antisym x y).
  destruct (String.compare y x); simpl; auto.
Qed.

Lemma tuple_compare_trans (a b c : list string) :
  tuple_compare a b = Lt -> tuple_compare b c = Lt -> tuple_compare a c = Lt.
Proof.
  revert b c; induction a as [|x a IH]; intros [|y b] [|z c]; simpl;
    intros H1 H2; try discriminate; try reflexivity.
  destruct (String.compare x y) eqn:Exy; try discriminate.
  - apply String.compare_eq_iff in Exy. subst y.
    destruct (String.compare x z); try discriminate; [eauto | reflexivity].
  - destruct (String.compare y z) eqn:Eyz; try discriminate.
    + apply String.compare_eq_iff in Eyz. subst z. rewrite Exy. reflexivity.
    + rewrite (string_compare_trans x y z Exy Eyz). reflexivity.
Qed.

Lemma safe_sort_In (c : name) (l : list name) : In c (safe_sort l) <-> In c l.
Proof.
  unfold safe_sort. destruct (all_strings l) as [ss|] eqn:E.
  - apply all_strings_map in E. subst l. rewrite !in_map_iff.
    split; intros [s [Hs Hin]]; exists s; split; auto;
      apply (sort_unique_In String.compare String.compare_eq_iff); assumption.
  - destruct (all_tuples l) as [ts|] eqn:T; [|reflexivity].
    apply all_tuples_map in T. subst l. rewrite !in_map_iff.
    split; intros [s [Hs Hin]]; exists s; split; auto;
      apply (sort_unique_In tuple_compare tuple_compare_eq); assumption.
Qed.

Lemma safe_sort_NoDup (l : list name) : NoDup l -> NoDup (safe_sort l).
Proof.
  unfold safe_sort. destruct (all_strings l) as [ss|] eqn:E.
  - intros _. apply Injective_map_NoDup.
    + intros x y H. congruence.
    + apply sort_unique_NoDup;
        [apply String.compare_eq_iff | apply String.compare_antisym
        | apply string_compare_trans].
  - destruct (all_tuples l) as [ts|] eqn:T; [|auto].
    intros _. apply Injective_map_NoDup.
    + intros x y H. congruence.
    + apply sort_unique_NoDup;
        [apply tuple_compare_eq | apply tuple_compare_antisym | apply tuple_compare_trans].
Qed.

Lemma Index_difference_In (cols other : list name) (c : name) :
  In c (Index_difference cols other) <-> In c cols /\ ~ In c other.
Proof.
  unfold Index_difference. rewrite safe_sort_In, unique_names_In. apply minus_In.
Qed.

Lemma Index_difference_NoDup (cols other : list name) :
  NoDup (Index_difference cols other).
Proof. apply safe_sort_NoDup, unique_names_NoDup. Qed.

(** ** Column-name normalization (C10) *)

(** C10.  An argument that is neither [None], a list nor a [pd.Index] --
    a string as much as a tuple of names -- is one column name and comes
    back wrapped in a singleton list; a list or a [pd.Index] comes back as
    its own names.  [value], [marginalize], [stratify] and [ratio] all
    normalize this way, so each treats the bare name as the singleton
    list of it. *)
Theorem ensure_iterable_wraps_single_name (n : name) :
  n <> NNone ->
  (forall df default, _ensure_iterable (Scalar n) df default = [n]) /\
  (forall ss df default, _ensure_iterable (Scalar (NTuple ss)) df default = [NTuple ss]) /\
  (forall l df default,
      _ensure_iterable (PList l) df default = l /\
      _ensure_iterable (PIndex l) df default = l) /\
  (forall g df a b,
      value g df (Scalar n) a b = value g df (PList [n]) a b /\
      value g df a (Scalar n) b = value g df a (PList [n]) b /\
      value g df a b (Scalar n) = value g df a b (PList [n])) /\
  (forall df a reset,
      marginalize df (Scalar n) a reset = marginalize df (PList [n]) a reset /\
      marginalize df a (Scalar n) reset = marginalize df a (PList [n]) reset) /\
  (forall g df a reset,
      stratify g df (Scalar n) a reset = stratify g df (PList [n]) a reset /\
      stratify g df a (Scalar n) reset = stratify g df a (PList [n]) reset) /\
  (forall g fn fd m a b c mc drop rec reset,
      ratio g fn fd (Scalar n) m a b c mc drop rec reset
      = ratio g fn fd (PList [n]) m a b c mc drop rec reset /\
      ratio g fn fd a m (Scalar n) b c mc drop rec reset
      = ratio g fn fd a m (PList [n]) b c mc drop rec reset /\
      ratio g fn fd a m b (Scalar n) c mc drop rec reset
      = ratio g fn fd a m b (PList [n]) c mc drop rec reset /\
      ratio g fn fd a m b c (Scalar n) mc drop rec reset
      = ratio g fn fd a m b c (PList [n]) mc drop rec reset).
Proof.
  intros Hn.
  assert (E : forall df default, _ensure_iterable (Scalar n) df default = [n]).
  { intros df default. unfold _ensure_iterable. destruct n; simpl; congruence. }
  assert (N : is_None (Scalar n) = false) by (destruct n; simpl; congruence).
  repeat split; try reflexivity; try apply E.
  all: try (unfold value, value_index; rewrite ?N, ?E; reflexivity).
  all: try (unfold marginalize; rewrite ?E; reflexivity).
  all: try (unfold stratify; rewrite ?E; reflexivity).
  all: unfold ratio, stratify;
    destruct (_ensure_columns_not_levels fn None); simpl; [|reflexivity];
    destruct (_ensure_columns_not_levels fd None); simpl; [|reflexivity];
    rewrite ?E; reflexivity.
Qed.

Lemma ensure_iterable_wraps_single_name_witness :
  NTuple ["sex"; "age"] <> NNone /\
  _ensure_iterable (Scalar (NTuple ["sex"; "age"])) (flat [] []) PyNone
  = [NTuple ["sex"; "age"]].
Proof.
  split; [discriminate|].
  apply (ensure_iterable_wraps_single_name (NTuple ["sex"; "age"])). discriminate.
Defined.

Lemma intersects_In (a b : list name) :
  intersects a b = true <-> exists c, In c a /\ In c b.
Proof.
  unfold intersects. rewrite existsb_exists.
  split; intros [c [H1 H2]]; exists c; split; auto; apply mem_In; assumption.
Qed.

Lemma value_ok (g : globals) (df r : frame) (include exclude value_cols : pyarg) :
  value g df include exclude value_cols = Ok r ->
  exists index_cols,
    value_index g df include exclude (_ensure_iterable value_cols df PyNone) = Ok index_cols /\
    index r = index_cols /\
    columns r = _ensure_iterable value_cols df PyNone.
Proof.
  unfold value. intros H. inv_bind H. inv_bind H.
  apply set_index_ok in Ha0. destruct Ha0 as [_ [_ ->]].
  apply select_ok in H. destruct H as [_ ->]. simpl.
  exists a. auto.
Qed.

(** ** [value]: the conflict of [include] and [exclude] (C6) *)

(** C6.  [value] raises its ValueError exactly when both [include] and
    [exclude] are given.  With at most one of them the index of a result
    follows the mode: all columns but the value and excluded ones when
    [include] is absent, the included columns followed by the global index
    columns otherwise. *)
Theorem value_raises_iff_include_and_exclude
  (g : globals) (df : frame) (include exclude value_cols : pyarg) :
  (value g df include exclude value_cols = Err (ValueError msg_include_exclude)
   <-> is_None include = false /\ is_None exclude = false) /\
  (forall r, value g df include exclude value_cols = Ok r ->
     (is_None include = true /\
      index r = Index_difference (columns df)
                  (_ensure_iterable value_cols df PyNone
                   ++ _ensure_iterable exclude df (PList []))) \/
     (is_None include = false /\ is_None exclude = true /\
      index r = _ensure_iterable include df PyNone ++ INDEX_COLUMNS g)).
Proof.
  split; [split|].
  - intros H. unfold value, value_index in H.
    destruct (is_None include) eqn:Ei; [|destruct (is_None exclude) eqn:Ee]; simpl in H.
    + exfalso. apply (proj1 module_errors_not_library). err_auto.
    + exfalso. apply (proj1 module_errors_not_library). err_auto.
    + auto.
  - intros [Ei Ee]. unfold value, value_index. rewrite Ei, Ee. reflexivity.
  - intros r H. apply value_ok in H. destruct H as [ic [Hic [Hidx _]]].
    unfold value_index in Hic.
    destruct (is_None include) eqn:Ei; [|destruct (is_None exclude) eqn:Ee]; simpl in Hic.
    + left. split; [reflexivity|]. congruence.
    + right. repeat split. congruence.
    + discriminate.
Qed.

Lemma value_raises_iff_include_and_exclude_witness :
  value initial_globals people (Scalar (NStr "sex")) (Scalar (NStr "measure"))
        (Scalar VALUE_COLUMN)
  = Err (ValueError msg_include_exclude) /\
  exists r,
    value initial_globals people (Scalar (NStr "sex")) PyNone (Scalar VALUE_COLUMN) = Ok r /\
    index r = [NStr "sex"; DRAW_COLUMN; SCENARIO_COLUMN].
Proof.
  split.
  - apply (proj1 (value_raises_iff_include_and_exclude initial_globals people
                    (Scalar (NStr "sex")) (Scalar (NStr "measure")) (Scalar VALUE_COLUMN))).
    split; reflexivity.
  - eexists. split; [reflexivity|].
    destruct (proj2 (value_raises_iff_include_and_exclude initial_globals people
                       (Scalar (NStr "sex")) PyNone (Scalar VALUE_COLUMN)) _ eq_refl)
      as [[H _]|[_ [_ H]]]; [discriminate H | exact H].
Defined.

(** ** [value] with [exclude] (C9) *)

(** C9, as stated, fails when an excluded column is a value column:
    [value(df, exclude='value')] still has [value] as its data column. *)
Lemma value_keeps_excluded_value_column :
  exists r,
    value initial_globals people PyNone (Scalar VALUE_COLUMN) (Scalar VALUE_COLUMN) = Ok r /\
    In VALUE_COLUMN (_ensure_iterable (Scalar VALUE_COLUMN) people (PList [])) /\
    In VALUE_COLUMN (columns r).
Proof.
  eexists. split; [reflexivity|]. split; left; reflexivity.
Qed.

(** C9, amended.  For every table and every [exclude] argument, a result
    of [value(df, exclude=...)] has as index the table's columns minus
    the value columns minus the excluded columns, and as data columns
    exactly the value columns; so an excluded column is no index level,
    and is a data column only if it is itself a value column.  The call
    returns whenever the value columns exist and some column is left for
    the index. *)
Theorem value_exclude_shape
  (g : globals) (df : frame) (exclude value_cols : pyarg) :
  let V := _ensure_iterable value_cols df PyNone in
  let E := _ensure_iterable exclude df (PList []) in
  ((forall c, In c V -> In c (columns df)) ->
   Index_difference (columns df) (V ++ E) <> [] ->
   exists r, value g df PyNone exclude value_cols = Ok r) /\
  (forall r,
      value g df PyNone exclude value_cols = Ok r ->
      index r = Index_difference (columns df) (V ++ E) /\
      columns r = V /\
      (forall c, In c E -> ~ In c (index r) /\ (~ In c V -> ~ In c (columns r)))).
Proof.
  intros V E. split.
  - intros HV Hne. unfold value, value_index. cbn [is_None PyNone bind].
    fold V. fold E.
    rewrite (set_index_intro df (Index_difference (columns df) (V ++ E))); auto.
    + cbn [bind]. unfold select.
      rewrite (proj2 (require_columns_ok _ V)); [cbn [bind]; eauto|].
      intros c Hc. cbn [columns]. apply minus_In. split; [auto|].
      rewrite Index_difference_In. intros [_ Hn]. apply Hn, in_or_app. auto.
    + intros c Hc. apply Index_difference_In in Hc. tauto.
  - intros r H. apply value_ok in H. destruct H as [ic [Hic [Hidx Hcols]]].
    unfold value_index in Hic. simpl in Hic. injection Hic as <-.
    fold V in Hidx, Hcols. fold E in Hidx.
    repeat split; auto.
    + rewrite Hidx, Index_difference_In. intros [_ Hn]. apply Hn, in_or_app. auto.
    + rewrite Hcols. auto.
Qed.

Lemma value_exclude_shape_witness :
  exists r,
    value initial_globals people PyNone (Scalar (NStr "measure")) (Scalar VALUE_COLUMN) = Ok r /\
    index r = [NStr "input_draw"; NStr "scenario"; NStr "sex"] /\
    columns r = [VALUE_COLUMN].
Proof.
  destruct (proj1 (value_exclude_shape initial_globals people (Scalar (NStr "measure"))
                     (Scalar VALUE_COLUMN))) as [r Hr].
  - intros c [<-|[]]. simpl. tauto.
  - vm_compute. discriminate.
  - exists r. split; [exact Hr|].
    destruct (proj2 (value_exclude_shape initial_globals people (Scalar (NStr "measure"))
                       (Scalar VALUE_COLUMN)) r Hr) as [H1 [H2 _]].
    split; [exact H1 | exact H2].
Defined.

(** ** [difference]: which rows are subtracted (C8) *)



(** ** [ratio]: the broadcast columns must be disjoint (C7) *)

(** C7.  Once the operands' index levels are columns, [ratio] raises its
    ValueError exactly when the normalized [numerator_broadcast] and
    [denominator_broadcast] share a column name. *)
Theorem ratio_raises_iff_broadcasts_overlap
  (g : globals) (numerator denominator numerator' denominator' : frame)
  (strata : pyarg) (multiplier : num) (numerator_broadcast denominator_broadcast : pyarg)
  (value_col : pyarg) (measure_col : name) (drop : bool) (record_inputs : option bool)
  (reset : bool) :
  _ensure_columns_not_levels numerator None = Ok numerator' ->
  _ensure_columns_not_levels denominator None = Ok denominator' ->
  (ratio g numerator denominator strata multiplier numerator_broadcast
         denominator_broadcast value_col measure_col drop record_inputs reset
   = Err (ValueError msg_disjoint)
   <-> exists c,
       In c (_ensure_iterable numerator_broadcast numerator' (PList [])) /\
       In c (_ensure_iterable denominator_broadcast denominator' (PList []))).
Proof.
  intros Hn Hd. rewrite <- intersects_In. unfold ratio. rewrite Hn, Hd. simpl.
  destruct (intersects _ _) eqn:E; split; intros H; try reflexivity; try discriminate.
  exfalso. apply (proj1 (proj2 module_errors_not_library)).
  destruct drop, reset; err_auto;
    repeat match goal with
           | H : match ?o with Some _ => _ | None => _ end = Err _ |- _ => destruct o as [[? ?]|]
           end; err_auto.
Qed.

Lemma ratio_raises_iff_broadcasts_overlap_witness :
  ratio initial_globals people people (Scalar (NStr "sex")) (Fin 1)
        (Scalar (NStr "measure")) (PList [NStr "measure"])
        (Scalar VALUE_COLUMN) MEASURE_COLUMN false None true
  = Err (ValueError msg_disjoint).
Proof.
  apply (ratio_raises_iff_broadcasts_overlap initial_globals people people people people
           (Scalar (NStr "sex")) (Fin 1) (Scalar (NStr "measure")) (PList [NStr "measure"])
           (Scalar VALUE_COLUMN) MEASURE_COLUMN false None true eq_refl eq_refl).
  exists (NStr "measure"). split; left; reflexivity.
Defined.

(** ** Sums of finite and missing cells *)

Lemma nansum_summable (l : list scalar) :
  Forall summable l -> nansum l = Ok (Fin (qsum (map to_q l))).
Proof.
  induction 1 as [|a l Ha Hl IH]; simpl; [reflexivity|].
  destruct a as [s|[q| | |]]; simpl in Ha; try contradiction.
  - rewrite IH. simpl. reflexivity.
  - rewrite IH. rewrite Qcplus_0_l. reflexivity.
Qed.

Lemma qsum_map_plus {A : Type} (F G : A -> Qc) (l : list A) :
  qsum (map (fun a => (F a + G a)%Qc) l) = (qsum (map F l) + qsum (map G l))%Qc.
Proof.
  induction l as [|a l IH]; simpl; [ring | rewrite IH; ring].
Qed.

Lemma qsum_map_zero {A : Type} (l : list A) : qsum (map (fun _ => 0%Qc) l) = 0%Qc.
Proof. induction l as [|a l IH]; simpl; [reflexivity | rewrite IH; ring]. Qed.

Lemma qsum_indicator (a : list scalar) (v : Qc) (ks : list (list scalar)) :
  NoDup ks -> In a ks ->
  qsum (map (fun k => if key_eqb a k then v else 0%Qc) ks) = v.
Proof.
  induction 1 as [|k ks Hk Hks IH]; simpl; intros Hin; [contradiction|].
  destruct (key_eqb a k) eqn:E.
  - apply key_eqb_eq in E. subst k.
    rewrite (map_ext_in _ (fun _ => 0%Qc)); [rewrite qsum_map_zero; ring|].
    intros k Hin'. destruct (key_eqb a k) eqn:E'; [|reflexivity].
    apply key_eqb_eq in E'. subst. contradiction.
  - destruct Hin as [->|Hin]; [rewrite key_eqb_refl in E; discriminate|].
    rewrite IH by assumption. ring.
Qed.

(** Summing group by group is summing everything, when every element
    falls in exactly one listed group. *)
Lemma qsum_partition {A : Type} (f : A -> list scalar) (g : A -> Qc)
  (ks : list (list scalar)) (l : list A) :
  NoDup ks -> (forall x, In x l -> In (f x) ks) ->
  qsum (map (fun k => qsum (map g (filter (fun x => key_eqb (f x) k) l))) ks)
  = qsum (map g l).
Proof.
  intros Hnd. induction l as [|x l IH]; intros Hin; simpl.
  - apply qsum_map_zero.
  - rewrite (map_ext _ (fun k => ((if key_eqb (f x) k then g x else 0)
                                  + qsum (map g (filter (fun y => key_eqb (f y) k) l)))%Qc)).
    + rewrite qsum_map_plus, IH by (intros; apply Hin; right; assumption).
      rewrite qsum_indicator; [reflexivity | assumption | apply Hin; left; reflexivity].
    + intros k. destruct (key_eqb (f x) k); simpl; ring.
Qed.

Lemma filter_filter_implied {A : Type} (p q : A -> bool) (l : list A) :
  (forall x, In x l -> p x = true -> q x = true) ->
  filter p (filter q l) = filter p l.
Proof.
  induction l as [|x l IH]; intros H; simpl; [reflexivity|].
  destruct (q x) eqn:Eq; simpl.
  - destruct (p x); [f_equal|]; apply IH; intros; apply H; auto; right; assumption.
  - destruct (p x) eqn:Ep.
    + rewrite (H x (or_introl eq_refl) Ep) in Eq. discriminate.
    + apply IH. intros; apply H; auto; right; assumption.
Qed.

(** The same, restricted to the groups that a projection [proj] sends to
    one coarser group [k]. *)
Lemma qsum_partition_proj {A : Type} (f : A -> list scalar) (g : A -> Qc)
  (proj : list scalar -> list scalar) (k : list scalar)
  (ks : list (list scalar)) (l : list A) :
  NoDup ks -> (forall x, In x l -> In (f x) ks) ->
  qsum (map (fun k1 => qsum (map g (filter (fun x => key_eqb (f x) k1) l)))
            (filter (fun k1 => key_eqb (proj k1) k) ks))
  = qsum (map g (filter (fun x => key_eqb (proj (f x)) k) l)).
Proof.
  intros Hnd Hin.
  rewrite <- (qsum_partition f g (filter (fun k1 => key_eqb (proj k1) k) ks)
                (filter (fun x => key_eqb (proj (f x)) k) l)).
  - f_equal. apply map_ext_in. intros k1 Hk1. apply filter_In in Hk1.
    destruct Hk1 as [_ Hk1]. f_equal. f_equal. symmetry. apply filter_filter_implied.
    intros x _ Hx. apply key_eqb_eq in Hx. subst k1. assumption.
  - apply NoDup_filter, Hnd.
  - intros x Hx. apply filter_In in Hx. destruct Hx as [Hx Hk].
    apply filter_In. auto.
Qed.

Lemma map_filter_comp {A B C : Type} (f : A -> B) (phi : B -> C) (psi : B -> bool)
  (l : list A) :
  map (fun a => phi (f a)) (filter (fun a => psi (f a)) l) = map phi (filter psi (map f l)).
Proof.
  induction l as [|a l IH]; simpl; [reflexivity|].
  destruct (psi (f a)); simpl; rewrite IH; reflexivity.
Qed.

Lemma existsb_same_elements {A : Type} (p : A -> bool) (l1 l2 : list A) :
  (forall x, In x l1 <-> In x l2) -> existsb p l1 = existsb p l2.
Proof.
  intros H. apply eq_true_iff_eq. rewrite !existsb_exists.
  split; intros [x [Hin Hp]]; exists x; split; auto; apply H; assumption.
Qed.

(** ** Frames built by [range_index] *)

Lemma range_index_cells_from (start : Z) (css : list (list scalar)) :
  map cells (map (fun p => mkrow [Num (Fin (qz (fst p)))] (snd p))
                 (combine (range_from start (List.length css)) css)) = css.
Proof.
  revert start; induction css as [|cs css IH]; intros start; simpl; [reflexivity|].
  f_equal. apply IH.
Qed.

Lemma range_index_cells (css : list (list scalar)) : map cells (range_index css) = css.
Proof. apply range_index_cells_from. Qed.

Lemma range_index_In (css : list (list scalar)) (r : row) :
  In r (range_index css) -> In (cells r) css.
Proof.
  intros H. rewrite <- (range_index_cells css). apply in_map. assumption.
Qed.

Lemma level_labels_named (f : frame) :
  ~ In NNone (index f) -> level_labels f = index f.
Proof.
  unfold level_labels. intros H.
  assert (G : forall l start, ~ In NNone l ->
              map (fun p => level_label f (fst p) (snd p)) (combine (seq start (List.length l)) l) = l).
  { induction l as [|n l IH]; intros start Hn; simpl; [reflexivity|].
    f_equal.
    - destruct n; simpl; try reflexivity. exfalso. apply Hn. left. reflexivity.
    - apply IH. intros Hin. apply Hn. right. assumption. }
  apply G, H.
Qed.

(** ** What [groupby(...).sum()] returns on summable cells *)

Lemma group_rows_In (f : frame) (keys : list name) (k : list scalar) (r : row) :
  In r (group_rows f keys k) -> In r (rows f).
Proof.
  unfold group_rows, live_rows. rewrite !filter_In. tauto.
Qed.

Lemma groupby_sum_summable (f : frame) (keys vcols : list name) :
  keys <> [] ->
  (forall c, In c keys -> In c (columns f) \/ In c (index f)) ->
  (forall c, In c vcols -> In c (columns f)) ->
  (forall r c, In r (rows f) -> In c vcols -> summable (cell f r c)) ->
  groupby_sum f keys vcols = Ok (grouped f keys vcols).
Proof.
  intros Hk Hf Hv Hs. unfold groupby_sum.
  rewrite (proj2 (require_fields_ok f keys) Hf). simpl.
  destruct keys as [|k0 keys]; [congruence|].
  rewrite (proj2 (require_columns_ok f vcols) Hv). simpl.
  rewrite (mapM_map _ (fun k => mkrow k (map (fun c => Num (Fin (group_total f (k0 :: keys) k c)))
                                          vcols))).
  - reflexivity.
  - intros k _.
    rewrite (mapM_map _ (fun c => Num (Fin (group_total f (k0 :: keys) k c)))); [reflexivity|].
    intros c Hc. unfold group_sum. rewrite nansum_summable.
    + simpl. rewrite map_map. reflexivity.
    + apply Forall_forall. intros x Hx. apply in_map_iff in Hx.
      destruct Hx as [r [<- Hr]]. apply Hs; [eapply group_rows_In; eauto | assumption].
Qed.

Lemma group_keys_In (f : frame) (keys : list name) (k : list scalar) :
  In k (group_keys f keys) <->
  exists r, In r (rows f) /\ existsb is_nan (group_key f keys r) = false /\
            group_key f keys r = k.
Proof.
  unfold group_keys. rewrite sort_keys_In, in_map_iff. unfold live_rows.
  split; intros [r H]; exists r; rewrite filter_In, negb_true_iff in *; tauto.
Qed.

Lemma group_key_length (f : frame) (keys : list name) (r : row) :
  List.length (group_key f keys r) = List.length keys.
Proof. unfold group_key. apply length_map. Qed.

Lemma group_key_cells (f : frame) (keys : list name) (r : row) :
  (forall c, In c keys -> In c (columns f)) ->
  group_key f keys r = cells_key (columns f) keys (cells r).
Proof.
  intros H. unfold group_key, cells_key. apply map_ext_in. intros c Hc.
  unfold field. rewrite (proj2 (mem_In c (columns f)) (H c Hc)). reflexivity.
Qed.

Lemma live_rows_cells (f : frame) (keys : list name) :
  (forall c, In c keys -> In c (columns f)) ->
  live_rows f keys
  = filter (fun r => negb (existsb is_nan (cells_key (columns f) keys (cells r)))) (rows f).
Proof.
  intros H. unfold live_rows. apply filter_ext. intros r.
  rewrite group_key_cells by assumption. reflexivity.
Qed.

Lemma group_rows_cells (f : frame) (keys : list name) (k : list scalar) :
  (forall c, In c keys -> In c (columns f)) ->
  group_rows f keys k
  = filter (fun r => key_eqb (cells_key (columns f) keys (cells r)) k)
      (filter (fun r => negb (existsb is_nan (cells_key (columns f) keys (cells r))))
              (rows f)).
Proof.
  intros H. unfold group_rows. rewrite live_rows_cells by assumption.
  apply filter_ext. intros r. rewrite group_key_cells by assumption. reflexivity.
Qed.

Lemma reset_index_grouped (f : frame) (keys vcols : list name) :
  NoDup keys -> ~ In NNone keys -> (forall c, In c keys -> ~ In c vcols) ->
  reset_index (grouped f keys vcols) = Ok (grouped_flat f keys vcols).
Proof.
  intros Hnd Hnone Hdisj. unfold reset_index.
  rewrite level_labels_named by assumption. simpl.
  rewrite insert_levels_intro by assumption. simpl.
  unfold grouped_flat. rewrite map_map. reflexivity.
Qed.

Lemma grouped_flat_cells (f : frame) (keys vcols : list name) (r : row) :
  In r (rows (grouped_flat f keys vcols)) ->
  exists k, In k (group_keys f keys) /\
            cells r = k ++ map (fun c => Num (Fin (group_total f keys k c))) vcols.
Proof.
  simpl. intros H. apply range_index_In, in_map_iff in H.
  destruct H as [k [Hk Hin]]. exists k. auto.
Qed.

Lemma group_keys_length (f : frame) (keys : list name) (k : list scalar) :
  In k (group_keys f keys) -> List.length k = List.length keys.
Proof.
  intros H. apply group_keys_In in H. destruct H as [r [_ [_ <-]]].
  apply group_key_length.
Qed.

Lemma grouped_flat_key_cell (f : frame) (keys vcols : list name) (k : list scalar)
  (c : name) (rest : list scalar) :
  List.length k = List.length keys -> In c keys ->
  getv (keys ++ vcols) (k ++ rest) c = getv keys k c.
Proof. intros. apply getv_app_l; auto. Qed.

Lemma grouped_flat_value_cell (f : frame) (keys vcols : list name) (k : list scalar)
  (c : name) :
  List.length k = List.length keys -> ~ In c keys -> In c vcols ->
  getv (keys ++ vcols) (k ++ map (fun c => Num (Fin (group_total f keys k c))) vcols) c
  = Num (Fin (group_total f keys k c)).
Proof.
  intros Hlen Hc Hv. rewrite getv_app_r by auto.
  apply (getv_map (fun c => Num (Fin (group_total f keys k c)))). assumption.
Qed.

Lemma filter_filter_and {A : Type} (p q : A -> bool) (l : list A) :
  filter p (filter q l) = filter (fun x => q x && p x) l.
Proof.
  induction l as [|x l IH]; simpl; [reflexivity|].
  destruct (q x); simpl; [destruct (p x)|]; rewrite IH; reflexivity.
Qed.

Lemma filter_ext_in' {A : Type} (p q : A -> bool) (l : list A) :
  (forall x, In x l -> p x = q x) -> filter p l = filter q l.
Proof.
  induction l as [|x l IH]; intros H; simpl; [reflexivity|].
  rewrite (H x (or_introl eq_refl)), IH by (intros; apply H; right; assumption).
  reflexivity.
Qed.

Lemma range_index_has (css : list (list scalar)) (cs : list scalar) :
  In cs css -> exists r, In r (range_index css) /\ cells r = cs.
Proof.
  intros H. rewrite <- (range_index_cells css) in H. apply in_map_iff in H.
  destruct H as [r [Hr Hin]]. exists r. auto.
Qed.

(** ** Marginalizing, then stratifying (C2) *)

Section Regroup.
Variable t : frame.
Variables K1 K V : list name.
Hypothesis K1_nodup : NoDup K1.
Hypothesis K_same : forall c, In c K <-> In c K1.
Hypothesis K1_columns : forall c, In c K1 -> In c (columns t).
Hypothesis K1_not_values : forall c, In c K1 -> ~ In c V.

Let t1 : frame := grouped_flat t K1 V.
Let proj (k1 : list scalar) : list scalar := cells_key K1 K k1.
Let sums (k1 : list scalar) : list scalar :=
  map (fun c => Num (Fin (group_total t K1 k1 c))) V.

Lemma regroup_key_of_flat (k1 rest : list scalar) :
  List.length k1 = List.length K1 ->
  cells_key (K1 ++ V) K (k1 ++ rest) = proj k1.
Proof.
  intros Hlen. unfold proj, cells_key. apply map_ext_in. intros c Hc.
  apply getv_app_l; [auto | apply K_same, Hc].
Qed.

Lemma regroup_proj (r : row) : proj (group_key t K1 r) = group_key t K r.
Proof.
  unfold proj, cells_key, group_key. apply map_ext_in. intros c Hc.
  apply (getv_map (field t r)). apply K_same, Hc.
Qed.

Lemma regroup_nan (r : row) :
  existsb is_nan (group_key t K r) = existsb is_nan (group_key t K1 r).
Proof.
  apply existsb_same_elements. intros x. unfold group_key. rewrite !in_map_iff.
  split; intros [c [Hc Hin]]; exists c; split; auto; apply K_same; assumption.
Qed.

Lemma regroup_live : live_rows t K = live_rows t K1.
Proof. unfold live_rows. apply filter_ext. intros r. rewrite regroup_nan. reflexivity. Qed.

Lemma regroup_proj_live (k1 : list scalar) :
  In k1 (group_keys t K1) -> existsb is_nan (proj k1) = false.
Proof.
  intros H. apply group_keys_In in H. destruct H as [r [_ [Hn <-]]].
  rewrite regroup_proj, regroup_nan. assumption.
Qed.

Lemma regroup_K_columns (c : name) : In c K -> In c (columns t1).
Proof. intros H. simpl. apply in_or_app. left. apply K_same, H. Qed.

Lemma regroup_keys : group_keys t1 K = group_keys t K.
Proof.
  unfold group_keys at 1 2. apply sort_keys_ext. intros k. rewrite !in_map_iff. split.
  - intros [r1 [Hk Hr1]]. unfold live_rows in Hr1. apply filter_In in Hr1.
    destruct Hr1 as [Hr1 _]. apply grouped_flat_cells in Hr1.
    destruct Hr1 as [k1 [Hk1 Hcells]].
    rewrite (group_key_cells t1 K r1 regroup_K_columns) in Hk.
    simpl in Hk. rewrite Hcells, regroup_key_of_flat in Hk
      by (eapply group_keys_length; eauto).
    apply group_keys_In in Hk1. destruct Hk1 as [r [Hr [Hn Hkey]]].
    exists r. split.
    + rewrite <- regroup_proj, Hkey. assumption.
    + rewrite regroup_live. unfold live_rows. apply filter_In.
      rewrite Hn. auto.
  - intros [r [Hk Hr]]. rewrite regroup_live in Hr.
    assert (Hk1 : In (group_key t K1 r) (group_keys t K1)).
    { unfold group_keys. apply sort_keys_In, in_map. assumption. }
    destruct (range_index_has _ _ (in_map (fun k1 => k1 ++ sums k1) _ _ Hk1))
      as [r1 [Hr1 Hcells]].
    assert (Hkey : group_key t1 K r1 = k).
    { rewrite (group_key_cells t1 K r1 regroup_K_columns). simpl.
      rewrite Hcells, regroup_key_of_flat by apply group_key_length.
      rewrite regroup_proj. assumption. }
    exists r1. split; [assumption|].
    unfold live_rows. apply filter_In. split; [exact Hr1|].
    rewrite Hkey, <- Hk, regroup_nan.
    unfold live_rows in Hr. apply filter_In in Hr. tauto.
Qed.

Lemma regroup_total (k : list scalar) (c : name) :
  In c V -> group_total t1 K k c = group_total t K k c.
Proof.
  intros Hc. unfold group_total at 1.
  rewrite (group_rows_cells t1 K k regroup_K_columns), filter_filter_and.
  unfold cell.
  rewrite (map_filter_comp cells
             (fun cs => to_q (getv (columns t1) cs c))
             (fun cs => negb (existsb is_nan (cells_key (columns t1) K cs))
                        && key_eqb (cells_key (columns t1) K cs) k)).
  simpl. rewrite range_index_cells.
  rewrite <- (map_filter_comp (fun k1 => k1 ++ sums k1)).
  rewrite (filter_ext_in' _ (fun k1 => key_eqb (proj k1) k)).
  2:{ intros k1 Hk1. rewrite regroup_key_of_flat by (eapply group_keys_length; eauto).
      rewrite regroup_proj_live by assumption. reflexivity. }
  rewrite (map_ext_in _ (fun k1 => group_total t K1 k1 c)).
  2:{ intros k1 Hk1. apply filter_In in Hk1. destruct Hk1 as [Hk1 _].
      unfold sums. rewrite grouped_flat_value_cell; auto.
      - eapply group_keys_length; eauto.
      - intros Hin. exact (K1_not_values c Hin Hc). }
  unfold group_total, group_rows, group_keys.
  rewrite (qsum_partition_proj (group_key t K1) (fun r => to_q (getv (columns t) (cells r) c))
             proj k).
  - rewrite regroup_live. f_equal. f_equal. apply filter_ext. intros r.
    rewrite regroup_proj. reflexivity.
  - apply sort_keys_NoDup.
  - intros r Hr. apply sort_keys_In, in_map. assumption.
Qed.

Lemma regroup : grouped t1 K V = grouped t K V.
Proof.
  unfold grouped. rewrite regroup_keys. f_equal.
  apply map_ext. intros k. f_equal. apply map_ext_in. intros c Hc.
  rewrite regroup_total by assumption. reflexivity.
Qed.
End Regroup.

Lemma ensure_columns_not_levels_flat (df : frame) (cl : list name) :
  index df = [NNone] -> ~ In NNone cl ->
  _ensure_columns_not_levels df (Some cl) = Ok df.
Proof.
  intros Hi Hn. unfold _ensure_columns_not_levels, index_name. rewrite Hi. simpl.
  rewrite (proj2 (mem_not_In NNone cl) Hn). reflexivity.
Qed.

(** [marginalize] on a flat table with summable values. *)
Lemma marginalize_summable (t : frame) (M V : list name) :
  index t = [NNone] ->
  ~ In NNone M ->
  ~ In NNone (columns t) ->
  (forall c, In c V -> In c (columns t)) ->
  Index_difference (columns t) (M ++ V) <> [] ->
  (forall r c, In r (rows t) -> In c V -> summable (cell t r c)) ->
  marginalize t (PList M) (PList V) true
  = Ok (grouped_flat t (Index_difference (columns t) (M ++ V)) V).
Proof.
  intros Hi HM Hnone HV Hne Hs. unfold marginalize. simpl.
  rewrite ensure_columns_not_levels_flat by assumption. simpl.
  rewrite groupby_sum_summable; auto.
  - simpl. apply reset_index_grouped.
    + apply Index_difference_NoDup.
    + rewrite Index_difference_In. tauto.
    + intros c Hc. apply Index_difference_In in Hc. intros Hin.
      apply (proj2 Hc), in_or_app. auto.
  - intros c Hc. apply Index_difference_In in Hc. tauto.
Qed.

(** C2.  Let the identifier columns of a flat table split into the
    marginalized columns [M] and the strata [S ++ INDEX_COLUMNS], with
    finite or missing values.  Then [marginalize] over [M] returns a
    table, and [stratify] by [S] on that table returns exactly what
    [stratify] by [S] returns on the original table. *)
Theorem marginalize_then_stratify
  (g : globals) (t : frame) (M S V : list name) (reset : bool) :
  index t = [NNone] ->
  ~ In NNone (columns t) ->
  ~ In NNone M ->
  (forall c, In c V -> In c (columns t)) ->
  (forall c, In c (S ++ INDEX_COLUMNS g) <->
             In c (columns t) /\ ~ In c M /\ ~ In c V) ->
  S ++ INDEX_COLUMNS g <> [] ->
  (forall r c, In r (rows t) -> In c V -> summable (cell t r c)) ->
  exists t1,
    marginalize t (PList M) (PList V) true = Ok t1 /\
    stratify g t1 (PList S) (PList V) reset = stratify g t (PList S) (PList V) reset.
Proof.
  intros Hi Hnone HM HV Hpart Hne Hs.
  set (K1 := Index_difference (columns t) (M ++ V)).
  set (K := S ++ INDEX_COLUMNS g).
  assert (Hsame : forall c, In c K <-> In c K1).
  { intros c. unfold K, K1. rewrite Hpart, Index_difference_In.
    split; intros H; [|rewrite in_app_iff in H]; [|tauto].
    destruct H as [H1 [H2 H3]]. split; [assumption|].
    intros Hin. apply in_app_or in Hin. tauto. }
  assert (HK1 : K1 <> []).
  { intros E. destruct K as [|c K'] eqn:EK; [apply Hne; assumption|].
    assert (Hc : In c K1) by (apply Hsame; left; reflexivity).
    rewrite E in Hc. contradiction. }
  assert (HK1c : forall c, In c K1 -> In c (columns t)).
  { intros c Hc. apply Index_difference_In in Hc. tauto. }
  assert (HK1v : forall c, In c K1 -> ~ In c V).
  { intros c Hc Hin. apply Index_difference_In in Hc. apply (proj2 Hc), in_or_app. auto. }
  exists (grouped_flat t K1 V). split.
  - apply marginalize_summable; assumption.
  - cbv beta iota zeta delta [stratify _ensure_iterable is_None method1]. fold K.
    rewrite (groupby_sum_summable t K V); auto.
    + rewrite (groupby_sum_summable (grouped_flat t K1 V) K V); auto.
      * rewrite (regroup t K1 K V); auto using Index_difference_NoDup.
      * intros c Hc. left. simpl. apply in_or_app. left. apply Hsame, Hc.
      * intros c Hc. simpl. apply in_or_app. auto.
      * intros r c Hr Hc. apply grouped_flat_cells in Hr.
        destruct Hr as [k [Hk Hcells]]. unfold cell. simpl. rewrite Hcells.
        rewrite grouped_flat_value_cell; simpl; auto.
        -- eapply group_keys_length; eauto.
        -- intros Hin. exact (HK1v c Hin Hc).
    + intros c Hc. left. apply HK1c, Hsame, Hc.
Qed.

Lemma marginalize_then_stratify_witness :
  exists t1,
    marginalize people (PList [NStr "sex"; NStr "measure"]) (PList [VALUE_COLUMN]) true = Ok t1 /\
    stratify initial_globals t1 (PList []) (PList [VALUE_COLUMN]) true
    = stratify initial_globals people (PList []) (PList [VALUE_COLUMN]) true.
Proof.
  apply (marginalize_then_stratify initial_globals people
           [NStr "sex"; NStr "measure"] [] [VALUE_COLUMN] true).
  - reflexivity.
  - simpl. intros H. repeat (destruct H as [H|H]; [discriminate H|]). exact H.
  - simpl. intros H. repeat (destruct H as [H|H]; [discriminate H|]). exact H.
  - intros c [<-|[]]. simpl. tauto.
  - intros c. simpl. split.
    + intros H. repeat (destruct H as [<-|H]);
        [ | | contradiction ];
        (split; [tauto|]; split; intros H';
         repeat (destruct H' as [H'|H']; [discriminate H'|]); exact H').
    + intros [H [H1 H2]]. repeat (destruct H as [<-|H]); try tauto.
    - discriminate.
  - intros r c Hr [<-|[]]. simpl in Hr.
    repeat (destruct Hr as [<-|Hr]; [exact I|]). contradiction.
Defined.

(** ** Repeated [marginalize] and the grand total (C3) *)

Lemma existsb_is_nan_false (l : list scalar) :
  existsb is_nan l = false <-> (forall x, In x l -> is_nan x = false).
Proof.
  split.
  - intros H x Hx. destruct (is_nan x) eqn:E; [|reflexivity].
    rewrite <- H. symmetry. apply existsb_exists. eauto.
  - intros H. destruct (existsb is_nan l) eqn:E; [|reflexivity].
    apply existsb_exists in E. destruct E as [x [Hx Hn]]. rewrite (H x Hx) in Hn. discriminate.
Qed.








Ltac in_cases H :=
  repeat (destruct H as [H|H]; [try discriminate H; try subst|]); try contradiction.



(** ** A frame divided by itself *)

Lemma groupby_sum_shape (f d : frame) (keys vcols : list name) :
  groupby_sum f keys vcols = Ok d ->
  index d = keys /\ columns d = vcols /\
  map ix (rows d) = group_keys f keys /\
  (forall r, In r (rows d) ->
     Forall2 (fun (c : name) x => is_num x = true) vcols (cells r)).
Proof.
  unfold groupby_sum. intros H. inv_bind H.
  assert (G : (_ <- require_columns f vcols ;;
               rs <- mapM (fun k => sums <- mapM (group_sum f keys k) vcols ;;
                                    Ok (mkrow k sums))
                          (group_keys f keys) ;;
               Ok (mkframe keys vcols rs)) = Ok d).
  { destruct keys; [destruct (rows f)|]; try discriminate; exact H. }
  clear H. inv_bind G. inv_bind G. injection G as <-. simpl.
  apply mapM_Forall2 in Ha1. repeat split.
  - induction Ha1 as [|k r ks rs Hk _ IH]; simpl; [reflexivity|].
    inv_bind Hk. injection Hk as <-. simpl. f_equal. assumption.
  - intros r Hr. induction Ha1 as [|k r' ks rs Hk _ IH]; [contradiction|].
    destruct Hr as [<-|Hr]; [|auto].
    inv_bind Hk. injection Hk as <-. simpl.
    match goal with
    | Hm : mapM (group_sum f keys k) vcols = Ok _ |- _ =>
        apply mapM_Forall2 in Hm; clear -Hm;
        induction Hm as [|c x cs xs Hc _ IH']; constructor; auto
    end.
    unfold group_sum in Hc. inv_bind Hc. injection Hc as <-. reflexivity.
Qed.

Lemma combine_diag {A : Type} (l : list A) : combine l l = map (fun x => (x, x)) l.
Proof. induction l as [|x l IH]; simpl; [reflexivity | rewrite IH; reflexivity]. Qed.

Lemma keys_eqb_refl (l : list (list scalar)) : keys_eqb l l = true.
Proof. unfold keys_eqb. destruct (list_eq_dec key_eq_dec l l); congruence. Qed.

Lemma align_self (d : frame) :
  align d d = Ok (index d, map (fun r => (ix r, Some (cells r), Some (cells r))) (rows d)).
Proof.
  unfold align. rewrite Nat.eqb_refl, keys_eqb_refl. simpl.
  rewrite combine_diag, map_map. reflexivity.
Qed.

Lemma frame_op_self (op : num -> num -> num) (d : frame) :
  numeric_rows d ->
  frame_op op d d
  = Ok (mkframe (index d) (columns d)
          (map (fun r => mkrow (ix r) (map (self_op op) (cells r))) (rows d))).
Proof.
  intros Hn. unfold frame_op. rewrite align_self. simpl.
  rewrite (mapM_map _ (fun e => mkrow (fst (fst e))
                                  (map (self_op op)
                                       (match snd (fst e) with Some c => c | None => [] end)))).
  - rewrite map_map. reflexivity.
  - intros e He. apply in_map_iff in He. destruct He as [r [<- Hr]]. simpl.
    rewrite combine_diag.
    rewrite (mapM_map _ (fun p => self_op op (fst p))).
    + simpl. rewrite map_map. reflexivity.
    + intros p Hp. apply in_map_iff in Hp. destruct Hp as [c [<- Hc]].
      pose proof (Hn r c Hr Hc) as Hnum.
      destruct c; [discriminate | reflexivity].
Qed.

Lemma frame_scale_numeric (f : frame) (m : num) :
  numeric_rows f ->
  frame_scale f m
  = Ok (mkframe (index f) (columns f)
          (map (fun r => mkrow (ix r) (map (scale m) (cells r))) (rows f))).
Proof.
  intros Hn. unfold frame_scale.
  rewrite (mapM_map _ (fun r => mkrow (ix r) (map (scale m) (cells r)))); [reflexivity|].
  intros r Hr. rewrite (mapM_map _ (scale m)); [reflexivity|].
  intros c Hc. pose proof (Hn r c Hr Hc) as Hnum.
  destruct c; [discriminate | reflexivity].
Qed.

Lemma fdiv_self_one (q : Qc) : q <> 0%Qc -> fmul (fdiv (Fin q) (Fin q)) (Fin 1) = Fin 1.
Proof.
  intros Hq. simpl. unfold qzero. destruct (Qc_eq_dec q 0) as [E|_]; [contradiction|].
  simpl. f_equal. unfold Qcdiv. rewrite Qcmult_inv_r by assumption. ring.
Qed.

Lemma NoDup_map_injective {A B : Type} (f : A -> B) (l : list A) (a b : A) :
  NoDup (map f l) -> In a l -> In b l -> f a = f b -> a = b.
Proof.
  induction l as [|x l IH]; simpl; intros Hnd Ha Hb E; [contradiction|].
  inversion Hnd as [|y l' Hx Hl]; subst.
  destruct Ha as [->|Ha], Hb as [->|Hb]; auto.
  - exfalso. apply Hx. rewrite E. apply in_map. assumption.
  - exfalso. apply Hx. rewrite <- E. apply in_map. assumption.
Qed.

Lemma getv_setv_other (names : list name) (vals : list scalar) (c n : name) (v : scalar) :
  c <> n -> getv names (setv names vals c v) n = getv names vals n.
Proof.
  revert vals; induction names as [|m names IH]; intros [|x vals] Hc; simpl; try reflexivity.
  destruct (name_eqb m c) eqn:E; simpl.
  - apply name_eqb_eq in E. subst m.
    rewrite (proj2 (name_eqb_neq c n) Hc). reflexivity.
  - destruct (name_eqb m n); [reflexivity | auto].
Qed.

Lemma setv_length (names : list name) (vals : list scalar) (c : name) (v : scalar) :
  List.length (setv names vals c v) = List.length vals.
Proof.
  revert vals; induction names as [|m names IH]; intros [|x vals]; simpl; try reflexivity.
  destruct (name_eqb m c); simpl; [reflexivity | rewrite IH; reflexivity].
Qed.

Lemma assign_index (f : frame) (c : name) (v : scalar) : index (assign f c v) = index f.
Proof. unfold assign. destruct (mem c (columns f)); reflexivity. Qed.

Lemma assign_tracks (D : list row) (f : frame) (c : name) (v : scalar) :
  c <> VALUE_COLUMN -> tracks D f -> tracks D (assign f c v).
Proof.
  intros Hc [Hv [Hwf [H1 H2]]]. unfold assign.
  destruct (mem c (columns f)) eqn:E; unfold tracks, wf_cells, cell; simpl.
  - repeat split; auto.
    + intros r Hr. apply in_map_iff in Hr. destruct Hr as [r0 [<- Hr0]]. simpl.
      rewrite setv_length. auto.
    + intros r' Hr'. apply in_map_iff in Hr'. destruct Hr' as [r0 [<- Hr0]]. simpl.
      rewrite getv_setv_other by assumption. apply H1, Hr0.
    + intros r Hr Hn. destruct (H2 r Hr Hn) as [r' [Hr' Hix]].
      exists (mkrow (ix r') (setv (columns f) (cells r') c v)). split; [|assumption].
      apply (in_map (fun r => mkrow (ix r) (setv (columns f) (cells r) c v))). assumption.
  - repeat split.
    + apply in_or_app. auto.
    + intros r Hr. apply in_map_iff in Hr. destruct Hr as [r0 [<- Hr0]]. simpl.
      rewrite !length_app. rewrite (Hwf r0 Hr0). reflexivity.
    + intros r' Hr'. apply in_map_iff in Hr'. destruct Hr' as [r0 [<- Hr0]]. simpl.
      rewrite getv_app_l by (auto; symmetry; apply Hwf; assumption). apply H1, Hr0.
    + intros r Hr Hn. destruct (H2 r Hr Hn) as [r' [Hr' Hix]].
      exists (mkrow (ix r') (cells r' ++ [v])). split; [|assumption].
      apply (in_map (fun r => mkrow (ix r) (cells r ++ [v]))). assumption.
Qed.

Lemma level_labels_length (f : frame) :
  List.length (level_labels f) = List.length (index f).
Proof.
  unfold level_labels. rewrite length_map, length_combine, length_seq. apply Nat.min_id.
Qed.

Lemma reset_index_ok (f f' : frame) :
  reset_index f = Ok f' ->
  f' = mkframe [NNone] (level_labels f ++ columns f)
         (range_index (map (fun r => ix r ++ cells r) (rows f))) /\
  (forall n, In n (level_labels f) -> ~ In n (columns f)).
Proof.
  unfold reset_index. intros H. inv_bind H. injection H as <-.
  apply insert_levels_ok in Ha. destruct Ha as [-> [_ Hd]]. auto.
Qed.

Lemma firstn_app_exact {A : Type} (l1 l2 : list A) : firstn (List.length l1) (l1 ++ l2) = l1.
Proof. induction l1 as [|x l1 IH]; simpl; [destruct l2; reflexivity | rewrite IH; reflexivity]. Qed.

(** What a tracked frame shows after the optional [reset_index]. *)
Lemma tracks_result (D : list row) (f res : frame) (reset : bool) (n : nat) :
  tracks D f -> List.length (index f) = n ->
  (forall r, In r D -> List.length (ix r) = n) ->
  (if reset then reset_index f else Ok f) = Ok res ->
  (forall r', In r' (rows res) ->
     exists r, In r D /\ ratio_key reset n r' = ix r /\
               cell res r' VALUE_COLUMN = hd (Num NaN) (cells r)) /\
  (forall r, In r D -> existsb is_nan (cells r) = false ->
     exists r', In r' (rows res) /\ ratio_key reset n r' = ix r).
Proof.
  intros [Hv [Hwf [H1 H2]]] Hn HD H. destruct reset.
  - apply reset_index_ok in H. destruct H as [-> Hdisj]. split.
    + intros r' Hr'. simpl in Hr'. apply range_index_In, in_map_iff in Hr'.
      destruct Hr' as [r2 [Hcells Hr2]].
      destruct (H1 r2 Hr2) as [r [Hr [Hix Hcell]]]. exists r. split; [assumption|].
      assert (Hlen : List.length (ix r2) = n) by (rewrite Hix; auto).
      split.
      * simpl. rewrite <- Hcells, <- Hlen, firstn_app_exact. assumption.
      * unfold cell. simpl. rewrite <- Hcells.
        rewrite getv_app_r; [exact Hcell | rewrite level_labels_length; congruence|].
        intros Hin. exact (Hdisj _ Hin Hv).
    + intros r Hr Hnan. destruct (H2 r Hr Hnan) as [r2 [Hr2 Hix]].
      destruct (range_index_has _ _ (in_map (fun r => ix r ++ cells r) _ _ Hr2))
        as [r' [Hr' Hcells]].
      exists r'. split; [exact Hr'|]. simpl. rewrite Hcells.
      rewrite <- (HD r Hr), <- Hix. apply firstn_app_exact.
  - injection H as <-. split; [exact H1 | exact H2].
Qed.

Lemma dropna_tracks (K : list name) (D : list row) (drop : bool) :
  (forall r, In r D -> exists v, cells r = [v]) ->
  tracks D (if drop then dropna (mkframe K [VALUE_COLUMN] D) else mkframe K [VALUE_COLUMN] D).
Proof.
  intros HD.
  assert (Hcell : forall r, In r D ->
            getv [VALUE_COLUMN] (cells r) VALUE_COLUMN = hd (Num NaN) (cells r)).
  { intros r Hr. destruct (HD r Hr) as [v ->]. reflexivity. }
  assert (Hlen : forall r, In r D -> List.length (cells r) = 1%nat).
  { intros r Hr. destruct (HD r Hr) as [v ->]. reflexivity. }
  destruct drop; unfold tracks, wf_cells, dropna, cell; simpl; repeat split; auto.
  - intros r Hr. apply filter_In in Hr. apply Hlen. tauto.
  - intros r' Hr'. apply filter_In in Hr'. destruct Hr' as [Hr' _]. exists r'. auto.
  - intros r Hr Hn. exists r. split; [|reflexivity]. apply filter_In. rewrite Hn. auto.
  - intros r' Hr'. exists r'. auto.
  - intros r Hr _. exists r. auto.
Qed.

Lemma Qc_neq_by_num (a b : Qc) : Qnum (this a) <> Qnum (this b) -> a <> b.
Proof. intros H E. apply H. rewrite E. reflexivity. Qed.

(** ** Joins of indexes without repeated labels *)

Lemma nodupb_NoDup (ks : list (list scalar)) : nodupb ks = true <-> NoDup ks.
Proof.
  induction ks as [|k ks IH]; simpl.
  - split; [constructor | reflexivity].
  - rewrite andb_true_iff, negb_true_iff, IH. split.
    + intros [H1 H2]. constructor; [|assumption].
      intros Hin. assert (E : existsb (key_eqb k) ks = true).
      { apply existsb_exists. exists k. split; [assumption | apply key_eqb_refl]. }
      congruence.
    + intros H. inversion H as [|x l Hx Hl]; subst. split; [|assumption].
      destruct (existsb (key_eqb k) ks) eqn:E; [|reflexivity].
      apply existsb_exists in E. destruct E as [x [Hin Hx']].
      apply key_eqb_eq in Hx'. subst. contradiction.
Qed.

Lemma find_unique {A : Type} (f : A -> list scalar) (l : list A) (a : A) :
  NoDup (map f l) -> In a l ->
  find (fun x => key_eqb (f x) (f a)) l = Some a.
Proof.
  induction l as [|x l IH]; simpl; intros Hnd Hin; [contradiction|].
  inversion Hnd as [|y l' Hx Hl]; subst.
  destruct (key_eqb (f x) (f a)) eqn:E.
  - apply key_eqb_eq in E. destruct Hin as [->|Hin]; [reflexivity|].
    exfalso. apply Hx. rewrite E. apply in_map. assumption.
  - destruct Hin as [->|Hin]; [rewrite key_eqb_refl in E; discriminate | auto].
Qed.

Lemma find_none_iff {A : Type} (f : A -> list scalar) (l : list A) (k : list scalar) :
  find (fun x => key_eqb (f x) k) l = None <-> ~ In k (map f l).
Proof.
  split.
  - intros H Hin. apply in_map_iff in Hin. destruct Hin as [x [<- Hx]].
    pose proof (find_none _ _ H x Hx) as E. simpl in E.
    rewrite key_eqb_refl in E. discriminate.
  - intros H. destruct (find _ l) as [x|] eqn:E; [|reflexivity].
    apply find_some in E. destruct E as [Hx Hk]. apply key_eqb_eq in Hk.
    exfalso. apply H. rewrite <- Hk. apply in_map. assumption.
Qed.

Lemma filter_nil_find {A : Type} (p : A -> bool) (l : list A) :
  filter p l = [] -> find p l = None.
Proof.
  induction l as [|x l IH]; simpl; [reflexivity|].
  destruct (p x); [discriminate | assumption].
Qed.

Lemma combine_same_keys (L R : list side) (l r : side) :
  map jkey L = map jkey R -> In (l, r) (combine L R) -> jkey l = jkey r.
Proof.
  revert R; induction L as [|x L IH]; intros [|y R] E Hin; simpl in *; try contradiction.
  injection E as E1 E2. destruct Hin as [Hin|Hin]; [congruence | eauto].
Qed.

Lemma outer_join_unique (L R : list side) (e : list scalar * option side * option side) :
  NoDup (map jkey L) -> NoDup (map jkey R) ->
  In e (outer_join L R) -> entry_ok L R e.
Proof.
  intros HL HR.
  assert (FL : forall l, In l L -> find (with_key (jkey l)) L = Some l)
    by (intros; apply (find_unique jkey); assumption).
  assert (FR : forall r, In r R -> find (with_key (jkey r)) R = Some r)
    by (intros; apply (find_unique jkey); assumption).
  assert (Hright_nil : R = [] -> In e (map (fun l => (jkey l, Some l, @None side)) L) ->
                       entry_ok L R e).
  { intros -> Hin. apply in_map_iff in Hin. destruct Hin as [l [<- Hl]].
    unfold entry_ok. cbn [fst snd]. rewrite FL by assumption. repeat split. left. discriminate. }
  assert (Hleft_nil : L = [] -> In e (map (fun r => (jkey r, @None side, Some r)) R) ->
                      entry_ok L R e).
  { intros -> Hin. apply in_map_iff in Hin. destruct Hin as [r [<- Hr]].
    unfold entry_ok. cbn [fst snd]. rewrite FR by assumption. repeat split. right. discriminate. }
  unfold outer_join.
  destruct L as [|l0 L']; [destruct R as [|r0 R']|destruct R as [|r0 R']]; auto.
  set (L := l0 :: L') in *. set (R := r0 :: R') in *.
  destruct (_ && keys_eqb _ _) eqn:Ezip.
  - intros Hin. apply in_map_iff in Hin. destruct Hin as [[l r] [<- Hp]].
    apply andb_true_iff in Ezip. destruct Ezip as [_ Ek].
    unfold keys_eqb in Ek. destruct (list_eq_dec _ _ _) as [Ek'|]; [|discriminate].
    pose proof (combine_same_keys L R l r Ek' Hp) as Hlr.
    unfold entry_ok. cbn [fst snd].
    rewrite (FL l (in_combine_l _ _ _ _ Hp)).
    rewrite Hlr, (FR r (in_combine_r _ _ _ _ Hp)).
    repeat split. left. discriminate.
  - intros Hin. apply in_flat_map in Hin. destruct Hin as [k [_ Hin]].
    destruct (filter (with_key k) L) as [|l ls] eqn:EL.
    + apply in_map_iff in Hin. destruct Hin as [r [<- Hr]].
      apply filter_In in Hr. destruct Hr as [HrR Hk]. apply key_eqb_eq in Hk.
      unfold entry_ok. cbn [fst snd].
      rewrite (filter_nil_find _ _ EL). rewrite <- Hk, (FR r HrR).
      repeat split. right. discriminate.
    + assert (Hl : forall l', In l' (l :: ls) -> In l' L /\ jkey l' = k).
      { intros l' Hl'. rewrite <- EL in Hl'. apply filter_In in Hl'.
        destruct Hl' as [H1 H2]. apply key_eqb_eq in H2. auto. }
      clear EL.
      destruct (filter (with_key k) R) as [|r rs] eqn:ER.
      * apply in_map_iff in Hin. destruct Hin as [l' [<- Hl']].
        destruct (Hl l' Hl') as [HlL Hk].
        unfold entry_ok. cbn [fst snd].
        rewrite (filter_nil_find _ _ ER). rewrite <- Hk, (FL l' HlL).
        repeat split. left. discriminate.
      * apply in_flat_map in Hin. destruct Hin as [l' [Hl' Hin]].
        apply in_map_iff in Hin. destruct Hin as [r' [<- Hr']].
        destruct (Hl l' Hl') as [HlL Hkl].
        rewrite <- ER in Hr'. apply filter_In in Hr'. destruct Hr' as [HrR Hkr].
        apply key_eqb_eq in Hkr. unfold entry_ok. cbn [fst snd].
        rewrite <- Hkl at 1. rewrite (FL l' HlL). rewrite <- Hkr, (FR r' HrR).
        repeat split. left. discriminate.
Qed.


(** ** [difference]: what is subtracted from what (C4, C5) *)

Lemma left_operand_ok (m : frame) (col : name) (i : list name) (R : list row)
  (f1 mv : frame) :
  set_index (mkframe i (columns m) R) (difference_index m col) false = Ok f1 ->
  select f1 [VALUE_COLUMN] = Ok mv ->
  mv = left_operand m col R /\ difference_index m col <> [].
Proof.
  intros H1 H2. apply set_index_ok in H1. destruct H1 as [_ [Hne ->]].
  apply select_ok in H2. destruct H2 as [Hv ->]. simpl in *.
  split; [|exact Hne]. unfold left_operand. f_equal. rewrite map_map.
  apply map_ext. intros r. unfold cell at 2. simpl. f_equal. f_equal.
  apply (getv_map (fun c => getv (columns m) (cells r) c)). apply Hv. left. reflexivity.
Qed.

Lemma right_operand_ok (m : frame) (col : name) (i : list name) (R : list row)
  (f1 f2 sv : frame) :
  set_index (mkframe i (columns m) R) (difference_index m col) false = Ok f1 ->
  set_index f1 [col] true = Ok f2 ->
  select f2 [VALUE_COLUMN] = Ok sv ->
  sv = right_operand m col R.
Proof.
  intros H1 H2 H3. apply set_index_ok in H1. destruct H1 as [_ [_ ->]].
  apply set_index_ok in H2. destruct H2 as [Hc [_ ->]].
  apply select_ok in H3. destruct H3 as [Hv ->]. simpl in *.
  unfold right_operand. f_equal. rewrite !map_map.
  apply map_ext. intros r. unfold cell. simpl.
  set (C1 := minus (columns m) (difference_index m col)) in *.
  assert (Hv' : In VALUE_COLUMN (minus C1 [col])) by (apply Hv; left; reflexivity).
  f_equal.
  - f_equal. f_equal.
    apply (getv_map (fun c => getv (columns m) (cells r) c)). apply Hc. left. reflexivity.
  - f_equal.
    rewrite (getv_map (fun c => getv C1 (map (fun c0 => getv (columns m) (cells r) c0) C1) c))
      by assumption.
    apply (getv_map (fun c => getv (columns m) (cells r) c)).
    apply minus_In in Hv'. tauto.
Qed.

Lemma mask_eq_ok (f f' : frame) (c : name) (v : scalar) :
  mask_eq f c v = Ok f' ->
  In c (columns f) /\
  f' = mkframe (index f) (columns f) (filter (fun r => py_eq (cell f r c) v) (rows f)).
Proof.
  unfold mask_eq. intros H. inv_bind H. injection H as <-.
  split; [|reflexivity]. eapply require_columns_unit; eauto. left. reflexivity.
Qed.

Lemma mask_ne_ok (f f' : frame) (c : name) (v : scalar) :
  mask_ne f c v = Ok f' ->
  In c (columns f) /\
  f' = mkframe (index f) (columns f) (filter (fun r => negb (py_eq (cell f r c) v)) (rows f)).
Proof.
  unfold mask_ne. intros H. inv_bind H. injection H as <-.
  split; [|reflexivity]. eapply require_columns_unit; eauto. left. reflexivity.
Qed.

Lemma difference_some (m : frame) (col : name) (mid : scalar) (sid : option scalar)
  (d : frame) :
  difference m col (Some mid) sid = Ok d ->
  exists diff diff' loc,
    frame_op fsub (left_operand m col (id_rows m col mid))
                  (right_operand m col (subtrahend_rows m col mid sid)) = Ok diff /\
    reset_index diff = Ok diff' /\
    get_loc (columns diff') col = Ok loc /\
    insert diff' (loc + 1) (NStr "subtracted_from") mid = Ok d /\
    difference_index m col <> [] /\
    In col (columns m).
Proof.
  unfold difference. intros H. inv_bind H.
  assert (Hs : In col (columns m) /\
               fst a = mkframe (index m) (columns m) (id_rows m col mid) /\
               snd a = mkframe (index m) (columns m) (subtrahend_rows m col mid sid)).
  { unfold difference_sides in Ha. destruct sid as [s|]; inv_bind Ha; inv_bind Ha;
      injection Ha as <-; simpl.
    - apply mask_eq_ok in Ha0, Ha1. destruct Ha0 as [Hc ->], Ha1 as [_ ->]. auto.
    - apply mask_eq_ok in Ha0. apply mask_ne_ok in Ha1.
      destruct Ha0 as [Hc ->], Ha1 as [_ ->]. auto. }
  destruct Hs as [Hc [E1 E2]]. rewrite E1, E2 in H. clear Ha E1 E2.
  cbn [is_some] in H.
  do 8 inv_bind H.
  injection Ha1 as <-.
  destruct (left_operand_ok m col _ _ _ _ Ha Ha3) as [-> Hne].
  rewrite (right_operand_ok m col _ _ _ _ _ Ha0 Ha2 Ha4) in Ha5.
  inv_bind H.
  exists a6, a7, a2. repeat split; assumption.
Qed.

Lemma find_map {A B : Type} (S : A -> B) (p : B -> bool) (l : list A) :
  find p (map S l) = option_map S (find (fun a => p (S a)) l).
Proof.
  induction l as [|a l IH]; simpl; [reflexivity|].
  destruct (p (S a)); [reflexivity | assumption].
Qed.

Lemma match_key_length (m : frame) (col : name) (r : row) :
  List.length (match_key m col r) = List.length (difference_index m col).
Proof. unfold match_key. apply length_map. Qed.

Lemma match_key_lookup (m : frame) (col : name) (r : row) :
  map (getv (difference_index m col) (match_key m col r)) (difference_index m col)
  = match_key m col r.
Proof.
  unfold match_key. apply map_ext_in. intros c Hc. apply (getv_map (cell m r)). assumption.
Qed.

Lemma find_row_key (m : frame) (col : name) (R : list row) (k : list scalar) (r : row) :
  find_row m col R k = Some r -> In r R /\ match_key m col r = k.
Proof.
  unfold find_row. intros H. apply find_some in H. destruct H as [H1 H2].
  apply key_eqb_eq in H2. auto.
Qed.

Lemma single_app_false {A : Type} (l : list A) (x : A) : l <> [] -> single (l ++ [x]) = false.
Proof. destruct l as [|a [|b l]]; simpl; congruence. Qed.

Lemma common_app_self (K : list name) (c : name) : common K (K ++ [c]) = K.
Proof.
  unfold common. rewrite (filter_ext_in' _ (fun _ => true)).
  - induction K as [|k K IH]; simpl; [reflexivity | rewrite IH; reflexivity].
  - intros n Hn. apply mem_In, in_or_app. auto.
Qed.

Lemma minus_app_self_l (K : list name) (c : name) : minus K (K ++ [c]) = [].
Proof.
  unfold minus. rewrite (filter_ext_in' _ (fun _ => false)).
  - induction K as [|k K IH]; simpl; [reflexivity | assumption].
  - intros n Hn. apply negb_false_iff, mem_In, in_or_app. auto.
Qed.

Lemma minus_app_self_r (K : list name) (c : name) : ~ In c K -> minus (K ++ [c]) K = [c].
Proof.
  intros Hc. unfold minus. rewrite filter_app. simpl.
  rewrite (proj2 (mem_not_In c K) Hc). simpl.
  rewrite (filter_ext_in' _ (fun _ => false) K).
  - induction K as [|k K IH]; simpl; [reflexivity|]. apply IH.
    intros H. apply Hc. right. assumption.
  - intros n Hn. apply negb_false_iff, mem_In. assumption.
Qed.


Lemma Forall2_In_r {A B : Type} (P : A -> B -> Prop) (l : list A) (l' : list B) (b : B) :
  Forall2 P l l' -> In b l' -> exists a, In a l /\ P a b.
Proof.
  induction 1 as [|x y l l' Hxy _ IH]; simpl; intros Hin; [contradiction|].
  destruct Hin as [<-|Hin]; [eauto|].
  destruct (IH Hin) as [a [Ha Hp]]. eauto.
Qed.


Lemma insert_ok (f d : frame) (loc : nat) (c : name) (v : scalar) :
  insert f loc c v = Ok d ->
  ~ In c (columns f) /\
  d = mkframe (index f) (firstn loc (columns f) ++ c :: skipn loc (columns f))
        (map (fun r => mkrow (ix r) (firstn loc (cells r) ++ v :: skipn loc (cells r)))
             (rows f)).
Proof.
  unfold insert. destruct (mem c (columns f)) eqn:E; [discriminate|].
  intros H. injection H as <-. split; [apply mem_not_In, E | reflexivity].
Qed.




(** ** When [difference] returns *)

Lemma mapM_total {A B : Type} (f : A -> result B) (l : list A) :
  (forall a, In a l -> exists b, f a = Ok b) -> exists bs, mapM f l = Ok bs.
Proof.
  induction l as [|a l IH]; intros H; simpl; [eauto|].
  destruct (H a (or_introl eq_refl)) as [b Hb]. rewrite Hb. simpl.
  destruct IH as [bs Hbs]; [intros; apply H; right; assumption|].
  rewrite Hbs. simpl. eauto.
Qed.








(** ** When [ratio] of a table with itself returns *)

Lemma nansum_numeric (l : list scalar) :
  (forall c, In c l -> is_num c = true) -> exists s, nansum l = Ok s.
Proof.
  induction l as [|a l IH]; intros H; simpl; [eauto|].
  destruct IH as [s Hs]; [intros; apply H; right; assumption|].
  pose proof (H a (or_introl eq_refl)) as Ha.
  destruct a as [|[q| | |]]; try discriminate; simpl; rewrite ?Hs; simpl; eauto.
Qed.

Lemma groupby_sum_returns (f : frame) (keys vcols : list name) :
  keys <> [] ->
  (forall c, In c keys -> In c (columns f) \/ In c (index f)) ->
  (forall c, In c vcols -> In c (columns f)) ->
  (forall r c, In r (rows f) -> In c vcols -> is_num (cell f r c) = true) ->
  exists d, groupby_sum f keys vcols = Ok d.
Proof.
  intros Hk Hf Hv Hn. unfold groupby_sum.
  rewrite (proj2 (require_fields_ok f keys) Hf). cbn [bind].
  destruct keys as [|k0 keys]; [congruence|].
  rewrite (proj2 (require_columns_ok f vcols) Hv). cbn [bind].
  match goal with
  | |- context [mapM ?g ?l] => destruct (mapM_total g l) as [rs Hrs]
  end.
  - intros k _.
    destruct (mapM_total (group_sum f (k0 :: keys) k) vcols) as [sums Hsums].
    + intros c Hc. unfold group_sum.
      destruct (nansum_numeric (map (fun r => cell f r c) (group_rows f (k0 :: keys) k)))
        as [s Hs].
      * intros x Hx. apply in_map_iff in Hx. destruct Hx as [r [<- Hr]].
        apply Hn; [eapply group_rows_In; eauto | assumption].
      * rewrite Hs. simpl. eauto.
    + rewrite Hsums. simpl. eauto.
  - rewrite Hrs. simpl. eauto.
Qed.

Lemma unique_cells_In (l : list scalar) (c : scalar) : In c (unique_cells l) -> In c l.
Proof.
  induction l as [|a l IH]; simpl; [tauto|].
  intros [H|H]; [auto|]. apply filter_In in H. right. apply IH. tauto.
Qed.

Lemma join_bar_strings (l : list scalar) :
  (forall c, In c l -> exists s, c = Str s) -> exists s, join_bar l = Ok s.
Proof.
  induction l as [|a l IH]; intros H; simpl; [eauto|].
  destruct (H a (or_introl eq_refl)) as [s ->].
  destruct IH as [t Ht]; [intros; apply H; right; assumption|].
  destruct l; [eauto|]. rewrite Ht. simpl. eauto.
Qed.

Lemma measure_label_strings (f : frame) (mc : name) :
  In mc (columns f) ->
  (forall r, In r (rows f) -> exists s, cell f r mc = Str s) ->
  exists s, measure_label f mc = Ok s.
Proof.
  intros Hc Hs. unfold measure_label, column.
  rewrite (proj2 (require_columns_ok f [mc])) by (intros c [<-|[]]; assumption).
  cbn [bind]. apply join_bar_strings. intros c Hin.
  apply unique_cells_In, in_map_iff in Hin. destruct Hin as [r [<- Hr]]. auto.
Qed.

Lemma assign_columns (f : frame) (c n : name) (v : scalar) :
  In n (columns (assign f c v)) -> In n (columns f) \/ n = c.
Proof.
  unfold assign. destruct (mem c (columns f)); simpl; [auto|].
  intros H. apply in_app_or in H. destruct H as [H|[H|[]]]; auto.
Qed.

Lemma ratio_self_returns
  (g : globals) (t : frame) (strata : pyarg) (multiplier : num) (measure_col : name)
  (drop : bool) (record_inputs : option bool) (reset : bool) :
  let K := _ensure_iterable strata t PyNone ++ INDEX_COLUMNS g in
  index t = [NNone] ->
  K <> [] -> NoDup K -> ~ In NNone K ->
  (forall c, In c K -> In c (columns t)) ->
  In VALUE_COLUMN (columns t) -> ~ In VALUE_COLUMN K ->
  (forall r, In r (rows t) -> is_num (cell t r VALUE_COLUMN) = true) ->
  In measure_col (columns t) ->
  (forall r, In r (rows t) -> exists s, cell t r measure_col = Str s) ->
  (forall c, In c K -> ~ In c (recorded_columns measure_col)) ->
  exists res,
    ratio g t t strata multiplier PyNone PyNone (Scalar VALUE_COLUMN) measure_col
          drop record_inputs reset = Ok res.
Proof.
  intros K Hidx Hne Hnd Hnone HK Hval HvalK Hnum Hmc Hstr Hrec.
  unfold ratio.
  assert (E0 : _ensure_columns_not_levels t None = Ok t).
  { unfold _ensure_columns_not_levels, index_name. rewrite Hidx. reflexivity. }
  rewrite E0. cbn [bind].
  change (_ensure_iterable PyNone t (PList [])) with (@nil name).
  cbn [intersects existsb]. rewrite !app_nil_r.
  destruct (measure_label_strings t measure_col Hmc Hstr) as [lbl Hlbl].
  assert (Hmeasures : exists a,
             (if match record_inputs with Some b => b | None => reset end
              then nm <- measure_label t measure_col ;;
                   dm <- measure_label t measure_col ;; Ok (Some (nm, dm))
              else Ok None) = Ok a).
  { destruct (match record_inputs with Some b => b | None => reset end); [|eauto].
    rewrite Hlbl. simpl. eauto. }
  destruct Hmeasures as [a Ha]. rewrite Ha. cbn [bind].
  assert (Hden : exists den,
             stratify g t (PList (_ensure_iterable strata t PyNone)) (Scalar VALUE_COLUMN) false
             = Ok den).
  { unfold stratify.
    change (_ensure_iterable (Scalar VALUE_COLUMN) t PyNone) with [VALUE_COLUMN].
    change (_ensure_iterable (PList (_ensure_iterable strata t PyNone)) t PyNone)
      with (_ensure_iterable strata t PyNone).
    fold K.
    assert (Hv1 : forall c, In c [VALUE_COLUMN] -> In c (columns t))
      by (intros c [<-|[]]; assumption).
    assert (Hn1 : forall r c, In r (rows t) -> In c [VALUE_COLUMN] ->
                              is_num (cell t r c) = true)
      by (intros r c Hr [<-|[]]; auto).
    destruct (groupby_sum_returns t K [VALUE_COLUMN] Hne (fun c Hc => or_introl (HK c Hc))
                                  Hv1 Hn1) as [den Hden].
    rewrite Hden. simpl. eauto. }
  destruct Hden as [den Hden]. rewrite Hden. cbn [bind].
  assert (Hs := Hden). unfold stratify in Hs.
  change (_ensure_iterable (Scalar VALUE_COLUMN) t PyNone) with [VALUE_COLUMN] in Hs.
  change (_ensure_iterable (PList (_ensure_iterable strata t PyNone)) t PyNone)
    with (_ensure_iterable strata t PyNone) in Hs.
  fold K in Hs.
  apply bind_ok in Hs. destruct Hs as [s [Hs Es]]. injection Es as ->.
  apply groupby_sum_shape in Hs. destruct Hs as [Hi [Hcols [_ Hcells]]].
  assert (Hnumden : numeric_rows den).
  { intros d c Hd Hc. pose proof (Hcells d Hd) as F. clear -F Hc.
    induction F as [|n x ns xs Hx _ IH]; [contradiction|].
    destruct Hc as [<-|Hc]; auto. }
  rewrite (frame_op_self fdiv den Hnumden). cbn [bind].
  rewrite frame_scale_numeric.
  2:{ intros r c Hr Hc. simpl in Hr. apply in_map_iff in Hr. destruct Hr as [d [<- Hd]].
      simpl in Hc. apply in_map_iff in Hc. destruct Hc as [c0 [<- Hc0]].
      pose proof (Hnumden d c0 Hd Hc0). destruct c0; [discriminate | reflexivity]. }
  cbn [bind index columns rows]. rewrite Hi, Hcols.
  destruct reset; [|eauto].
  match goal with
  | |- exists res, reset_index ?R = Ok res =>
      assert (HiR : index R = K);
        [|assert (HcR : forall n, In n (columns R) ->
                                  n = VALUE_COLUMN \/ In n (recorded_columns measure_col))]
  end.
  { destruct a as [[nm dm]|]; rewrite ?assign_index; destruct drop; reflexivity. }
  { intros n Hn. destruct a as [[nm dm]|].
    - apply assign_columns in Hn. destruct Hn as [Hn| ->]; [|right; simpl; auto].
      apply assign_columns in Hn. destruct Hn as [Hn| ->]; [|right; simpl; auto].
      apply assign_columns in Hn. destruct Hn as [Hn| ->]; [|right; simpl; auto].
      destruct drop; simpl in Hn; destruct Hn as [<-|[]]; auto.
    - destruct drop; simpl in Hn; destruct Hn as [<-|[]]; auto. }
  unfold reset_index. rewrite level_labels_named by (rewrite HiR; assumption).
  rewrite HiR. rewrite insert_levels_intro; [simpl; eauto | assumption |].
  intros n Hn Hin. destruct (HcR n Hin) as [->|Hr]; [contradiction|].
  exact (Hrec n Hn Hr).
Qed.

(** ** Swapping the ids of [difference] (C4) *)




(** ** [averted] (C5) *)




(** ** The ratio of a table with itself (C1) *)

(** C1.  Let [den] be the stratified denominator of [ratio(t, t, strata,
    multiplier=1)].  Every row of a result that carries the index labels
    of a row of [den] with a finite nonzero value has 1 in its value
    column, and every such row of [den] has a row in the result.  This
    holds for every table and strata, with or without [dropna], recorded
    inputs and [reset_index]; and the call returns on a flat table that
    has the strata and index columns, numbers in its value column and
    strings in its measure column. *)
Theorem ratio_of_table_with_itself_is_one
  (g : globals) (t : frame) (strata : pyarg) (measure_col : name)
  (drop : bool) (record_inputs : option bool) (reset : bool) :
  (divisible g t strata measure_col ->
   exists res,
     ratio g t t strata (Fin 1) PyNone PyNone (Scalar VALUE_COLUMN) measure_col
           drop record_inputs reset = Ok res) /\
  (forall t' den res,
     _ensure_columns_not_levels t None = Ok t' ->
     stratify g t' (PList (_ensure_iterable strata t' PyNone)) (Scalar VALUE_COLUMN) false
     = Ok den ->
     ratio g t t strata (Fin 1) PyNone PyNone (Scalar VALUE_COLUMN) measure_col
           drop record_inputs reset = Ok res ->
     (forall r d q,
         In r (rows res) -> In d (rows den) ->
         ratio_key reset (List.length (index den)) r = ix d ->
         cells d = [Num (Fin q)] -> q <> 0%Qc ->
         cell res r VALUE_COLUMN = Num (Fin 1)) /\
     (forall d q,
         In d (rows den) -> cells d = [Num (Fin q)] -> q <> 0%Qc ->
         exists r, In r (rows res) /\ ratio_key reset (List.length (index den)) r = ix d)).
Proof.
  split.
  { intros [Hidx [Hne [Hnd [Hnone [HK [Hval [HvalK [Hnum [Hmc [Hstr Hrec]]]]]]]]]].
    apply ratio_self_returns; assumption. }
  intros t' den res Ht Hden H.
  unfold ratio in H. rewrite Ht in H.
  cbn [bind] in H.
  change (_ensure_iterable PyNone t' (PList [])) with (@nil name) in H.
  cbn [intersects existsb] in H.
  inv_bind H. rewrite !app_nil_r in H. rewrite Hden in H. cbn [bind] in H.
  assert (Hs := Hden). unfold stratify in Hs.
  change (_ensure_iterable (Scalar VALUE_COLUMN) t' PyNone) with [VALUE_COLUMN] in Hs.
  apply bind_ok in Hs. destruct Hs as [s [Hs Es]]. injection Es as ->.
  apply groupby_sum_shape in Hs. destruct Hs as [Hidx [Hcols [Hkeys Hcells]]].
  assert (Hone : forall d, In d (rows den) -> exists x, cells d = [Num x]).
  { intros d Hd. pose proof (Hcells d Hd) as F.
    inversion F as [|c x cs xs Hx F' E1 E2]; subst.
    inversion F'; subst. destruct x as [|x]; [discriminate|]. exists x. reflexivity. }
  assert (Hnum : numeric_rows den).
  { intros d c Hd Hc. destruct (Hone d Hd) as [x E]. rewrite E in Hc.
    destruct Hc as [<-|[]]. reflexivity. }
  rewrite (frame_op_self fdiv den Hnum) in H. cbn [bind] in H.
  rewrite frame_scale_numeric in H.
  2:{ intros r c Hr Hc. simpl in Hr. apply in_map_iff in Hr. destruct Hr as [d [<- Hd]].
      simpl in Hc. apply in_map_iff in Hc. destruct Hc as [c0 [<- Hc0]].
      pose proof (Hnum d c0 Hd Hc0). destruct c0; [discriminate | reflexivity]. }
  cbn [bind index columns rows] in H. rewrite map_map in H. cbn [ix cells] in H.
  rewrite Hcols in H.
  set (F := fun d : row =>
              mkrow (ix d) (map (scale (Fin 1)) (map (self_op fdiv) (cells d)))) in H.
  set (D := map F (rows den)) in H.
  set (R1 := if drop then dropna (mkframe (index den) [VALUE_COLUMN] D)
             else mkframe (index den) [VALUE_COLUMN] D) in H.
  set (R2 := match a with
             | Some (nm, dm) =>
                 assign
                   (assign
                      (assign R1 (NStr ("numerator_" ++ format_name measure_col)) (Str nm))
                      (NStr ("denominator_" ++ format_name measure_col)) (Str dm))
                   (NStr "multiplier") (Num (Fin 1))
             | None => R1
             end) in H.
  assert (HDone : forall r, In r D -> exists v, cells r = [v]).
  { intros r Hr. apply in_map_iff in Hr. destruct Hr as [d [<- Hd]].
    destruct (Hone d Hd) as [x E]. simpl. rewrite E. simpl. eauto. }
  assert (HR1 : tracks D R1) by (apply dropna_tracks; assumption).
  assert (HR2 : tracks D R2).
  { unfold R2. destruct a as [[nm dm]|]; [|assumption].
    repeat apply assign_tracks; try assumption; discriminate. }
  assert (HiR2 : List.length (index R2) = List.length (index den)).
  { unfold R2, R1. destruct a as [[nm dm]|]; rewrite ?assign_index;
      destruct drop; reflexivity. }
  assert (Hnd : NoDup (map ix (rows den))) by (rewrite Hkeys; apply sort_keys_NoDup).
  assert (HDlen : forall r, In r D -> List.length (ix r) = List.length (index den)).
  { intros r Hr. apply in_map_iff in Hr. destruct Hr as [d [<- Hd]]. simpl.
    rewrite Hidx. apply (group_keys_length t'). rewrite <- Hkeys. apply in_map. assumption. }
  destruct (tracks_result D R2 res reset _ HR2 HiR2 HDlen H) as [HA HB].
  split.
  - intros r d q Hr Hd Hkey Hc Hq.
    destruct (HA r Hr) as [r0 [Hr0 [Hk0 Hv0]]].
    apply in_map_iff in Hr0. destruct Hr0 as [d0 [<- Hd0]]. simpl in Hk0, Hv0.
    assert (d0 = d) as ->.
    { apply (NoDup_map_injective ix (rows den)); auto. congruence. }
    rewrite Hv0, Hc. cbn [map hd].
    change (scale (Fin 1) (self_op fdiv (Num (Fin q))))
      with (Num (fmul (fdiv (Fin q) (Fin q)) (Fin 1))).
    rewrite fdiv_self_one by assumption. reflexivity.
  - intros d q Hd Hc Hq.
    destruct (HB (F d)) as [r [Hr Hk]].
    + apply in_map. assumption.
    + unfold F. cbn [cells]. rewrite Hc. cbn [map].
      change (scale (Fin 1) (self_op fdiv (Num (Fin q))))
        with (Num (fmul (fdiv (Fin q) (Fin q)) (Fin 1))).
      rewrite fdiv_self_one by assumption. reflexivity.
    + exists r. split; assumption.
Qed.

Lemma people_divisible :
  divisible initial_globals people (Scalar (NStr "sex")) MEASURE_COLUMN.
Proof.
  unfold divisible.
  let K := eval vm_compute in
             (_ensure_iterable (Scalar (NStr "sex")) people PyNone
                ++ INDEX_COLUMNS initial_globals) in
  change (_ensure_iterable (Scalar (NStr "sex")) people PyNone ++ INDEX_COLUMNS initial_globals)
    with K.
  cbv zeta. repeat split.
  - discriminate.
  - repeat (constructor; [simpl; intros H; in_cases H|]). constructor.
  - simpl. intros H. in_cases H.
  - intros c Hc. simpl in Hc. in_cases Hc; simpl; tauto.
  - simpl. tauto.
  - simpl. intros H. in_cases H.
  - intros r Hr. simpl in Hr. in_cases Hr; reflexivity.
  - simpl. tauto.
  - intros r Hr. simpl in Hr. in_cases Hr; eexists; reflexivity.
  - intros c Hc Hin. simpl in Hc. in_cases Hc; simpl in Hin; in_cases Hin.
Qed.

Lemma ratio_of_table_with_itself_is_one_witness :
  exists res r,
    ratio initial_globals people people (Scalar (NStr "sex")) (Fin 1) PyNone PyNone
          (Scalar VALUE_COLUMN) MEASURE_COLUMN false None true = Ok res /\
    In r (rows res) /\
    cell res r VALUE_COLUMN = Num (Fin 1).
Proof.
  destruct (ratio_of_table_with_itself_is_one initial_globals people (Scalar (NStr "sex"))
              MEASURE_COLUMN false None true) as [Hreturns Hone].
  destruct (Hreturns people_divisible) as [res H].
  assert (Hden : exists den d q,
             stratify initial_globals people
                      (PList (_ensure_iterable (Scalar (NStr "sex")) people PyNone))
                      (Scalar VALUE_COLUMN) false = Ok den /\
             In d (rows den) /\ cells d = [Num (Fin q)] /\ q <> 0%Qc).
  { eexists. eexists. eexists. split; [vm_compute; reflexivity|].
    split; [left; reflexivity|]. split; [reflexivity|].
    apply Qc_neq_by_num. vm_compute. discriminate. }
  destruct Hden as [den [d [q [Hden [Hd [Hc Hq]]]]]].
  destruct (Hone people den res eq_refl Hden H) as [H1 H2].
  destruct (H2 d q Hd Hc Hq) as [r [Hr Hk]].
  exists res, r. split; [exact H|]. split; [exact Hr|].
  exact (H1 r d q Hr Hd Hk Hc Hq).
Defined.

(** * Further properties of the module *)

(** ** The shape of what [marginalize] and [stratify] return *)

Lemma reset_index_distinct (f f' : frame) :
  reset_index f = Ok f' -> NoDup (level_labels f).
Proof.
  unfold reset_index. intros H. inv_bind H.
  apply insert_levels_ok in Ha. tauto.
Qed.

Lemma map_firstn_app {A : Type} (n : nat) (l : list (list A * list A)) :
  (forall p, In p l -> List.length (fst p) = n) ->
  map (fun p => firstn n (fst p ++ snd p)) l = map fst l.
Proof.
  intros H. apply map_ext_in. intros p Hp. rewrite <- (H p Hp). apply firstn_app_exact.
Qed.

(** The result of [groupby(keys)[vcols].sum()], after the optional
    [reset_index]: where the keys and the sums are, and which keys. *)
Lemma groupby_reset_shape (f d r : frame) (keys vcols : list name) (reset : bool) :
  groupby_sum f keys vcols = Ok d ->
  ~ In NNone keys ->
  (if reset then reset_index d else Ok d) = Ok r ->
  index r = (if reset then [NNone] else keys) /\
  columns r = (if reset then keys ++ vcols else vcols) /\
  map (ratio_key reset (List.length keys)) (rows r) = group_keys f keys /\
  (reset = true -> NoDup keys /\ forall c, In c keys -> ~ In c vcols).
Proof.
  intros Hg Hnone Hr.
  destruct (groupby_sum_shape f d keys vcols Hg) as [Hi [Hc [Hk _]]].
  destruct reset.
  - assert (Hl : level_labels d = keys)
      by (rewrite level_labels_named; rewrite Hi; auto).
    pose proof (reset_index_distinct d r Hr) as Hnd.
    apply reset_index_ok in Hr. destruct Hr as [-> Hdisj]. simpl.
    rewrite Hl, Hc in *. repeat split; auto.
    rewrite <- Hk.
    assert (E : forall l : list row,
               (forall x, In x l -> List.length (ix x) = List.length keys) ->
               map (ratio_key true (List.length keys))
                   (range_index (map (fun x => ix x ++ cells x) l)) = map ix l).
    { intros l Hlen.
      rewrite <- (map_map cells (fun cs => firstn (List.length keys) cs)).
      rewrite range_index_cells, map_map. apply map_ext_in. intros x Hx.
      rewrite <- (Hlen x Hx). apply firstn_app_exact. }
    apply E. intros x Hx. apply (group_keys_length f). rewrite <- Hk. apply in_map, Hx.
  - injection Hr as <-. repeat split; auto; discriminate.
Qed.






(** ** Names that [stratify] and [marginalize] cannot or need not find *)






Lemma minus_same (a b b' : list name) :
  (forall c, In c a -> (In c b <-> In c b')) -> minus a b = minus a b'.
Proof.
  intros H. unfold minus. apply filter_ext_in'. intros c Hc. f_equal.
  destruct (mem c b') eqn:E.
  - apply mem_In. apply H; [assumption|]. apply mem_In, E.
  - apply mem_not_In. intros Hin. apply (proj1 (mem_not_In c b') E). apply H; assumption.
Qed.

(** X5.  [marginalize] does not look the marginalized names up: a name
    that is no column of the flat table is passed over in silence, so
    the call returns (or raises) exactly as it does without that name. *)
Theorem marginalize_ignores_absent_names
  (t : frame) (M X V : list name) (reset : bool) :
  index t = [NNone] -> ~ In NNone M -> ~ In NNone X ->
  (forall c, In c X -> ~ In c (columns t)) ->
  marginalize t (PList (M ++ X)) (PList V) reset = marginalize t (PList M) (PList V) reset.
Proof.
  intros Hi HM HX Habs. unfold marginalize. simpl.
  rewrite !ensure_columns_not_levels_flat; auto.
  - cbn [bind]. unfold Index_difference.
    cbv beta iota zeta delta [_ensure_iterable is_None method1].
    rewrite (minus_same (columns t) ((M ++ X) ++ V) (M ++ V)); [reflexivity|].
    intros c Hc. rewrite !in_app_iff. split; [|tauto].
    intros [[H|H]|H]; auto. exfalso. exact (Habs c H Hc).
  - cbv beta iota zeta delta [_ensure_iterable is_None method1].
    rewrite in_app_iff. tauto.
Qed.

Lemma marginalize_ignores_absent_names_witness :
  marginalize people (PList ([NStr "sex"] ++ [NStr "age"])) (PList [VALUE_COLUMN]) true
  = marginalize people (PList [NStr "sex"]) (PList [VALUE_COLUMN]) true.
Proof.
  apply marginalize_ignores_absent_names.
  - reflexivity.
  - simpl. intros F. in_cases F.
  - simpl. intros F. in_cases F.
  - intros c Hc. simpl in Hc. in_cases Hc. simpl. intros F. in_cases F.
Defined.

(** ** [Index.difference] of an [Index.difference] *)


Lemma filter_all {A : Type} (p : A -> bool) (l : list A) :
  (forall x, In x l -> p x = true) -> filter p l = l.
Proof.
  induction l as [|a l IH]; simpl; intros H; [reflexivity|].
  rewrite (H a (or_introl eq_refl)), IH by (intros; apply H; right; assumption).
  reflexivity.
Qed.











(** ** Grouping a grouped table again, by fewer columns *)

Section Coarsen.
Variable t : frame.
Variables K1 K V : list name.
Hypothesis K_sub : forall c, In c K -> In c K1.
Hypothesis K_live : live_rows t K = live_rows t K1.
Hypothesis K1_not_values : forall c, In c K1 -> ~ In c V.

Let t1 : frame := grouped_flat t K1 V.
Let proj (k1 : list scalar) : list scalar := cells_key K1 K k1.
Let sums (k1 : list scalar) : list scalar :=
  map (fun c => Num (Fin (group_total t K1 k1 c))) V.

Lemma coarsen_key_of_flat (k1 rest : list scalar) :
  List.length k1 = List.length K1 ->
  cells_key (K1 ++ V) K (k1 ++ rest) = proj k1.
Proof.
  intros Hlen. unfold proj, cells_key. apply map_ext_in. intros c Hc.
  apply getv_app_l; [auto | apply K_sub, Hc].
Qed.

Lemma coarsen_proj (r : row) : proj (group_key t K1 r) = group_key t K r.
Proof.
  unfold proj, cells_key, group_key. apply map_ext_in. intros c Hc.
  apply (getv_map (field t r)). apply K_sub, Hc.
Qed.

Lemma coarsen_nan (r : row) :
  existsb is_nan (group_key t K1 r) = false -> existsb is_nan (group_key t K r) = false.
Proof.
  rewrite !existsb_is_nan_false. intros H x Hx. apply H.
  unfold group_key in *. apply in_map_iff in Hx. destruct Hx as [c [<- Hc]].
  apply in_map, K_sub, Hc.
Qed.

Lemma coarsen_proj_live (k1 : list scalar) :
  In k1 (group_keys t K1) -> existsb is_nan (proj k1) = false.
Proof.
  intros H. apply group_keys_In in H. destruct H as [r [_ [Hn <-]]].
  rewrite coarsen_proj. apply coarsen_nan, Hn.
Qed.

Lemma coarsen_K_columns (c : name) : In c K -> In c (columns t1).
Proof. intros H. simpl. apply in_or_app. left. apply K_sub, H. Qed.

Lemma coarsen_keys : group_keys t1 K = group_keys t K.
Proof.
  unfold group_keys at 1 2. apply sort_keys_ext. intros k. rewrite !in_map_iff. split.
  - intros [r1 [Hk Hr1]]. unfold live_rows in Hr1. apply filter_In in Hr1.
    destruct Hr1 as [Hr1 _]. apply grouped_flat_cells in Hr1.
    destruct Hr1 as [k1 [Hk1 Hcells]].
    rewrite (group_key_cells t1 K r1 coarsen_K_columns) in Hk.
    simpl in Hk. rewrite Hcells, coarsen_key_of_flat in Hk
      by (eapply group_keys_length; eauto).
    apply group_keys_In in Hk1. destruct Hk1 as [r [Hr [Hn Hkey]]].
    exists r. split.
    + rewrite <- coarsen_proj, Hkey. assumption.
    + rewrite K_live. unfold live_rows. apply filter_In.
      rewrite Hn. auto.
  - intros [r [Hk Hr]].
    assert (Hr' := Hr). rewrite K_live in Hr'.
    assert (Hk1 : In (group_key t K1 r) (group_keys t K1)).
    { unfold group_keys. apply sort_keys_In, in_map. assumption. }
    destruct (range_index_has _ _ (in_map (fun k1 => k1 ++ sums k1) _ _ Hk1))
      as [r1 [Hr1 Hcells]].
    assert (Hkey : group_key t1 K r1 = k).
    { rewrite (group_key_cells t1 K r1 coarsen_K_columns). simpl.
      rewrite Hcells, coarsen_key_of_flat by apply group_key_length.
      rewrite coarsen_proj. assumption. }
    exists r1. split; [assumption|].
    unfold live_rows. apply filter_In. split; [exact Hr1|].
    rewrite Hkey, <- Hk.
    unfold live_rows in Hr. apply filter_In in Hr. tauto.
Qed.

Lemma coarsen_total (k : list scalar) (c : name) :
  In c V -> group_total t1 K k c = group_total t K k c.
Proof.
  intros Hc. unfold group_total at 1.
  rewrite (group_rows_cells t1 K k coarsen_K_columns), filter_filter_and.
  unfold cell.
  rewrite (map_filter_comp cells
             (fun cs => to_q (getv (columns t1) cs c))
             (fun cs => negb (existsb is_nan (cells_key (columns t1) K cs))
                        && key_eqb (cells_key (columns t1) K cs) k)).
  simpl. rewrite range_index_cells.
  rewrite <- (map_filter_comp (fun k1 => k1 ++ sums k1)).
  rewrite (filter_ext_in' _ (fun k1 => key_eqb (proj k1) k)).
  2:{ intros k1 Hk1. rewrite coarsen_key_of_flat by (eapply group_keys_length; eauto).
      rewrite coarsen_proj_live by assumption. reflexivity. }
  rewrite (map_ext_in _ (fun k1 => group_total t K1 k1 c)).
  2:{ intros k1 Hk1. apply filter_In in Hk1. destruct Hk1 as [Hk1 _].
      unfold sums. rewrite grouped_flat_value_cell; auto.
      - eapply group_keys_length; eauto.
      - intros Hin. exact (K1_not_values c Hin Hc). }
  unfold group_total, group_rows, group_keys.
  rewrite (qsum_partition_proj (group_key t K1) (fun r => to_q (getv (columns t) (cells r) c))
             proj k).
  - rewrite K_live. f_equal. f_equal. apply filter_ext. intros r.
    rewrite coarsen_proj. reflexivity.
  - apply sort_keys_NoDup.
  - intros r Hr. apply sort_keys_In, in_map. assumption.
Qed.

Lemma coarsen : grouped t1 K V = grouped t K V.
Proof.
  unfold grouped. rewrite coarsen_keys. f_equal.
  apply map_ext. intros k. f_equal. apply map_ext_in. intros c Hc.
  rewrite coarsen_total by assumption. reflexivity.
Qed.
End Coarsen.

(** ** Composing [marginalize] and [stratify] with themselves *)








(** ** [value] and [reset_index] *)

(** X9.  [value] followed by [reset_index] gives the table back with its
    columns rearranged and nothing else changed: the identifier columns
    come first, in sorted order, the value columns last, and every row
    keeps its place and its cells. *)
Theorem value_then_reset_index (g : globals) (t : frame) (V : list name) :
  ~ In NNone (columns t) ->
  (forall c, In c V -> In c (columns t)) ->
  Index_difference (columns t) V <> [] ->
  exists v r,
    value g t PyNone PyNone (PList V) = Ok v /\
    reset_index v = Ok r /\
    index v = Index_difference (columns t) V /\
    columns v = V /\
    index r = [NNone] /\
    columns r = Index_difference (columns t) V ++ V /\
    (forall c, In c (columns r) <-> In c (columns t)) /\
    map cells (rows r)
    = map (fun x => map (cell t x) (Index_difference (columns t) V ++ V)) (rows t).
Proof.
  intros Hnone HV Hne.
  set (K := Index_difference (columns t) V) in *.
  assert (HK : forall c, In c K <-> In c (columns t) /\ ~ In c V)
    by (intros c; apply Index_difference_In).
  set (rest := minus (columns t) K).
  set (indexed := mkframe K rest
                    (map (fun x => mkrow (map (cell t x) K) (map (cell t x) rest)) (rows t))).
  assert (Hrest : forall c, In c V -> In c rest).
  { intros c Hc. apply minus_In. split; [auto|]. rewrite HK. tauto. }
  set (v := mkframe K V (map (fun x => mkrow (map (cell t x) K) (map (cell t x) V)) (rows t))).
  assert (Ev : value g t PyNone PyNone (PList V) = Ok v).
  { cbv beta iota zeta delta [value value_index _ensure_iterable is_None method1 PyNone].
    cbn [bind]. rewrite app_nil_r. fold K.
    rewrite set_index_intro by (auto; intros c Hc; apply HK, Hc).
    cbn [bind]. fold rest. fold indexed.
    unfold select. rewrite (proj2 (require_columns_ok indexed V)) by exact Hrest.
    cbn [bind]. unfold v. f_equal. f_equal. simpl. rewrite map_map.
    apply map_ext. intros x. simpl. f_equal. apply map_ext_in. intros c Hc.
    unfold cell at 1. simpl. apply (getv_map (cell t x)). auto. }
  assert (Er : reset_index v
               = Ok (mkframe [NNone] (K ++ V)
                       (range_index (map (fun x => ix x ++ cells x) (rows v))))).
  { unfold reset_index. rewrite level_labels_named by (simpl; rewrite HK; tauto).
    simpl. rewrite insert_levels_intro; [reflexivity | apply Index_difference_NoDup |].
    intros c Hc. apply HK in Hc. tauto. }
  exists v, (mkframe [NNone] (K ++ V) (range_index (map (fun x => ix x ++ cells x) (rows v)))).
  repeat split; auto.
  - simpl. rewrite in_app_iff, HK. intros [H|H]; [tauto | auto].
  - simpl. rewrite in_app_iff, HK. intros H.
    destruct (in_dec name_eq_dec c V); tauto.
  - simpl. rewrite range_index_cells, !map_map. apply map_ext. intros x. simpl.
    rewrite map_app. reflexivity.
Qed.

Lemma value_then_reset_index_witness :
  exists v r,
    value initial_globals people PyNone PyNone (PList [VALUE_COLUMN]) = Ok v /\
    reset_index v = Ok r /\
    columns r = [NStr "input_draw"; NStr "measure"; NStr "scenario"; NStr "sex"; VALUE_COLUMN] /\
    List.length (rows r) = List.length (rows people).
Proof.
  destruct (value_then_reset_index initial_globals people [VALUE_COLUMN])
    as [v [r [H1 [H2 [_ [_ [_ [H3 [_ H4]]]]]]]]].
  - simpl. intros F. in_cases F.
  - intros c Hc. simpl in Hc. in_cases Hc. simpl. tauto.
  - vm_compute. discriminate.
  - exists v, r. split; [exact H1|]. split; [exact H2|]. split.
    + rewrite H3. vm_compute. reflexivity.
    + rewrite <- (length_map cells), H4, length_map. reflexivity.
Defined.

(** ** [_ensure_columns_not_levels] *)

Lemma level_labels_In (f : frame) (c : name) :
  In c (index f) -> c <> NNone -> In c (level_labels f).
Proof.
  unfold level_labels. intros Hin Hc.
  assert (G : forall l start, In c l ->
              In c (map (fun p => level_label f (fst p) (snd p))
                        (combine (seq start (List.length l)) l))).
  { induction l as [|n l IH]; intros start H; simpl in *; [contradiction|].
    destruct H as [->|H]; [left | right; apply IH, H].
    destruct c; [congruence | reflexivity | reflexivity]. }
  apply G, Hin.
Qed.

(** X10.  [_ensure_columns_not_levels] does what it is for: every name
    of the list that is an index level of the frame is a column of the
    result, no column is lost, and a second application to the result
    changes nothing. *)
Theorem ensure_columns_not_levels_moves_levels (df df' : frame) (cl : list name) :
  ~ In NNone cl ->
  _ensure_columns_not_levels df (Some cl) = Ok df' ->
  (forall c, In c cl -> In c (index df) -> In c (columns df')) /\
  (forall c, In c (columns df) -> In c (columns df')) /\
  _ensure_columns_not_levels df' (Some cl) = Ok df'.
Proof.
  intros Hnone H. unfold _ensure_columns_not_levels in H.
  destruct (Nat.ltb 1 (List.length (index df)) || mem (index_name df) cl) eqn:E.
  - apply reset_index_ok in H. destruct H as [-> _]. simpl. repeat split.
    + intros c Hc Hi. apply in_or_app. left. apply level_labels_In; [assumption|].
      intros ->. contradiction.
    + intros c Hc. apply in_or_app. auto.
    + unfold _ensure_columns_not_levels, index_name. simpl.
      rewrite (proj2 (mem_not_In NNone cl) Hnone). reflexivity.
  - injection H as <-. repeat split; auto.
    + intros c Hc Hi. exfalso. apply orb_false_iff in E. destruct E as [E1 E2].
      apply Nat.ltb_ge in E1. unfold index_name in E2.
      destruct (index df) as [|n [|n' l]]; simpl in *; [contradiction| |lia].
      destruct Hi as [->|[]]. apply mem_not_In in E2. contradiction.
    + unfold _ensure_columns_not_levels. rewrite E. reflexivity.
Qed.

Lemma ensure_columns_not_levels_moves_levels_witness :
  exists df',
    _ensure_columns_not_levels (grouped people [NStr "sex"] [VALUE_COLUMN]) (Some [NStr "sex"])
    = Ok df' /\
    In (NStr "sex") (columns df') /\
    _ensure_columns_not_levels df' (Some [NStr "sex"]) = Ok df'.
Proof.
  assert (H : exists df',
             _ensure_columns_not_levels (grouped people [NStr "sex"] [VALUE_COLUMN])
                                        (Some [NStr "sex"]) = Ok df')
    by (eexists; vm_compute; reflexivity).
  destruct H as [df' H]. exists df'. split; [exact H|].
  destruct (ensure_columns_not_levels_moves_levels _ df' [NStr "sex"]
              ltac:(simpl; intros F; in_cases F) H) as [H1 [_ H3]].
  split; [|exact H3]. apply H1; left; reflexivity.
Defined.

(** ** Frames aligned on the same index levels *)

Lemma in_combine_exists_l {A B : Type} (l : list A) (l' : list B) (a : A) :
  List.length l = List.length l' -> In a l -> exists b, In (a, b) (combine l l').
Proof.
  revert l'; induction l as [|x l IH]; intros [|y l'] Hlen Hin; simpl in *;
    try discriminate; try contradiction.
  destruct Hin as [->|Hin]; [exists y; auto|].
  destruct (IH l' ltac:(lia) Hin) as [b Hb]. exists b. auto.
Qed.

Lemma in_combine_exists_r {A B : Type} (l : list A) (l' : list B) (b : B) :
  List.length l = List.length l' -> In b l' -> exists a, In (a, b) (combine l l').
Proof.
  revert l'; induction l as [|x l IH]; intros [|y l'] Hlen Hin; simpl in *;
    try discriminate; try contradiction.
  destruct Hin as [->|Hin]; [exists x; auto|].
  destruct (IH l' ltac:(lia) Hin) as [a Ha]. exists a. auto.
Qed.

Lemma keys_eqb_eq (a b : list (list scalar)) : keys_eqb a b = true -> a = b.
Proof. unfold keys_eqb. destruct (list_eq_dec key_eq_dec a b); [auto | discriminate]. Qed.

(** Every row of either operand is in the outer join. *)
Lemma outer_join_covers (L R : list side) (k : list scalar) :
  In k (map jkey L) \/ In k (map jkey R) ->
  exists e, In e (outer_join L R) /\ fst (fst e) = k.
Proof.
  intros Hk. unfold outer_join.
  destruct L as [|l0 L'].
  { destruct Hk as [[]|Hk]. apply in_map_iff in Hk. destruct Hk as [r [<- Hr]].
    destruct R as [|r0 R']; [contradiction|].
    exists (jkey r, None, Some r). split; [|reflexivity].
    apply in_map_iff. exists r. auto. }
  destruct R as [|r0 R'].
  { destruct Hk as [Hk|[]]. apply in_map_iff in Hk. destruct Hk as [l [<- Hl]].
    exists (jkey l, Some l, None). split; [|reflexivity].
    apply in_map_iff. exists l. auto. }
  set (L := l0 :: L') in *. set (R := r0 :: R') in *.
  destruct (_ && keys_eqb _ _) eqn:Ezip.
  - apply andb_true_iff in Ezip. destruct Ezip as [_ Ek]. apply keys_eqb_eq in Ek.
    assert (Hlen : List.length L = List.length R).
    { rewrite <- (length_map jkey L), Ek, length_map. reflexivity. }
    assert (Hl : In k (map jkey L)) by (destruct Hk; [|rewrite Ek]; assumption).
    apply in_map_iff in Hl. destruct Hl as [l [<- Hl]].
    destruct (in_combine_exists_l L R l Hlen Hl) as [r Hp].
    exists (jkey l, Some l, Some r). split; [|reflexivity].
    apply in_map_iff. exists (l, r). auto.
  - assert (Hin : In k (sort_keys (map jkey L ++ map jkey R))).
    { apply sort_keys_In, in_or_app. assumption. }
    assert (Hone : exists e,
               In e (match filter (with_key k) L, filter (with_key k) R with
                     | [], rs => map (fun r => (k, @None side, Some r)) rs
                     | ls, [] => map (fun l => (k, Some l, @None side)) ls
                     | ls, rs => flat_map (fun l => map (fun r => (k, Some l, Some r)) rs) ls
                     end) /\ fst (fst e) = k).
    { destruct (filter (with_key k) L) as [|l ls] eqn:EL;
        destruct (filter (with_key k) R) as [|r rs] eqn:ER.
      - exfalso. destruct Hk as [Hk|Hk]; apply in_map_iff in Hk;
          destruct Hk as [x [Hx Hin']].
        + assert (F : In x (filter (with_key k) L))
            by (apply filter_In; split; [assumption | apply key_eqb_eq; assumption]).
          rewrite EL in F. contradiction.
        + assert (F : In x (filter (with_key k) R))
            by (apply filter_In; split; [assumption | apply key_eqb_eq; assumption]).
          rewrite ER in F. contradiction.
      - exists (k, None, Some r). split; [left; reflexivity | reflexivity].
      - exists (k, Some l, None). split; [left; reflexivity | reflexivity].
      - exists (k, Some l, Some r). split; [left; reflexivity | reflexivity]. }
    destruct Hone as [e [He Hke]]. exists e. split; [|exact Hke].
    apply in_flat_map. exists k. split; assumption.
Qed.

(** Whatever an entry of the outer join shows is a row of the operand. *)
Lemma outer_join_sides (L R : list side) (e : list scalar * option side * option side) :
  In e (outer_join L R) ->
  (forall s, snd (fst e) = Some s -> In s L) /\ (forall s, snd e = Some s -> In s R).
Proof.
  unfold outer_join.
  destruct L as [|l0 L'].
  { destruct R as [|r0 R']; [intros []|].
    intros Hin. apply in_map_iff in Hin. destruct Hin as [r [<- Hr]]. cbn [fst snd].
    split; intros s E; [discriminate | injection E as <-; assumption]. }
  destruct R as [|r0 R'].
  { intros Hin. apply in_map_iff in Hin. destruct Hin as [l [<- Hl]]. cbn [fst snd].
    split; intros s E; [injection E as <-; assumption | discriminate]. }
  set (L := l0 :: L') in *. set (R := r0 :: R') in *.
  destruct (_ && keys_eqb _ _).
  - intros Hin. apply in_map_iff in Hin. destruct Hin as [[l r] [<- Hp]]. cbn [fst snd].
    split; intros s E; injection E as <-;
      [eapply in_combine_l; eauto | eapply in_combine_r; eauto].
  - intros Hin. apply in_flat_map in Hin. destruct Hin as [k [_ Hin]].
    assert (HL : forall x, In x (filter (with_key k) L) -> In x L)
      by (intros x Hx; apply filter_In in Hx; tauto).
    assert (HR : forall x, In x (filter (with_key k) R) -> In x R)
      by (intros x Hx; apply filter_In in Hx; tauto).
    destruct (filter (with_key k) L) as [|l ls];
      destruct (filter (with_key k) R) as [|r rs].
    + destruct Hin.
    + apply in_map_iff in Hin. destruct Hin as [x [<- Hx]]. cbn [fst snd].
      split; intros s E; [discriminate | injection E as <-; auto].
    + apply in_map_iff in Hin. destruct Hin as [x [<- Hx]]. cbn [fst snd].
      split; intros s E; [injection E as <-; auto | discriminate].
    + apply in_flat_map in Hin. destruct Hin as [x [Hx Hin]].
      apply in_map_iff in Hin. destruct Hin as [y [<- Hy]]. cbn [fst snd].
      split; intros s E; injection E as <-; auto.
Qed.

Lemma combine_same_ix (L R : list row) (l r : row) :
  map ix L = map ix R -> In (l, r) (combine L R) -> ix l = ix r.
Proof.
  revert R; induction L as [|x L IH]; intros [|y R] E Hin; simpl in *; try contradiction.
  injection E as E1 E2. destruct Hin as [Hin|Hin]; [congruence | eauto].
Qed.

Lemma names_eqb_refl (l : list name) : names_eqb l l = true.
Proof. unfold names_eqb. destruct (list_eq_dec name_eq_dec l l); congruence. Qed.

(** Two frames with the same index levels always align. *)
Lemma align_same_index_returns (l r : frame) :
  index l = index r -> exists es, align l r = Ok (index l, es).
Proof.
  intros E. unfold align. rewrite <- E, Nat.eqb_refl, names_eqb_refl. cbn [andb orb].
  destruct (keys_eqb _ _); eauto.
Qed.

Lemma align_same_index (l r : frame)
  (es : list (list scalar * option (list scalar) * option (list scalar))) :
  index l = index r ->
  align l r = Ok (index l, es) ->
  (forall k, In k (map ix (rows l)) \/ In k (map ix (rows r)) ->
             exists e, In e es /\ fst (fst e) = k) /\
  (forall e, In e es ->
     (forall c, snd (fst e) = Some c -> exists x, In x (rows l) /\ cells x = c) /\
     (forall c, snd e = Some c -> exists x, In x (rows r) /\ cells x = c)) /\
  (NoDup (map ix (rows l)) -> NoDup (map ix (rows r)) ->
   forall e, In e es ->
     snd (fst e) = option_map cells (find (fun x => key_eqb (ix x) (fst (fst e))) (rows l)) /\
     snd e = option_map cells (find (fun x => key_eqb (ix x) (fst (fst e))) (rows r)) /\
     (In (fst (fst e)) (map ix (rows l)) \/ In (fst (fst e)) (map ix (rows r)))).
Proof.
  intros E. unfold align. rewrite <- E, Nat.eqb_refl, names_eqb_refl. cbn [andb orb].
  destruct (keys_eqb (map ix (rows l)) (map ix (rows r))) eqn:Ek.
  - apply keys_eqb_eq in Ek. intros H. injection H as <-.
    assert (Hlen : List.length (rows l) = List.length (rows r)).
    { rewrite <- (length_map ix (rows l)), Ek, length_map. reflexivity. }
    split; [|split].
    + intros k Hk.
      assert (Hl : In k (map ix (rows l))) by (destruct Hk; [|rewrite Ek]; assumption).
      apply in_map_iff in Hl. destruct Hl as [x [<- Hx]].
      destruct (in_combine_exists_l _ _ x Hlen Hx) as [y Hp].
      exists (ix x, Some (cells x), Some (cells y)). split; [|reflexivity].
      apply in_map_iff. exists (x, y). auto.
    + intros e He. apply in_map_iff in He. destruct He as [[x y] [<- Hp]]. cbn [fst snd].
      split; intros c Hc; injection Hc as <-;
        [exists x | exists y]; split; auto;
        [eapply in_combine_l; eauto | eapply in_combine_r; eauto].
    + intros HL HR e He. apply in_map_iff in He. destruct He as [[x y] [<- Hp]].
      cbn [fst snd].
      pose proof (combine_same_ix _ _ x y Ek Hp) as Hxy.
      rewrite (find_unique ix (rows l) x HL (in_combine_l _ _ _ _ Hp)).
      rewrite Hxy, (find_unique ix (rows r) y HR (in_combine_r _ _ _ _ Hp)).
      repeat split. left. rewrite <- Hxy. apply in_map. eapply in_combine_l; eauto.
  - intros H. injection H as <-.
    set (whole := fun x : row => mkside (ix x) [] (cells x)).
    set (L := map whole (rows l)). set (R := map whole (rows r)).
    assert (EL : map jkey L = map ix (rows l)) by (unfold L; rewrite map_map; reflexivity).
    assert (ER : map jkey R = map ix (rows r)) by (unfold R; rewrite map_map; reflexivity).
    split; [|split].
    + intros k Hk. rewrite <- EL, <- ER in Hk.
      destruct (outer_join_covers L R k Hk) as [[[k' a] b] [He Hke]].
      exists (k', option_map vals a, option_map vals b). split; [|exact Hke].
      apply in_map_iff. exists (k', a, b). auto.
    + intros e He. apply in_map_iff in He. destruct He as [[[k a] b] [<- He]].
      destruct (outer_join_sides L R _ He) as [HsL HsR]. cbn [fst snd] in *.
      split; intros c Hc.
      * destruct a as [s|]; [|discriminate]. injection Hc as <-.
        specialize (HsL s eq_refl). apply in_map_iff in HsL.
        destruct HsL as [x [<- Hx]]. exists x. auto.
      * destruct b as [s|]; [|discriminate]. injection Hc as <-.
        specialize (HsR s eq_refl). apply in_map_iff in HsR.
        destruct HsR as [x [<- Hx]]. exists x. auto.
    + intros HL HR e He. apply in_map_iff in He. destruct He as [[[k a] b] [<- He]].
      rewrite <- EL in HL. rewrite <- ER in HR.
      destruct (outer_join_unique L R _ HL HR He) as [Ha [Hb Hor]]. cbn [fst snd] in *.
      subst a b. unfold L, R. rewrite !find_map.
      assert (Eo : forall o : option row, option_map vals (option_map whole o) = option_map cells o)
        by (intros [x|]; reflexivity).
      rewrite !Eo. repeat split.
      unfold L, R in Hor. rewrite !find_map in Hor.
      destruct Hor as [Hor|Hor]; [left | right];
        match type of Hor with
        | option_map _ (find ?p ?rs) <> None =>
            destruct (find p rs) as [x|] eqn:F; [|simpl in Hor; congruence];
            apply find_some in F; destruct F as [Hx Hkx]; simpl in Hkx;
            apply key_eqb_eq in Hkx; rewrite <- Hkx; simpl; apply in_map; assumption
        end.
Qed.

Lemma Forall2_In_l {A B : Type} (P : A -> B -> Prop) (l : list A) (l' : list B) (a : A) :
  Forall2 P l l' -> In a l -> exists b, In b l' /\ P a b.
Proof.
  induction 1 as [|x y l l' Hxy _ IH]; intros Hin; [contradiction|].
  destruct Hin as [->|Hin]; [exists y; split; [left; reflexivity | assumption]|].
  destruct (IH Hin) as [b [Hb Hp]]. exists b. split; [right; assumption | assumption].
Qed.

(** A frame that holds one number per row. *)
Lemma stratum_cells (f : frame) (k : list scalar) :
  (forall x, In x (rows f) -> exists v, cells x = [Num v]) ->
  match option_map cells (find (fun x => key_eqb (ix x) k) (rows f)) with
  | Some c => c
  | None => nans [VALUE_COLUMN]
  end = [Num (stratum_value f k)].
Proof.
  intros H. unfold stratum_value.
  destruct (find _ (rows f)) as [x|] eqn:F; [|reflexivity].
  apply find_some in F. destruct (H x (proj1 F)) as [v Hv]. simpl. rewrite Hv. reflexivity.
Qed.

(** The rows of [l op r] for two frames on the same index levels that
    hold one number per row and no label twice: one row per label of
    either frame, with the operation applied to what the two frames hold
    under that label. *)
Lemma frame_op_strata (op : num -> num -> num) (l r d : frame) :
  index l = index r -> columns l = [VALUE_COLUMN] ->
  (forall x, In x (rows l) -> exists v, cells x = [Num v]) ->
  (forall x, In x (rows r) -> exists v, cells x = [Num v]) ->
  NoDup (map ix (rows l)) -> NoDup (map ix (rows r)) ->
  frame_op op l r = Ok d ->
  index d = index l /\ columns d = [VALUE_COLUMN] /\
  (forall y, In y (rows d) ->
     (In (ix y) (map ix (rows l)) \/ In (ix y) (map ix (rows r))) /\
     cells y = [Num (op (stratum_value l (ix y)) (stratum_value r (ix y)))]) /\
  (forall k, In k (map ix (rows l)) \/ In k (map ix (rows r)) ->
     exists y, In y (rows d) /\ ix y = k).
Proof.
  intros E Hc Hl Hr HL HR H. unfold frame_op in H.
  destruct (align_same_index_returns l r E) as [es Hes]. rewrite Hes in H.
  cbn [bind fst snd] in H. apply bind_ok in H. destruct H as [rs [Hrs H]].
  injection H as <-. cbn [index columns rows].
  destruct (align_same_index l r es E Hes) as [Hcov [_ Huniq]].
  specialize (Huniq HL HR).
  apply mapM_Forall2 in Hrs.
  assert (Hrow : forall e y, In e es ->
             (let '(k, x, y0) := e in
              let xs := match x with Some c => c | None => nans (columns l) end in
              let ys := match y0 with Some c => c | None => nans (columns l) end in
              cs <- mapM (cell_op op) (combine xs ys) ;; Ok (mkrow k cs)) = Ok y ->
             ix y = fst (fst e) /\
             cells y = [Num (op (stratum_value l (ix y)) (stratum_value r (ix y)))]).
  { intros [[k a] b] y He Hy. destruct (Huniq _ He) as [Ha [Hb _]]. cbn [fst snd] in *.
    subst a b. rewrite Hc in Hy. rewrite (stratum_cells l k Hl), (stratum_cells r k Hr) in Hy.
    simpl in Hy. injection Hy as <-. auto. }
  split; [reflexivity|]. split; [exact Hc|]. split.
  - intros y Hy. destruct (Forall2_In_r _ _ _ _ Hrs Hy) as [e [He Hey]].
    destruct (Hrow e y He Hey) as [Hk Hcells]. split; [|exact Hcells].
    rewrite Hk. apply (Huniq _ He).
  - intros k Hk. destruct (Hcov k Hk) as [e [He Hke]].
    destruct (Forall2_In_l _ _ _ _ Hrs He) as [y [Hy Hey]].
    exists y. split; [exact Hy|]. rewrite <- Hke. apply (Hrow e y He Hey).
Qed.

Lemma frame_op_strata_returns (op : num -> num -> num) (l r : frame) :
  index l = index r -> columns l = [VALUE_COLUMN] ->
  (forall x, In x (rows l) -> exists v, cells x = [Num v]) ->
  (forall x, In x (rows r) -> exists v, cells x = [Num v]) ->
  exists d, frame_op op l r = Ok d.
Proof.
  intros E Hc Hl Hr. unfold frame_op.
  destruct (align_same_index_returns l r E) as [es Hes]. rewrite Hes.
  cbn [bind fst snd].
  destruct (align_same_index l r es E Hes) as [_ [Hsides _]].
  match goal with
  | |- context [mapM ?F es] => destruct (mapM_total F es) as [rs Hrs]
  end.
  - intros [[k a] b] He. destruct (Hsides _ He) as [Ha Hb]. cbn [fst snd] in *.
    assert (Xa : exists v, match a with Some c => c | None => nans (columns l) end = [Num v]).
    { destruct a as [c|]; [|rewrite Hc; simpl; eauto].
      destruct (Ha c eq_refl) as [x [Hx <-]]. auto. }
    assert (Xb : exists v, match b with Some c => c | None => nans (columns l) end = [Num v]).
    { destruct b as [c|]; [|rewrite Hc; simpl; eauto].
      destruct (Hb c eq_refl) as [x [Hx <-]]. auto. }
    destruct Xa as [va ->], Xb as [vb ->]. simpl. eauto.
  - rewrite Hrs. simpl. eauto.
Qed.

(** ** [ratio]: the quotient of the stratified operands *)

Lemma stratify_strata (g : globals) (t s : frame) (S : list name) :
  stratify g t (PList S) (Scalar VALUE_COLUMN) false = Ok s ->
  index s = S ++ INDEX_COLUMNS g /\ columns s = [VALUE_COLUMN] /\
  NoDup (map ix (rows s)) /\
  (forall x, In x (rows s) -> List.length (ix x) = List.length (S ++ INDEX_COLUMNS g)) /\
  (forall x, In x (rows s) -> exists v, cells x = [Num v]).
Proof.
  intros H. unfold stratify in H.
  change (_ensure_iterable (Scalar VALUE_COLUMN) t PyNone) with [VALUE_COLUMN] in H.
  change (_ensure_iterable (PList S) t PyNone) with S in H.
  apply bind_ok in H. destruct H as [s' [Hg H]]. injection H as ->.
  apply groupby_sum_shape in Hg. destruct Hg as [Hi [Hc [Hk Hcells]]].
  repeat split; auto.
  - rewrite Hk. apply sort_keys_NoDup.
  - intros x Hx. apply (group_keys_length t). rewrite <- Hk. apply in_map, Hx.
  - intros x Hx. pose proof (Hcells x Hx) as F.
    inversion F as [|c v cs vs Hv F' E1 E2]; subst.
    inversion F'; subst. destruct v as [|v]; [discriminate|]. eauto.
Qed.

(** X11.  [ratio] without broadcast columns divides stratum by stratum:
    a row of the result carries the labels of a stratum of the stratified
    numerator or denominator, and its value is what the numerator holds
    for that stratum, divided by what the denominator holds, times the
    multiplier -- with NaN standing in where one side lacks the stratum.
    With [dropna] no value is NaN; and every stratum whose quotient is
    not NaN has its row. *)
Theorem ratio_is_quotient_of_strata
  (g : globals) (n d n' d' ns ds res : frame) (strata : pyarg) (m : num)
  (measure_col : name) (drop : bool) (record_inputs : option bool) (reset : bool) :
  _ensure_columns_not_levels n None = Ok n' ->
  _ensure_columns_not_levels d None = Ok d' ->
  stratify g n' (PList (_ensure_iterable strata d' PyNone)) (Scalar VALUE_COLUMN) false
  = Ok ns ->
  stratify g d' (PList (_ensure_iterable strata d' PyNone)) (Scalar VALUE_COLUMN) false
  = Ok ds ->
  ratio g n d strata m PyNone PyNone (Scalar VALUE_COLUMN) measure_col
        drop record_inputs reset = Ok res ->
  (forall r, In r (rows res) ->
     (In (ratio_key reset (List.length (index ds)) r) (map ix (rows ns)) \/
      In (ratio_key reset (List.length (index ds)) r) (map ix (rows ds))) /\
     cell res r VALUE_COLUMN
     = Num (fmul (fdiv (stratum_value ns (ratio_key reset (List.length (index ds)) r))
                       (stratum_value ds (ratio_key reset (List.length (index ds)) r))) m) /\
     (drop = true -> cell res r VALUE_COLUMN <> Num NaN)) /\
  (forall k, In k (map ix (rows ns)) \/ In k (map ix (rows ds)) ->
     fmul (fdiv (stratum_value ns k) (stratum_value ds k)) m <> NaN ->
     exists r, In r (rows res) /\ ratio_key reset (List.length (index ds)) r = k).
Proof.
  intros Hn Hd Hns Hds H.
  unfold ratio in H. rewrite Hn, Hd in H. cbn [bind] in H.
  change (_ensure_iterable PyNone n' (PList [])) with (@nil name) in H.
  change (_ensure_iterable PyNone d' (PList [])) with (@nil name) in H.
  cbn [intersects existsb] in H.
  apply bind_ok in H. destruct H as [a [_ H]].
  rewrite !app_nil_r in H. rewrite Hns, Hds in H. cbn [bind] in H.
  set (K := _ensure_iterable strata d' PyNone ++ INDEX_COLUMNS g) in *.
  destruct (stratify_strata g n' ns _ Hns) as [Hin [Hcn [Hndn [Hlenn Honen]]]].
  destruct (stratify_strata g d' ds _ Hds) as [Hid [Hcd [Hndd [Hlend Honed]]]].
  fold K in Hin, Hid, Hlenn, Hlend. rewrite Hid.
  apply bind_ok in H. destruct H as [q [Hq H]].
  destruct (frame_op_strata fdiv ns ds q) as [Hiq [Hcq [Hrows Hcov]]]; auto;
    [congruence|].
  assert (Hnumq : numeric_rows q).
  { intros y c Hy Hc. destruct (Hrows y Hy) as [_ E]. rewrite E in Hc.
    destruct Hc as [<-|[]]. reflexivity. }
  rewrite (frame_scale_numeric q m Hnumq) in H. cbn [bind] in H. cbv zeta in H.
  set (F := fun y : row => mkrow (ix y) (map (scale m) (cells y))) in H.
  set (D := map F (rows q)) in H.
  set (Dd := if drop then filter (fun r => negb (existsb is_nan (cells r))) D else D).
  match type of H with
  | (if reset then reset_index ?R else Ok ?R) = _ => set (R2 := R) in H
  end.
  assert (HD : forall r, In r D ->
             exists y, In y (rows q) /\ ix r = ix y /\
               cells r = [Num (fmul (fdiv (stratum_value ns (ix y)) (stratum_value ds (ix y))) m)]).
  { intros r Hr. apply in_map_iff in Hr. destruct Hr as [y [<- Hy]].
    exists y. split; [exact Hy|]. split; [reflexivity|].
    destruct (Hrows y Hy) as [_ E]. simpl. rewrite E. reflexivity. }
  assert (HDd : forall r, In r Dd -> In r D /\ (drop = true -> existsb is_nan (cells r) = false)).
  { intros r Hr. unfold Dd in Hr. destruct drop.
    - apply filter_In in Hr. destruct Hr as [Hr Hn0]. apply negb_true_iff in Hn0. auto.
    - split; [exact Hr | discriminate]. }
  assert (HDone : forall r, In r Dd -> exists v, cells r = [v]).
  { intros r Hr. destruct (HD r (proj1 (HDd r Hr))) as [y [_ [_ E]]]. eauto. }
  assert (HR1 : tracks Dd (if drop then dropna (mkframe (index q) (columns q) D)
                           else mkframe (index q) (columns q) D)).
  { rewrite Hcq. unfold Dd, dropna. destruct drop; cbn [index columns rows].
    - apply (dropna_tracks (index q) _ false). exact HDone.
    - apply (dropna_tracks (index q) _ false). exact HDone. }
  assert (HR2 : tracks Dd R2).
  { unfold R2. destruct a as [[nm dm]|]; [|exact HR1].
    repeat apply assign_tracks; try exact HR1; discriminate. }
  assert (HiR2 : List.length (index R2) = List.length K).
  { unfold R2. destruct a as [[nm dm]|]; rewrite ?assign_index;
      destruct drop; cbn [index dropna]; rewrite Hiq, Hin; reflexivity. }
  assert (HDlen : forall r, In r Dd -> List.length (ix r) = List.length K).
  { intros r Hr. destruct (HD r (proj1 (HDd r Hr))) as [y [Hy [E _]]]. rewrite E.
    destruct (Hrows y Hy) as [[Hk|Hk] _]; apply in_map_iff in Hk;
      destruct Hk as [x [<- Hx]]; auto. }
  destruct (tracks_result Dd R2 res reset _ HR2 HiR2 HDlen H) as [HA HB].
  split.
  - intros r Hr. destruct (HA r Hr) as [r0 [Hr0 [Hk Hv]]].
    destruct (HD r0 (proj1 (HDd r0 Hr0))) as [y [Hy [E Hc]]].
    rewrite Hk, E. split; [apply (Hrows y Hy)|].
    rewrite Hv, Hc. split; [reflexivity|].
    intros Hdrop. pose proof (proj2 (HDd r0 Hr0) Hdrop) as Hn0.
    rewrite Hc in Hn0. simpl in Hn0. intros X. injection X as X.
    rewrite X in Hn0. discriminate.
  - intros k Hk Hnan. destruct (Hcov k Hk) as [y [Hy <-]].
    assert (Hc : cells (F y)
                 = [Num (fmul (fdiv (stratum_value ns (ix y)) (stratum_value ds (ix y))) m)]).
    { destruct (Hrows y Hy) as [_ E]. unfold F. simpl. rewrite E. reflexivity. }
    assert (Hn0 : existsb is_nan (cells (F y)) = false).
    { rewrite Hc. simpl.
      destruct (fmul (fdiv (stratum_value ns (ix y)) (stratum_value ds (ix y))) m);
        try reflexivity. congruence. }
    destruct (HB (F y)) as [r [Hr Hkr]]; [|exact Hn0|eauto].
    unfold Dd. destruct drop; [apply filter_In; split|]; try (apply in_map; assumption).
    rewrite Hn0. reflexivity.
Qed.

Lemma ratio_is_quotient_of_strata_witness :
  exists ns ds res,
    stratify initial_globals people (PList [NStr "sex"]) (Scalar VALUE_COLUMN) false = Ok ns /\
    stratify initial_globals person_time (PList [NStr "sex"]) (Scalar VALUE_COLUMN) false
    = Ok ds /\
    ratio initial_globals people person_time (Scalar (NStr "sex")) (Fin 1) PyNone PyNone
          (Scalar VALUE_COLUMN) MEASURE_COLUMN true None true = Ok res /\
    rows res <> [] /\
    forall r, In r (rows res) ->
      cell res r VALUE_COLUMN
      = Num (fmul (fdiv (stratum_value ns (ratio_key true 3 r))
                        (stratum_value ds (ratio_key true 3 r))) (Fin 1)) /\
      cell res r VALUE_COLUMN <> Num NaN.
Proof.
  assert (Hns : exists ns,
             stratify initial_globals people (PList [NStr "sex"]) (Scalar VALUE_COLUMN) false
             = Ok ns) by (eexists; vm_compute; reflexivity).
  assert (Hds : exists ds,
             stratify initial_globals person_time (PList [NStr "sex"]) (Scalar VALUE_COLUMN) false
             = Ok ds /\ List.length (index ds) = 3%nat)
    by (eexists; split; vm_compute; reflexivity).
  assert (H : exists res,
             ratio initial_globals people person_time (Scalar (NStr "sex")) (Fin 1) PyNone PyNone
                   (Scalar VALUE_COLUMN) MEASURE_COLUMN true None true = Ok res /\
             rows res <> [])
    by (eexists; split; [vm_compute; reflexivity | discriminate]).
  destruct Hns as [ns Hns], Hds as [ds [Hds Hlen]], H as [res [H Hne]].
  exists ns, ds, res.
  split; [exact Hns|]. split; [exact Hds|]. split; [exact H|]. split; [exact Hne|].
  intros r Hr.
  destruct (proj1 (ratio_is_quotient_of_strata initial_globals people person_time
                     people person_time ns ds res (Scalar (NStr "sex")) (Fin 1)
                     MEASURE_COLUMN true None true eq_refl eq_refl Hns Hds H) r Hr)
    as [_ [X1 X2]].
  rewrite Hlen in X1. split; [exact X1 | exact (X2 eq_refl)].
Defined.

(** ** When [ratio] returns *)

(** X12.  [ratio] returns for two flat tables that both have the strata
    and the global index columns, numbers in the value column and strings
    in the measure column, whatever the multiplier and the settings of
    [dropna], [record_inputs] and [reset_index]: a stratum that only one
    table has, or a zero denominator, is no error. *)
Theorem ratio_returns
  (g : globals) (n d : frame) (strata : pyarg) (m : num) (measure_col : name)
  (drop : bool) (record_inputs : option bool) (reset : bool) :
  divisible g n strata measure_col ->
  divisible g d strata measure_col ->
  exists res,
    ratio g n d strata m PyNone PyNone (Scalar VALUE_COLUMN) measure_col
          drop record_inputs reset = Ok res.
Proof.
  intros [Hin [Hne [Hnd [Hnone [HKn [Hvaln [HvalK [Hnumn [Hmcn [Hstrn Hrec]]]]]]]]]]
         [Hid [_ [_ [_ [HKd [Hvald [_ [Hnumd [Hmcd [Hstrd _]]]]]]]]]].
  change (_ensure_iterable strata n PyNone) with (_ensure_iterable strata d PyNone) in *.
  set (K := _ensure_iterable strata d PyNone ++ INDEX_COLUMNS g) in *.
  unfold ratio.
  assert (En : _ensure_columns_not_levels n None = Ok n)
    by (unfold _ensure_columns_not_levels, index_name; rewrite Hin; reflexivity).
  assert (Ed : _ensure_columns_not_levels d None = Ok d)
    by (unfold _ensure_columns_not_levels, index_name; rewrite Hid; reflexivity).
  rewrite En, Ed. cbn [bind].
  change (_ensure_iterable PyNone n (PList [])) with (@nil name).
  change (_ensure_iterable PyNone d (PList [])) with (@nil name).
  cbn [intersects existsb]. rewrite !app_nil_r.
  destruct (measure_label_strings n measure_col Hmcn Hstrn) as [ln Hln].
  destruct (measure_label_strings d measure_col Hmcd Hstrd) as [ld Hld].
  assert (Hmeasures : exists a,
             (if match record_inputs with Some b => b | None => reset end
              then nm <- measure_label n measure_col ;;
                   dm <- measure_label d measure_col ;; Ok (Some (nm, dm))
              else Ok None) = Ok a).
  { destruct (match record_inputs with Some b => b | None => reset end); [|eauto].
    rewrite Hln, Hld. simpl. eauto. }
  destruct Hmeasures as [a Ha]. rewrite Ha. cbn [bind].
  assert (Hstrat : forall t,
             (forall c, In c K -> In c (columns t)) -> In VALUE_COLUMN (columns t) ->
             (forall r, In r (rows t) -> is_num (cell t r VALUE_COLUMN) = true) ->
             exists s, stratify g t (PList (_ensure_iterable strata d PyNone))
                                (Scalar VALUE_COLUMN) false = Ok s).
  { intros t HK Hval Hnum. unfold stratify.
    change (_ensure_iterable (Scalar VALUE_COLUMN) t PyNone) with [VALUE_COLUMN].
    change (_ensure_iterable (PList (_ensure_iterable strata d PyNone)) t PyNone)
      with (_ensure_iterable strata d PyNone).
    fold K.
    assert (Hv1 : forall c, In c [VALUE_COLUMN] -> In c (columns t))
      by (intros c [<-|[]]; assumption).
    assert (Hn1 : forall r c, In r (rows t) -> In c [VALUE_COLUMN] ->
                              is_num (cell t r c) = true)
      by (intros r c Hr [<-|[]]; auto).
    destruct (groupby_sum_returns t K [VALUE_COLUMN] Hne (fun c Hc => or_introl (HK c Hc))
                                  Hv1 Hn1) as [s Hs].
    rewrite Hs. simpl. eauto. }
  destruct (Hstrat n HKn Hvaln Hnumn) as [ns Hns].
  destruct (Hstrat d HKd Hvald Hnumd) as [ds Hds].
  rewrite Hns, Hds. cbn [bind].
  destruct (stratify_strata g n ns _ Hns) as [Hins [Hcn [Hndn [_ Honen]]]].
  destruct (stratify_strata g d ds _ Hds) as [Hids [Hcd [Hndd [_ Honed]]]].
  fold K in Hins, Hids.
  destruct (frame_op_strata_returns fdiv ns ds) as [q Hq]; auto; [congruence|].
  rewrite Hq. cbn [bind].
  destruct (frame_op_strata fdiv ns ds q) as [Hiq [Hcq [Hrows _]]]; auto; [congruence|].
  assert (Hnumq : numeric_rows q).
  { intros y c Hy Hc. destruct (Hrows y Hy) as [_ E]. rewrite E in Hc.
    destruct Hc as [<-|[]]. reflexivity. }
  rewrite (frame_scale_numeric q m Hnumq). cbn [bind]. cbv zeta.
  destruct reset; [|eauto].
  match goal with
  | |- exists res, reset_index ?R = Ok res =>
      assert (HiR : index R = K);
        [|assert (HcR : forall c, In c (columns R) ->
                                  c = VALUE_COLUMN \/ In c (recorded_columns measure_col))]
  end.
  { destruct a as [[nm dm]|]; rewrite ?assign_index; destruct drop; cbn [index dropna];
      rewrite Hiq, Hins; reflexivity. }
  { intros c Hc. destruct a as [[nm dm]|].
    - apply assign_columns in Hc. destruct Hc as [Hc| ->]; [|right; simpl; auto].
      apply assign_columns in Hc. destruct Hc as [Hc| ->]; [|right; simpl; auto].
      apply assign_columns in Hc. destruct Hc as [Hc| ->]; [|right; simpl; auto].
      destruct drop; cbn [columns dropna] in Hc; rewrite Hcq in Hc;
        destruct Hc as [<-|[]]; auto.
    - destruct drop; cbn [columns dropna] in Hc; rewrite Hcq in Hc;
        destruct Hc as [<-|[]]; auto. }
  unfold reset_index. rewrite level_labels_named by (rewrite HiR; assumption).
  rewrite HiR. rewrite insert_levels_intro; [simpl; eauto | assumption |].
  intros c Hc Hin'. destruct (HcR c Hin') as [->|Hr]; [contradiction|].
  exact (Hrec c Hc Hr).
Qed.

Lemma person_time_divisible :
  divisible initial_globals person_time (Scalar (NStr "sex")) MEASURE_COLUMN.
Proof.
  unfold divisible.
  let K := eval vm_compute in
             (_ensure_iterable (Scalar (NStr "sex")) person_time PyNone
                ++ INDEX_COLUMNS initial_globals) in
  change (_ensure_iterable (Scalar (NStr "sex")) person_time PyNone
            ++ INDEX_COLUMNS initial_globals) with K.
  cbv zeta. repeat split.
  - discriminate.
  - repeat (constructor; [simpl; intros H; in_cases H|]). constructor.
  - simpl. intros H. in_cases H.
  - intros c Hc. simpl in Hc. in_cases Hc; simpl; tauto.
  - simpl. tauto.
  - simpl. intros H. in_cases H.
  - intros r Hr. simpl in Hr. in_cases Hr; reflexivity.
  - simpl. tauto.
  - intros r Hr. simpl in Hr. in_cases Hr; eexists; reflexivity.
  - intros c Hc Hin. simpl in Hc. in_cases Hc; simpl in Hin; in_cases Hin.
Qed.

Lemma ratio_returns_witness :
  exists res,
    ratio initial_globals people person_time (Scalar (NStr "sex")) (Fin (qz 1000)) PyNone PyNone
          (Scalar VALUE_COLUMN) MEASURE_COLUMN false None true = Ok res.
Proof.
  apply ratio_returns; [exact people_divisible | exact person_time_divisible].
Defined.

(** ** [ratio]: the recorded inputs *)






Lemma frame_op_columns (op : num -> num -> num) (l r d : frame) :
  frame_op op l r = Ok d -> columns d = columns l.
Proof.
  unfold frame_op. intros H. apply bind_ok in H. destruct H as [a [_ H]].
  apply bind_ok in H. destruct H as [rs [_ H]]. injection H as <-. reflexivity.
Qed.

Lemma frame_scale_shape (f d : frame) (m : num) :
  frame_scale f m = Ok d -> index d = index f /\ columns d = columns f.
Proof.
  unfold frame_scale. intros H. apply bind_ok in H. destruct H as [rs [_ H]].
  injection H as <-. auto.
Qed.

(** X14.  With [record_inputs=False] and [reset_index=False] the value
    column is the only column of what [ratio] returns, whatever the
    strata and the broadcast columns. *)
Theorem ratio_unrecorded_columns
  (g : globals) (n d res : frame) (strata : pyarg) (m : num)
  (numerator_broadcast denominator_broadcast value_col : pyarg) (measure_col : name)
  (drop : bool) :
  ratio g n d strata m numerator_broadcast denominator_broadcast value_col measure_col
        drop (Some false) false = Ok res ->
  columns res = _ensure_iterable value_col n PyNone.
Proof.
  intros H. unfold ratio in H.
  apply bind_ok in H. destruct H as [n' [_ H]].
  apply bind_ok in H. destruct H as [d' [_ H]].
  destruct (intersects _ _); [discriminate|].
  cbn [bind] in H.
  apply bind_ok in H. destruct H as [ns [Hns H]].
  apply bind_ok in H. destruct H as [ds [_ H]].
  apply bind_ok in H. destruct H as [q [Hq H]].
  apply bind_ok in H. destruct H as [sc [Hsc H]].
  injection H as <-.
  assert (Hc : columns sc = _ensure_iterable value_col n PyNone).
  { apply frame_scale_shape in Hsc. apply frame_op_columns in Hq.
    rewrite (proj2 Hsc), Hq.
    unfold stratify in Hns. apply bind_ok in Hns. destruct Hns as [s [Hg E]].
    injection E as <-. apply groupby_sum_shape in Hg. apply Hg. }
  destruct drop; exact Hc.
Qed.

Lemma ratio_unrecorded_columns_witness :
  exists res,
    ratio initial_globals people person_time (Scalar (NStr "sex")) (Fin 1) PyNone PyNone
          (Scalar VALUE_COLUMN) MEASURE_COLUMN false (Some false) false = Ok res /\
    columns res = [VALUE_COLUMN].
Proof.
  assert (H : exists res,
             ratio initial_globals people person_time (Scalar (NStr "sex")) (Fin 1)
                   PyNone PyNone (Scalar VALUE_COLUMN) MEASURE_COLUMN false (Some false) false
             = Ok res)
    by (eexists; vm_compute; reflexivity).
  destruct H as [res H].
  exists res. split; [exact H|].
  exact (ratio_unrecorded_columns _ _ _ _ _ _ _ _ _ _ _ H).
Defined.

(** ** Joins where only one side has distinct labels *)

Lemma outer_join_left_unique (L R : list side)
  (e : list scalar * option side * option side) :
  NoDup (map jkey L) ->
  In e (outer_join L R) ->
  snd (fst e) = find (with_key (fst (fst e))) L /\
  match snd e with
  | Some r => In r R /\ jkey r = fst (fst e)
  | None => find (with_key (fst (fst e))) R = None /\ snd (fst e) <> None
  end.
Proof.
  intros HL.
  assert (FL : forall l, In l L -> find (with_key (jkey l)) L = Some l)
    by (intros; apply (find_unique jkey); assumption).
  unfold outer_join.
  destruct L as [|l0 L'].
  { destruct R as [|r0 R']; [intros []|].
    intros Hin. apply in_map_iff in Hin. destruct Hin as [r [<- Hr]]. cbn [fst snd]. auto. }
  destruct R as [|r0 R'].
  { intros Hin. apply in_map_iff in Hin. destruct Hin as [l [<- Hl]]. cbn [fst snd].
    rewrite (FL l Hl). repeat split. discriminate. }
  set (L := l0 :: L') in *. set (R := r0 :: R') in *.
  destruct (_ && keys_eqb _ _) eqn:Ezip.
  - intros Hin. apply in_map_iff in Hin. destruct Hin as [[l r] [<- Hp]].
    apply andb_true_iff in Ezip. destruct Ezip as [_ Ek]. apply keys_eqb_eq in Ek.
    pose proof (combine_same_keys L R l r Ek Hp) as Hlr. cbn [fst snd].
    rewrite (FL l (in_combine_l _ _ _ _ Hp)). repeat split; [|auto].
    eapply in_combine_r; eauto.
  - intros Hin. apply in_flat_map in Hin. destruct Hin as [k [_ Hin]].
    destruct (filter (with_key k) L) as [|l ls] eqn:EL.
    + apply in_map_iff in Hin. destruct Hin as [r [<- Hr]].
      apply filter_In in Hr. destruct Hr as [HrR Hk]. apply key_eqb_eq in Hk.
      cbn [fst snd]. rewrite (filter_nil_find _ _ EL). auto.
    + assert (Hl : forall l', In l' (l :: ls) -> In l' L /\ jkey l' = k).
      { intros l' Hl'. rewrite <- EL in Hl'. apply filter_In in Hl'.
        destruct Hl' as [H1 H2]. apply key_eqb_eq in H2. auto. }
      clear EL.
      destruct (filter (with_key k) R) as [|r rs] eqn:ER.
      * apply in_map_iff in Hin. destruct Hin as [l' [<- Hl']].
        destruct (Hl l' Hl') as [HlL Hk]. cbn [fst snd].
        rewrite (filter_nil_find _ _ ER). rewrite <- Hk, (FL l' HlL).
        repeat split. discriminate.
      * apply in_flat_map in Hin. destruct Hin as [l' [Hl' Hin]].
        apply in_map_iff in Hin. destruct Hin as [r' [<- Hr']].
        destruct (Hl l' Hl') as [HlL Hkl].
        rewrite <- ER in Hr'. apply filter_In in Hr'. destruct Hr' as [HrR Hkr].
        apply key_eqb_eq in Hkr. cbn [fst snd].
        rewrite <- Hkl at 1. rewrite (FL l' HlL). auto.
Qed.

(** Every row of the right operand is in the outer join. *)
Lemma outer_join_covers_right (L R : list side) (r : side) :
  In r R -> exists e, In e (outer_join L R) /\ fst (fst e) = jkey r /\ snd e = Some r.
Proof.
  intros Hr. unfold outer_join.
  destruct L as [|l0 L'].
  { destruct R as [|r0 R']; [contradiction|].
    exists (jkey r, None, Some r). repeat split. apply in_map_iff. exists r. auto. }
  destruct R as [|r0 R']; [contradiction|].
  set (L := l0 :: L') in *. set (R := r0 :: R') in *.
  destruct (_ && keys_eqb _ _) eqn:Ezip.
  - apply andb_true_iff in Ezip. destruct Ezip as [_ Ek]. apply keys_eqb_eq in Ek.
    assert (Hlen : List.length L = List.length R).
    { rewrite <- (length_map jkey L), Ek, length_map. reflexivity. }
    destruct (in_combine_exists_r L R r Hlen Hr) as [l Hp].
    exists (jkey l, Some l, Some r). split; [|split; [|reflexivity]].
    + apply in_map_iff. exists (l, r). auto.
    + apply (combine_same_keys L R l r Ek Hp).
  - set (k := jkey r).
    assert (Hk : In k (sort_keys (map jkey L ++ map jkey R))).
    { apply sort_keys_In, in_or_app. right. apply in_map, Hr. }
    assert (HrF : In r (filter (with_key k) R)).
    { apply filter_In. split; [exact Hr | apply key_eqb_refl]. }
    assert (Hone : exists e,
               In e (match filter (with_key k) L, filter (with_key k) R with
                     | [], rs => map (fun r => (k, @None side, Some r)) rs
                     | ls, [] => map (fun l => (k, Some l, @None side)) ls
                     | ls, rs => flat_map (fun l => map (fun r => (k, Some l, Some r)) rs) ls
                     end) /\ fst (fst e) = k /\ snd e = Some r).
    { destruct (filter (with_key k) L) as [|l ls].
      - exists (k, None, Some r). repeat split. apply in_map_iff. exists r. auto.
      - destruct (filter (with_key k) R) as [|r1 rs] eqn:ER; [contradiction|].
        exists (k, Some l, Some r). repeat split.
        apply in_flat_map. exists l. split; [left; reflexivity|].
        apply in_map_iff. exists r. auto. }
    destruct Hone as [e [He Hke]]. exists e. split; [|exact Hke].
    apply in_flat_map. exists k. split; assumption.
Qed.

(** The alignment of the two operands of [difference] when the minuend
    rows are told apart by their match labels and the subtrahend rows
    may repeat them: every subtrahend row gets its own row. *)
Lemma align_broadcast (m : frame) (col : name) (RA RB : list row)
  (names : list name)
  (es : list (list scalar * option (list scalar) * option (list scalar))) :
  difference_index m col <> [] ->
  ~ In col (difference_index m col) ->
  NoDup (map (match_key m col) RA) ->
  align (left_operand m col RA) (right_operand m col RB) = Ok (names, es) ->
  names = difference_index m col ++ [col] /\
  (forall e, In e es -> broadcast_entry m col RA RB e) /\
  (forall rb, In rb RB ->
     exists e, In e es /\
       fst (fst e) = match_key m col rb ++ [cell m rb col] /\
       snd e = Some [cell m rb VALUE_COLUMN]).
Proof.
  intros Hne Hcol HA.
  set (K := difference_index m col) in *.
  set (rowL := fun r => mkrow (match_key m col r) [cell m r VALUE_COLUMN]).
  set (rowR := fun r => mkrow (match_key m col r ++ [cell m r col]) [cell m r VALUE_COLUMN]).
  set (LO := mkframe K [VALUE_COLUMN] (map rowL RA)).
  set (RO := mkframe (K ++ [col]) [VALUE_COLUMN] (map rowR RB)).
  change (left_operand m col RA) with LO. change (right_operand m col RB) with RO.
  unfold align.
  change (index LO) with K. change (index RO) with (K ++ [col]).
  change (rows LO) with (map rowL RA). change (rows RO) with (map rowR RB).
  assert (E1 : Nat.eqb (List.length K) (List.length (K ++ [col])) = false).
  { apply Nat.eqb_neq. rewrite length_app. simpl. lia. }
  assert (E2 : names_eqb K (K ++ [col]) = false).
  { unfold names_eqb. destruct (list_eq_dec name_eq_dec K (K ++ [col])) as [E|]; [|reflexivity].
    apply (f_equal (@List.length name)) in E. rewrite length_app in E. simpl in E. lia. }
  rewrite E1, E2, (single_app_false K col Hne), andb_false_r, common_app_self.
  cbn [andb orb].
  assert (HlevL : forall r, map (level LO (rowL r)) K = match_key m col r).
  { intros r. unfold level, LO, rowL. cbn [index ix]. apply match_key_lookup. }
  assert (HlevR : forall r, map (level RO (rowR r)) K = match_key m col r).
  { intros r. unfold level, RO, rowR. cbn [index ix].
    etransitivity; [|apply (match_key_lookup m col r)].
    apply map_ext_in. intros c Hc. apply getv_app_l; [|assumption].
    symmetry. apply match_key_length. }
  assert (HlevC : forall r, level RO (rowR r) col = cell m r col).
  { intros r. unfold level, RO, rowR. cbn [index ix].
    rewrite getv_app_r by (auto; symmetry; apply match_key_length).
    simpl. rewrite name_eqb_refl. reflexivity. }
  set (SL := fun r => mkside (match_key m col r) [] [cell m r VALUE_COLUMN]).
  assert (HfindL : forall k, find (with_key k) (map SL RA) = option_map SL (find_row m col RA k)).
  { intros k. apply find_map. }
  assert (HndL : NoDup (map jkey (map SL RA))) by (rewrite map_map; exact HA).
  assert (Hleft : forall k,
             option_map vals (option_map SL (find_row m col RA k))
             = option_map (fun r => [cell m r VALUE_COLUMN]) (find_row m col RA k)).
  { intros k. destruct (find_row m col RA k); reflexivity. }
  assert (EK : exists k0 K', K = k0 :: K') by (destruct K; [congruence | eauto]).
  destruct EK as [k0 [K' EK]].
  rewrite EK at 1. cbv beta iota. rewrite <- EK.
  destruct (single K) eqn:Es.
  - (* one level against several: the rows of the right operand *)
    set (SM := fun r => mkside (match_key m col r) (match_key m col r ++ [cell m r col])
                               [cell m r VALUE_COLUMN]).
    assert (EF : map (side_of LO K []) (map rowL RA) = map SL RA).
    { rewrite map_map. apply map_ext. intros r. unfold side_of, SL.
      rewrite HlevL. reflexivity. }
    assert (EM : map (fun x => mkside (map (level RO x) K) (ix x) (cells x)) (map rowR RB)
                 = map SM RB).
    { rewrite map_map. apply map_ext. intros r. unfold SM. rewrite HlevR. reflexivity. }
    rewrite EF, EM. unfold join_level.
    destruct (nodupb (map jkey (map SL RA))); [|discriminate].
    cbn [bind]. intros H. injection H as <- <-.
    split; [reflexivity|]. rewrite !map_map. cbn [fst snd]. split.
    + intros e He. apply in_map_iff in He. destruct He as [rb [<- Hrb]].
      exists (match_key m col rb), (cell m rb col). cbn [fst snd SM jkey extra vals].
      split; [reflexivity|]. split.
      * rewrite HfindL. apply Hleft.
      * left. exists rb. auto.
    + intros rb Hrb.
      exists (extra (SM rb), option_map vals (find (with_key (jkey (SM rb))) (map SL RA)),
              Some (vals (SM rb))).
      split; [|split; reflexivity].
      apply in_map_iff. exists rb. auto.
  - (* several levels on both sides: the outer join *)
    rewrite minus_app_self_l, (minus_app_self_r K col Hcol).
    set (SR := fun r => mkside (match_key m col r) [cell m r col] [cell m r VALUE_COLUMN]).
    assert (EL : map (side_of LO K []) (map rowL RA) = map SL RA).
    { rewrite map_map. apply map_ext. intros r. unfold side_of, SL.
      rewrite HlevL. reflexivity. }
    assert (ER : map (side_of RO K [col]) (map rowR RB) = map SR RB).
    { rewrite map_map. apply map_ext. intros r. unfold side_of, SR.
      rewrite HlevR. simpl. rewrite HlevC. reflexivity. }
    rewrite EL, ER. intros H. injection H as <- <-.
    split; [reflexivity|]. split.
    + intros e He. apply in_map_iff in He.
      destruct He as [[[k a] b] [<- He']].
      destruct (outer_join_left_unique _ _ _ HndL He') as [Ha Hb].
      cbn [fst snd] in Ha, Hb. rewrite HfindL in Ha. subst a.
      unfold broadcast_entry. cbn [fst snd].
      destruct b as [s|].
      * destruct Hb as [Hs Hk]. apply in_map_iff in Hs. destruct Hs as [rb [<- Hrb]].
        cbn [jkey SR] in Hk. exists k, (cell m rb col). cbn [extra vals SR option_map].
        split; [|split; [apply Hleft|left; exists rb; auto]].
        destruct (find_row m col RA k); reflexivity.
      * destruct Hb as [Hnone Hsome]. exists k, (Num NaN).
        rewrite (find_map SR) in Hnone.
        change (find (fun a0 => with_key k (SR a0)) RB) with (find_row m col RB k) in Hnone.
        split; [|split; [apply Hleft|right]].
        -- destruct (find_row m col RA k); reflexivity.
        -- repeat split.
           ++ destruct (find_row m col RB k); [discriminate | reflexivity].
           ++ intros E. apply Hsome. rewrite E. reflexivity.
    + intros rb Hrb.
      destruct (outer_join_covers_right (map SL RA) (map SR RB) (SR rb) (in_map SR _ _ Hrb))
        as [[[k a] b] [He [Hk Hb]]].
      cbn [fst snd] in Hk, Hb. subst k b.
      exists (jkey (SR rb) ++ match a with Some s => extra s | None => nans (@nil name) end
                ++ extra (SR rb),
              option_map vals a, option_map vals (Some (SR rb))).
      split; [|split].
      * apply in_map_iff. exists (jkey (SR rb), a, Some (SR rb)). split; [reflexivity|exact He].
      * cbn [fst snd jkey extra SR]. f_equal.
        destruct (outer_join_left_unique _ _ _ HndL He) as [Ha _]. cbn [fst snd] in Ha.
        rewrite HfindL in Ha. subst a.
        destruct (find_row m col RA (jkey (SR rb))); reflexivity.
      * reflexivity.
Qed.

(** The rows of [minuend - subtrahend] when the minuend is broadcast
    over the subtrahend rows, before the index is reset. *)
Lemma sub_broadcast_rows (m : frame) (col : name) (RA RB : list row) (diff : frame) :
  difference_index m col <> [] ->
  ~ In col (difference_index m col) ->
  NoDup (map (match_key m col) RA) ->
  frame_op fsub (left_operand m col RA) (right_operand m col RB) = Ok diff ->
  index diff = difference_index m col ++ [col] /\
  columns diff = [VALUE_COLUMN] /\
  (forall y, In y (rows diff) ->
     exists k cv x yv,
       ix y = k ++ [cv] /\
       List.length k = List.length (difference_index m col) /\
       as_num msg_operand (value_at m col RA k) = Ok x /\
       cells y = [Num (fsub x yv)] /\
       ((exists rb, In rb RB /\ match_key m col rb = k /\ cell m rb col = cv /\
                    cell m rb VALUE_COLUMN = Num yv) \/
        (yv = NaN /\ cv = Num NaN /\ find_row m col RB k = None /\
         find_row m col RA k <> None))) /\
  (forall rb, In rb RB ->
     exists y x yv,
       In y (rows diff) /\
       ix y = match_key m col rb ++ [cell m rb col] /\
       as_num msg_operand (value_at m col RA (match_key m col rb)) = Ok x /\
       cell m rb VALUE_COLUMN = Num yv /\
       cells y = [Num (fsub x yv)]).
Proof.
  intros Hne Hcol HA H. unfold frame_op in H.
  apply bind_ok in H. destruct H as [[names es] [Hal H]].
  destruct (align_broadcast m col RA RB names es Hne Hcol HA Hal) as [-> [Hes Hcov]].
  apply bind_ok in H. destruct H as [rs [Hrs H]]. injection H as <-.
  cbn [fst snd index columns rows left_operand] in *.
  apply mapM_Forall2 in Hrs.
  assert (EA : forall k,
             match option_map (fun r0 => [cell m r0 VALUE_COLUMN]) (find_row m col RA k) with
             | Some c => c
             | None => nans [VALUE_COLUMN]
             end = [value_at m col RA k]).
  { intros k. unfold value_at. destruct (find_row m col RA k); reflexivity. }
  assert (Hrow : forall e y,
             In e es ->
             (let '(k, x, y0) := e in
              let xs := match x with Some c => c | None => nans [VALUE_COLUMN] end in
              let ys := match y0 with Some c => c | None => nans [VALUE_COLUMN] end in
              cs <- mapM (cell_op fsub) (combine xs ys) ;; Ok (mkrow k cs)) = Ok y ->
             exists k cv x yv,
               fst (fst e) = k ++ [cv] /\ ix y = k ++ [cv] /\
               List.length k = List.length (difference_index m col) /\
               as_num msg_operand (value_at m col RA k) = Ok x /\
               cells y = [Num (fsub x yv)] /\
               ((exists rb, In rb RB /\ match_key m col rb = k /\ cell m rb col = cv /\
                            cell m rb VALUE_COLUMN = Num yv /\
                            snd e = Some [cell m rb VALUE_COLUMN]) \/
                (yv = NaN /\ cv = Num NaN /\ find_row m col RB k = None /\
                 find_row m col RA k <> None))).
  { intros [[k0 a] b] y He Hy.
    destruct (Hes _ He) as [k [cv [Hk [Ha Hb]]]]. cbn [fst snd] in Hk, Ha, Hb.
    subst k0 a. rewrite EA in Hy.
    exists k, cv.
    destruct Hb as [[rb [Hrb [Hkey [Hcv Hb]]]]|[Hb [Hcv [HnB HsA]]]]; subst b.
    - cbn [combine mapM] in Hy.
      apply bind_ok in Hy. destruct Hy as [cs [Hcs Hy]]. injection Hy as <-.
      apply bind_ok in Hcs. destruct Hcs as [c1 [Hc1 Hcs]]. cbn [bind] in Hcs.
      injection Hcs as <-. unfold cell_op in Hc1. cbn [fst snd] in Hc1.
      apply bind_ok in Hc1. destruct Hc1 as [x [Hx Hc1]].
      apply bind_ok in Hc1. destruct Hc1 as [yv [Hyv Hc1]]. injection Hc1 as <-.
      exists x, yv. cbn [ix cells]. repeat split; auto.
      + rewrite <- Hkey. apply match_key_length.
      + left. exists rb. repeat split; auto.
        destruct (cell m rb VALUE_COLUMN); simpl in Hyv; [discriminate | congruence].
    - cbn [nans map combine mapM] in Hy.
      apply bind_ok in Hy. destruct Hy as [cs [Hcs Hy]]. injection Hy as <-.
      apply bind_ok in Hcs. destruct Hcs as [c1 [Hc1 Hcs]]. cbn [bind] in Hcs.
      injection Hcs as <-. unfold cell_op in Hc1. cbn [fst snd] in Hc1.
      apply bind_ok in Hc1. destruct Hc1 as [x [Hx Hc1]].
      cbn [as_num bind] in Hc1. injection Hc1 as <-.
      exists x, NaN. cbn [ix cells]. repeat split; auto.
      destruct (find_row m col RA k) as [r'|] eqn:E; [|congruence].
      apply find_row_key in E. rewrite <- (proj2 E). apply match_key_length. }
  split; [reflexivity|]. split; [reflexivity|]. split.
  - intros y Hy. destruct (Forall2_In_r _ _ _ y Hrs Hy) as [e [He Hey]].
    destruct (Hrow e y He Hey) as [k [cv [x [yv [_ [Hix [Hlen [Hx [Hc Hor]]]]]]]]].
    exists k, cv, x, yv. repeat split; auto.
    destruct Hor as [[rb [H1 [H2 [H3 [H4 _]]]]]|Hor]; [left; exists rb; auto | right; exact Hor].
  - intros rb Hrb. destruct (Hcov rb Hrb) as [e [He [Hke Hse]]].
    destruct (Forall2_In_l _ _ _ e Hrs He) as [y [Hy Hey]].
    destruct (Hrow e y He Hey) as [k [cv [x [yv [Hk [Hix [_ [Hx [Hc Hor]]]]]]]]].
    rewrite Hke in Hk. apply app_inj_tail in Hk. destruct Hk as [<- <-].
    exists y, x.
    destruct Hor as [[rb' [_ [_ [_ [Hv' Hse']]]]]|[_ [_ [HnB _]]]].
    + rewrite Hse in Hse'. injection Hse' as Hse'.
      exists yv. repeat split; auto. congruence.
    + exfalso. unfold find_row in HnB.
      pose proof (find_none _ _ HnB rb Hrb) as F. simpl in F.
      rewrite key_eqb_refl in F. discriminate.
Qed.

(** ** From the aligned difference to what [difference] returns *)

Lemma skipn_app_exact {A : Type} (l1 l2 : list A) : skipn (List.length l1) (l1 ++ l2) = l2.
Proof. induction l1 as [|x l1 IH]; simpl; [reflexivity | exact IH]. Qed.

Lemma get_loc_app (l rest : list name) (c : name) :
  ~ In c l -> get_loc (l ++ c :: rest) c = Ok (List.length l).
Proof.
  induction l as [|n l IH]; simpl; intros H.
  - rewrite name_eqb_refl. reflexivity.
  - rewrite (proj2 (name_eqb_neq n c)) by (intros E; apply H; auto).
    rewrite IH by (intros Hin; apply H; auto). reflexivity.
Qed.

(** The cells of a row of the result, read under its column labels. *)
Lemma difference_cells (K : list name) (col sf : name) (k : list scalar)
  (cv vid v : scalar) :
  List.length k = List.length K ->
  ~ In col K -> ~ In sf K -> sf <> col ->
  ~ In VALUE_COLUMN K -> col <> VALUE_COLUMN -> sf <> VALUE_COLUMN ->
  map (getv (K ++ [col; sf; VALUE_COLUMN]) (k ++ [cv; vid; v])) K = map (getv K k) K /\
  getv (K ++ [col; sf; VALUE_COLUMN]) (k ++ [cv; vid; v]) col = cv /\
  getv (K ++ [col; sf; VALUE_COLUMN]) (k ++ [cv; vid; v]) sf = vid /\
  getv (K ++ [col; sf; VALUE_COLUMN]) (k ++ [cv; vid; v]) VALUE_COLUMN = v.
Proof.
  intros Hlen HcK HsK Hsc HvK Hcv Hsv. symmetry in Hlen. repeat split.
  - apply map_ext_in. intros c Hc. apply getv_app_l; auto.
  - rewrite getv_app_r by auto. simpl. rewrite name_eqb_refl. reflexivity.
  - rewrite getv_app_r by auto. simpl.
    rewrite (proj2 (name_eqb_neq col sf)) by congruence.
    rewrite name_eqb_refl. reflexivity.
  - rewrite getv_app_r by auto. simpl.
    rewrite (proj2 (name_eqb_neq col VALUE_COLUMN)) by congruence.
    rewrite (proj2 (name_eqb_neq sf VALUE_COLUMN)) by congruence.
    reflexivity.
Qed.

(** [reset_index] and the insertion of the recording column, row by
    row. *)
Lemma difference_result_rows (K : list name) (col sf : name) (vid : scalar)
  (diff diff' d : frame) (loc : nat) :
  ~ In NNone (K ++ [col]) -> ~ In col K ->
  index diff = K ++ [col] -> columns diff = [VALUE_COLUMN] ->
  (forall y, In y (rows diff) ->
     exists k cv v, ix y = k ++ [cv] /\ List.length k = List.length K /\ cells y = [v]) ->
  reset_index diff = Ok diff' ->
  get_loc (columns diff') col = Ok loc ->
  insert diff' (loc + 1) sf vid = Ok d ->
  index d = [NNone] /\
  columns d = K ++ [col; sf; VALUE_COLUMN] /\
  ~ In sf (K ++ [col; VALUE_COLUMN]) /\ ~ In VALUE_COLUMN (K ++ [col]) /\
  (forall r, In r (rows d) ->
     exists y k cv v,
       In y (rows diff) /\ ix y = k ++ [cv] /\ List.length k = List.length K /\
       cells y = [v] /\ cells r = k ++ [cv; vid; v]) /\
  (forall y k cv v,
     In y (rows diff) -> ix y = k ++ [cv] -> List.length k = List.length K -> cells y = [v] ->
     exists r, In r (rows d) /\ cells r = k ++ [cv; vid; v]).
Proof.
  intros Hnone HcK Hi Hc Hrows Hreset Hloc Hins.
  apply reset_index_ok in Hreset. destruct Hreset as [-> Hdisj].
  rewrite level_labels_named in * by (rewrite Hi; exact Hnone).
  rewrite Hi, Hc in *. cbn [columns] in Hloc.
  rewrite <- app_assoc in Hloc. cbn [app] in Hloc.
  rewrite get_loc_app in Hloc by exact HcK. injection Hloc as <-.
  apply insert_ok in Hins. destruct Hins as [Hsf ->]. cbn [index columns rows] in *.
  assert (Ecols : firstn (List.length K + 1) ((K ++ [col]) ++ [VALUE_COLUMN])
                  ++ sf :: skipn (List.length K + 1) ((K ++ [col]) ++ [VALUE_COLUMN])
                  = K ++ [col; sf; VALUE_COLUMN]).
  { replace (List.length K + 1)%nat with (List.length (K ++ [col]))
      by (rewrite length_app; reflexivity).
    rewrite firstn_app_exact, skipn_app_exact, <- app_assoc. reflexivity. }
  assert (Ecells : forall k cv v, List.length k = List.length K ->
             firstn (List.length K + 1) ((k ++ [cv]) ++ [v])
             ++ vid :: skipn (List.length K + 1) ((k ++ [cv]) ++ [v])
             = k ++ [cv; vid; v]).
  { intros k cv v Hlen.
    replace (List.length K + 1)%nat with (List.length (k ++ [cv]))
      by (rewrite length_app, Hlen; reflexivity).
    rewrite firstn_app_exact, skipn_app_exact, <- app_assoc. reflexivity. }
  split; [reflexivity|]. split; [exact Ecols|]. split; [|split; [|split]].
  - intros Hin. apply Hsf. rewrite <- app_assoc. cbn [app]. exact Hin.
  - intros Hin. exact (Hdisj _ Hin (or_introl eq_refl)).
  - intros r Hr. apply in_map_iff in Hr. destruct Hr as [r1 [<- Hr1]].
    apply range_index_In, in_map_iff in Hr1. destruct Hr1 as [y [Ey Hy]].
    destruct (Hrows y Hy) as [k [cv [v [Hix [Hlen Hcy]]]]].
    exists y, k, cv, v. repeat split; auto. cbn [cells].
    rewrite <- Ey, Hix, Hcy. apply Ecells, Hlen.
  - intros y k cv v Hy Hix Hlen Hcy.
    destruct (range_index_has _ _ (in_map (fun r => ix r ++ cells r) _ _ Hy)) as [r1 [Hr1 E1]].
    exists (mkrow (ix r1)
              (firstn (List.length K + 1) (cells r1) ++ vid :: skipn (List.length K + 1) (cells r1))).
    split.
    + apply in_map_iff. exists r1. auto.
    + cbn [cells]. rewrite E1, Hix, Hcy. apply Ecells, Hlen.
Qed.

(** What [difference] with a minuend id returns, in terms of the rows of
    the table. *)
Lemma difference_broadcast (m : frame) (col : name) (mid : scalar) (sid : option scalar)
  (d : frame) :
  ~ In NNone (columns m) ->
  NoDup (map (match_key m col) (id_rows m col mid)) ->
  difference m col (Some mid) sid = Ok d ->
  index d = [NNone] /\
  columns d = difference_index m col ++ [col; NStr "subtracted_from"; VALUE_COLUMN] /\
  (forall r, In r (rows d) ->
     exists x yv,
       cell d r (NStr "subtracted_from") = mid /\
       as_num msg_operand
         (value_at m col (id_rows m col mid) (map (cell d r) (difference_index m col))) = Ok x /\
       cell d r VALUE_COLUMN = Num (fsub x yv) /\
       ((exists rb, In rb (subtrahend_rows m col mid sid) /\
                    match_key m col rb = map (cell d r) (difference_index m col) /\
                    cell m rb col = cell d r col /\
                    cell m rb VALUE_COLUMN = Num yv) \/
        (yv = NaN /\ cell d r col = Num NaN /\
         find_row m col (subtrahend_rows m col mid sid)
           (map (cell d r) (difference_index m col)) = None))) /\
  (forall rb, In rb (subtrahend_rows m col mid sid) ->
     exists r x yv,
       In r (rows d) /\
       map (cell d r) (difference_index m col) = match_key m col rb /\
       cell d r col = cell m rb col /\
       as_num msg_operand (value_at m col (id_rows m col mid) (match_key m col rb)) = Ok x /\
       cell m rb VALUE_COLUMN = Num yv /\
       cell d r VALUE_COLUMN = Num (fsub x yv)).
Proof.
  intros Hnone HA H.
  destruct (difference_some m col mid sid d H)
    as [diff [diff' [loc [Hop [Hreset [Hloc [Hins [Hne Hcol]]]]]]]].
  set (K := difference_index m col) in *.
  assert (HK : forall c, In c K -> In c (columns m) /\ c <> col /\ c <> VALUE_COLUMN).
  { intros c Hc. unfold K, difference_index in Hc. apply minus_In in Hc.
    destruct Hc as [H1 H2]. repeat split; auto; intros ->; apply H2; simpl; auto. }
  assert (HcolK : ~ In col K) by (intros Hin; apply HK in Hin; tauto).
  assert (HvalK : ~ In VALUE_COLUMN K) by (intros Hin; apply HK in Hin; tauto).
  assert (HnoneK : ~ In NNone (K ++ [col])).
  { intros Hin. apply in_app_or in Hin. destruct Hin as [Hin|[Hin|[]]].
    - apply Hnone, HK, Hin.
    - apply Hnone. rewrite <- Hin. exact Hcol. }
  destruct (sub_broadcast_rows m col _ _ diff Hne HcolK HA Hop) as [Hidx [Hcols [Hrows Hcov]]].
  fold K in Hidx, Hrows.
  destruct (difference_result_rows K col (NStr "subtracted_from") mid diff diff' d loc)
    as [Hid [Hcd [Hsf [Hval [Hfrom Hto]]]]]; auto.
  { intros y Hy. destruct (Hrows y Hy) as [k [cv [x [yv [Hix [Hlen [_ [Hc _]]]]]]]]. eauto 8. }
  assert (HsfK : ~ In (NStr "subtracted_from") K)
    by (intros Hin; apply Hsf, in_or_app; auto).
  assert (Hsfc : NStr "subtracted_from" <> col)
    by (intros E; apply Hsf, in_or_app; right; left; auto).
  assert (Hcv : col <> VALUE_COLUMN)
    by (intros E; apply Hval, in_or_app; right; left; auto).
  assert (Hread : forall r k cv v,
             List.length k = List.length K -> cells r = k ++ [cv; mid; v] ->
             map (cell d r) K = map (getv K k) K /\ cell d r col = cv /\
             cell d r (NStr "subtracted_from") = mid /\ cell d r VALUE_COLUMN = v).
  { intros r k cv v Hlen Hc. unfold cell. rewrite Hcd, Hc.
    apply difference_cells; auto. discriminate. }
  split; [exact Hid|]. split; [exact Hcd|]. split.
  - intros r Hr. destruct (Hfrom r Hr) as [y [k [cv [v [Hy [Hix [Hlen [Hcy Hcr]]]]]]]].
    destruct (Hrows y Hy) as [k' [cv' [x [yv [Hix' [_ [Hx [Hcy' Hor]]]]]]]].
    rewrite Hix in Hix'. apply app_inj_tail in Hix'. destruct Hix' as [<- <-].
    rewrite Hcy in Hcy'. injection Hcy' as ->.
    destruct (Hread r k cv _ Hlen Hcr) as [Hk [Hc [Hs Hv]]].
    assert (Ek : map (getv K k) K = k).
    { destruct Hor as [[rb [_ [Hkey _]]]|[_ [_ [_ HsA]]]].
      - rewrite <- Hkey. apply match_key_lookup.
      - destruct (find_row m col (id_rows m col mid) k) as [r'|] eqn:E; [|congruence].
        apply find_row_key in E. rewrite <- (proj2 E). apply match_key_lookup. }
    rewrite Hk, Ek, Hc, Hs, Hv. exists x, yv. repeat split; auto.
    destruct Hor as [Hor|[H1 [H2 [H3 _]]]]; [left; exact Hor | right; auto].
  - intros rb Hrb. destruct (Hcov rb Hrb) as [y [x [yv [Hy [Hix [Hx [Hv Hcy]]]]]]].
    destruct (Hto y _ _ _ Hy Hix (match_key_length m col rb) Hcy) as [r [Hr Hcr]].
    destruct (Hread r _ _ _ (match_key_length m col rb) Hcr) as [Hk [Hc [_ Hvr]]].
    exists r, x, yv. rewrite Hk, Hc, Hvr. repeat split; auto.
    apply match_key_lookup.
Qed.

(** ** [averted] and [difference] with a minuend id *)




(** X16.  What [difference] with a minuend id returns has a fresh
    [RangeIndex] and, as columns, the matched identifier columns in the
    order of the table, then the identifier column, then the new column
    'subtracted_from', then the value column; 'subtracted_from' holds the
    minuend id in every row. *)
Theorem difference_result_columns
  (m : frame) (col : name) (mid : scalar) (sid : option scalar) (d : frame) :
  ~ In NNone (columns m) ->
  NoDup (map (match_key m col) (id_rows m col mid)) ->
  difference m col (Some mid) sid = Ok d ->
  index d = [NNone] /\
  columns d = difference_index m col ++ [col; NStr "subtracted_from"; VALUE_COLUMN] /\
  forall r, In r (rows d) -> cell d r (NStr "subtracted_from") = mid.
Proof.
  intros Hnone HA H.
  destruct (difference_broadcast m col mid sid d Hnone HA H) as [Hi [Hc [Hfrom _]]].
  split; [exact Hi|]. split; [exact Hc|].
  intros r Hr. destruct (Hfrom r Hr) as [x [yv [Hs _]]]. exact Hs.
Qed.

Lemma difference_result_columns_witness :
  exists d,
    difference three_arms SCENARIO_COLUMN (Some (Str "baseline")) (Some (Str "treated")) = Ok d /\
    columns d = [NStr "input_draw"; NStr "sex"; NStr "measure"; SCENARIO_COLUMN;
                 NStr "subtracted_from"; VALUE_COLUMN] /\
    forall r, In r (rows d) -> cell d r (NStr "subtracted_from") = Str "baseline".
Proof.
  assert (H : exists d,
             difference three_arms SCENARIO_COLUMN (Some (Str "baseline")) (Some (Str "treated"))
             = Ok d) by (eexists; vm_compute; reflexivity).
  destruct H as [d H]. exists d. split; [exact H|].
  destruct (difference_result_columns three_arms SCENARIO_COLUMN (Str "baseline")
              (Some (Str "treated")) d
              ltac:(simpl; intros F; in_cases F)
              ltac:(apply nodupb_NoDup; vm_compute; reflexivity) H) as [_ [Hc Hs]].
  split; [rewrite Hc; vm_compute; reflexivity | exact Hs].
Defined.

(** ** What [difference] cannot work on *)

(** X17.  [difference] needs its identifier column and at least one
    more identifier column to match rows on: without the identifier
    column it raises KeyError for it, and on a table that has nothing
    but the identifier and the value column it raises pandas' ValueError
    for an index without levels -- whichever ids are given. *)
Theorem difference_needs_columns
  (m : frame) (col : name) (minuend_id subtrahend_id : option scalar) :
  minuend_id <> None \/ subtrahend_id <> None ->
  (~ In col (columns m) ->
   difference m col minuend_id subtrahend_id = Err (KeyError col)) /\
  (In col (columns m) -> difference_index m col = [] ->
   difference m col minuend_id subtrahend_id = Err (ValueError msg_no_levels)).
Proof.
  intros Hid. split.
  - intros Hc.
    assert (E : require_columns m [col] = Err (KeyError col)).
    { unfold require_columns. simpl. rewrite (proj2 (mem_not_In col (columns m)) Hc).
      reflexivity. }
    unfold difference, difference_sides, mask_eq, mask_ne.
    destruct minuend_id, subtrahend_id; try (rewrite E; reflexivity).
    destruct Hid; congruence.
  - intros Hc Hk.
    assert (E : require_columns m [col] = Ok tt).
    { apply require_columns_ok. intros c [<-|[]]. exact Hc. }
    unfold difference, difference_sides, mask_eq, mask_ne. rewrite Hk.
    destruct minuend_id, subtrahend_id; try (rewrite E; reflexivity).
    destruct Hid; congruence.
Qed.

Lemma difference_needs_columns_witness :
  difference two_columns (NStr "arm") (Some (Str "baseline")) None = Err (KeyError (NStr "arm")) /\
  difference two_columns SCENARIO_COLUMN (Some (Str "baseline")) None
  = Err (ValueError msg_no_levels).
Proof.
  destruct (difference_needs_columns two_columns (NStr "arm") (Some (Str "baseline")) None
              ltac:(left; discriminate)) as [H1 _].
  destruct (difference_needs_columns two_columns SCENARIO_COLUMN (Some (Str "baseline")) None
              ltac:(left; discriminate)) as [_ H2].
  split.
  - apply H1. simpl. intros F. in_cases F.
  - apply H2; [simpl; tauto | reflexivity].
Defined.

(** ** What [get_mean_lower_upper] returns *)

Lemma dict_get_keys (mapper : list (name * name)) :
  NoDup (map fst mapper) ->
  map (fun c => match dict_get mapper c with Some v => v | None => c end) (map fst mapper)
  = map snd mapper.
Proof.
  induction mapper as [|[k v] mp IH]; simpl; intros Hnd; [reflexivity|].
  inversion Hnd as [|x l Hk Hl]; subst.
  rewrite name_eqb_refl. f_equal. rewrite <- IH by assumption.
  apply map_ext_in. intros c Hc.
  rewrite (proj2 (name_eqb_neq k c)); [reflexivity|]. intros ->. contradiction.
Qed.

(** X18.  [get_mean_lower_upper] returns, for a frame that has every
    key of the mapper among its columns and index levels with distinct
    names other than the new labels, a frame on a fresh [RangeIndex]
    whose columns are the index levels followed by the mapper's values,
    and whose rows hold the index labels followed by the cells that stood
    under the mapper's keys: with the default mapper, the group columns
    and then 'mean', 'lower' and 'upper'. *)
Theorem get_mean_lower_upper_shape (f : frame) (mapper : list (name * name)) :
  NoDup (map fst mapper) ->
  (forall k, In k (map fst mapper) -> In k (columns f)) ->
  NoDup (index f) -> ~ In NNone (index f) ->
  (forall c, In c (index f) -> ~ In c (map snd mapper)) ->
  exists r,
    get_mean_lower_upper f mapper = Ok r /\
    index r = [NNone] /\
    columns r = index f ++ map snd mapper /\
    map cells (rows r) = map (fun x => ix x ++ map (cell f x) (map fst mapper)) (rows f).
Proof.
  intros Hnd Hk Hni Hnone Hdisj. unfold get_mean_lower_upper, select.
  rewrite (proj2 (require_columns_ok f (map fst mapper)) Hk). cbn [bind].
  unfold reset_index, rename_columns. cbn [index columns rows].
  rewrite dict_get_keys by exact Hnd.
  rewrite level_labels_named by exact Hnone. cbn [index].
  rewrite insert_levels_intro by assumption. cbn [bind].
  eexists. split; [reflexivity|]. cbn [index columns rows].
  split; [reflexivity|]. split; [reflexivity|].
  rewrite range_index_cells, !map_map. reflexivity.
Qed.

Lemma get_mean_lower_upper_shape_witness :
  exists r,
    get_mean_lower_upper described default_colname_mapper = Ok r /\
    columns r = [NStr "scenario"; NStr "sex"; NStr "mean"; NStr "lower"; NStr "upper"] /\
    map cells (rows r)
    = [ [Str "baseline"; Str "F"; Num (Fin (qz 5)); Num (Fin (qz 4)); Num (Fin (qz 6))];
        [Str "baseline"; Str "M"; Num (Fin (qz 7)); Num (Fin (qz 6)); Num (Fin (qz 8))] ].
Proof.
  destruct (get_mean_lower_upper_shape described default_colname_mapper)
    as [r [H [_ [Hc Hr]]]].
  - simpl. repeat (constructor; [simpl; intros F; in_cases F|]). constructor.
  - intros k Hk. simpl in Hk. in_cases Hk; simpl; tauto.
  - simpl. repeat (constructor; [simpl; intros F; in_cases F|]). constructor.
  - simpl. intros F. in_cases F.
  - intros c Hc. simpl in Hc. in_cases Hc; simpl; intros F; in_cases F.
  - exists r. split; [exact H|]. split; [exact Hc|]. rewrite Hr. vm_compute. reflexivity.
Defined.



(** ** [difference] with a subtrahend id only *)










(** ** [marginalize] on a frame that keeps its identifiers in the index *)



(** ** [marginalize] with [None] for the columns to sum over *)

Lemma qz_injective (a b : Z) : qz a = qz b -> a = b.
Proof.
  unfold qz. intros H. apply (f_equal this) in H.
  change (Qred (inject_Z a) = Qred (inject_Z b)) in H.
  apply Qred_eq_iff in H. unfold Qeq in H. simpl in H. lia.
Qed.

Lemma range_from_length (start : Z) (n : nat) : List.length (range_from start n) = n.
Proof. revert start; induction n as [|n IH]; intros start; simpl; [reflexivity | rewrite IH; reflexivity]. Qed.

Lemma range_from_In (start : Z) (n : nat) (z : Z) :
  In z (range_from start n) -> (start <= z)%Z.
Proof.
  revert start; induction n as [|n IH]; intros start; simpl; [intros []|].
  intros [<-|H]; [lia|]. apply IH in H. lia.
Qed.

Lemma range_from_NoDup (start : Z) (n : nat) : NoDup (range_from start n).
Proof.
  revert start; induction n as [|n IH]; intros start; simpl; constructor; [|apply IH].
  intros H. apply range_from_In in H. lia.
Qed.

Lemma map_fst_combine {A B C : Type} (F : A -> C) (l1 : list A) (l2 : list B) :
  List.length l1 = List.length l2 ->
  map (fun p => F (fst p)) (combine l1 l2) = map F l1.
Proof.
  revert l2; induction l1 as [|a l1 IH]; intros [|b l2] H; simpl in *; try discriminate;
    [reflexivity|]. f_equal. apply IH. lia.
Qed.

(** The labels of a default [RangeIndex] are the row positions. *)
Lemma range_index_ix (css : list (list scalar)) :
  map ix (range_index css)
  = map (fun z => [Num (Fin (qz z))]) (range_from 0 (List.length css)).
Proof.
  unfold range_index. rewrite map_map. cbn [ix].
  apply (map_fst_combine (fun z => [Num (Fin (qz z))])). apply range_from_length.
Qed.

Lemma range_index_length (css : list (list scalar)) :
  List.length (range_index css) = List.length css.
Proof. rewrite <- (length_map cells), range_index_cells. reflexivity. Qed.

Lemma NoDup_map_comp {A B C : Type} (f : A -> B) (g : B -> C) (l : list A) :
  NoDup (map (fun x => g (f x)) l) -> NoDup (map f l).
Proof.
  induction l as [|a l IH]; simpl; intros H; [constructor|].
  inversion H as [|x l' Hx Hl]; subst. constructor; [|auto].
  intros Hin. apply Hx. apply in_map_iff in Hin. destruct Hin as [y [Hy Hin]].
  apply in_map_iff. exists y. split; [congruence | assumption].
Qed.

Lemma sort_keys_length (l : list (list scalar)) :
  NoDup l -> List.length (sort_keys l) = List.length l.
Proof.
  intros H. apply Nat.le_antisymm.
  - apply NoDup_incl_length; [apply sort_keys_NoDup|].
    intros k Hk. exact (proj1 (sort_keys_In k l) Hk).
  - apply NoDup_incl_length; [exact H|].
    intros k Hk. exact (proj2 (sort_keys_In k l) Hk).
Qed.

(** X22.  [marginalize] turns [None] for the marginalized columns into
    the list [[None]], not into an empty list.  On a freshly built table
    (default [RangeIndex], no missing identifiers, no column named
    'index') the index, whose name is [None], is therefore moved into a
    column 'index' and grouped on with the identifier columns: the
    result has 'index' among its columns (its index levels when
    [reset_index] is off) and as many rows as the table -- nothing is
    summed. *)
Theorem marginalize_none_sums_nothing
  (cols : list name) (css : list (list scalar)) (V : list name) (reset : bool) (r : frame) :
  ~ In (NStr "index") cols -> ~ In (NStr "index") V ->
  (forall cs c, In cs css -> In c cols -> ~ In c V -> is_nan (getv cols cs c) = false) ->
  marginalize (flat cols css) PyNone (PList V) reset = Ok r ->
  In (NStr "index") (if reset then columns r else index r) /\
  List.length (rows r) = List.length css.
Proof.
  intros Hic HiV Hids H.
  set (t' := mkframe [NNone] (NStr "index" :: cols)
               (range_index (map (fun x => ix x ++ cells x) (range_index css)))).
  assert (Et : _ensure_columns_not_levels (flat cols css) (Some [NNone]) = Ok t').
  { unfold _ensure_columns_not_levels, index_name, flat. cbn [index List.length Nat.ltb mem
      existsb orb]. rewrite name_eqb_refl. cbn [orb Nat.leb].
    unfold reset_index, level_labels, level_label. cbn [index columns rows List.length seq
      combine map fst snd].
    rewrite (proj2 (mem_not_In (NStr "index") cols) Hic).
    cbn [insert_levels bind]. rewrite (proj2 (mem_not_In (NStr "index") cols) Hic).
    reflexivity. }
  unfold marginalize in H.
  change (_ensure_iterable PyNone (flat cols css) PyNone) with [NNone] in H.
  change (_ensure_iterable (PList V) (flat cols css) PyNone) with V in H.
  rewrite Et in H. cbn [bind] in H.
  set (K := Index_difference (columns t') ([NNone] ++ V)) in H.
  apply bind_ok in H. destruct H as [d [Hg Hr]].
  assert (HK : forall c, In c K <-> In c (NStr "index" :: cols) /\ ~ In c ([NNone] ++ V))
    by (intros c; apply Index_difference_In).
  assert (HKi : In (NStr "index") K).
  { apply HK. split; [left; reflexivity|]. simpl. intros [F|F]; [discriminate | contradiction]. }
  assert (HKnone : ~ In NNone K) by (rewrite HK; simpl; tauto).
  destruct (groupby_reset_shape t' d r K V reset Hg HKnone Hr) as [Hir [Hcr [Hkeys _]]].
  split.
  { destruct reset; [rewrite Hcr; apply in_or_app; auto | rewrite Hir; exact HKi]. }
  rewrite <- (length_map (ratio_key reset (List.length K))), Hkeys.
  (* the rows of the table with its index moved into the columns *)
  assert (Hrows : forall x, In x (rows t') ->
             exists z cs, In cs css /\ cells x = Num (Fin (qz z)) :: cs).
  { intros x Hx. cbn [rows t'] in Hx. apply range_index_In, in_map_iff in Hx.
    destruct Hx as [y [E Hy]].
    assert (Hi : In (ix y) (map ix (range_index css))) by (apply in_map, Hy).
    rewrite range_index_ix in Hi. apply in_map_iff in Hi. destruct Hi as [z [Hz _]].
    exists z, (cells y). split; [apply range_index_In, Hy|].
    rewrite <- E, <- Hz. reflexivity. }
  assert (Hfield : forall x c, In c K -> field t' x c = cell t' x c).
  { intros x c Hc. unfold field. rewrite (proj2 (mem_In c (columns t'))); [reflexivity|].
    apply HK in Hc. exact (proj1 Hc). }
  assert (Hlive : live_rows t' K = rows t').
  { unfold live_rows. apply filter_all. intros x Hx.
    apply negb_true_iff, existsb_is_nan_false. intros v Hv.
    unfold group_key in Hv. apply in_map_iff in Hv. destruct Hv as [c [<- Hc]].
    rewrite (Hfield x c Hc). destruct (Hrows x Hx) as [z [cs [Hcs E]]].
    unfold cell. cbn [columns t']. rewrite E. cbn [getv].
    destruct (name_eqb (NStr "index") c) eqn:En; [reflexivity|].
    apply HK in Hc. destruct Hc as [[Hc|Hc] HcV].
    - apply name_eqb_neq in En. congruence.
    - apply Hids; auto. intros F. apply HcV. simpl. auto. }
  assert (Hnd : NoDup (map (group_key t' K) (rows t'))).
  { apply (NoDup_map_comp (group_key t' K) (fun k => getv K k (NStr "index"))).
    rewrite (map_ext_in _ (fun x => hd (Num NaN) (cells x))).
    2:{ intros x Hx. unfold group_key. rewrite (getv_map (field t' x)) by exact HKi.
        rewrite (Hfield x _ HKi). destruct (Hrows x Hx) as [z [cs [_ E]]].
        unfold cell. cbn [columns t']. rewrite E. reflexivity. }
    cbn [rows t']. rewrite <- (map_map cells (hd (Num NaN))), range_index_cells, map_map.
    rewrite (map_ext_in _ (fun y => hd (Num NaN) (ix y) )).
    2:{ intros y Hy.
        assert (Hi : In (ix y) (map ix (range_index css))) by (apply in_map, Hy).
        rewrite range_index_ix in Hi. apply in_map_iff in Hi. destruct Hi as [z [Hz _]].
        rewrite <- Hz. reflexivity. }
    rewrite <- (map_map ix (hd (Num NaN))), range_index_ix, map_map. cbn [hd].
    apply Injective_map_NoDup; [|apply range_from_NoDup].
    intros a b E. apply qz_injective. congruence. }
  unfold group_keys. rewrite Hlive, sort_keys_length by exact Hnd.
  rewrite length_map. cbn [rows t']. rewrite !range_index_length, length_map.
  apply range_index_length.
Qed.

Lemma marginalize_none_sums_nothing_witness :
  exists r,
    marginalize people PyNone (PList [VALUE_COLUMN]) true = Ok r /\
    In (NStr "index") (columns r) /\
    List.length (rows r) = 4%nat.
Proof.
  assert (H : exists r, marginalize people PyNone (PList [VALUE_COLUMN]) true = Ok r)
    by (eexists; vm_compute; reflexivity).
  destruct H as [r H]. exists r. split; [exact H|].
  destruct (marginalize_none_sums_nothing (columns people) (map cells (rows people))
              [VALUE_COLUMN] true r) as [H1 H2].
  - simpl. intros F. in_cases F.
  - simpl. intros F. in_cases F.
  - intros cs c Hcs Hc HcV. simpl in Hcs, Hc.
    in_cases Hcs; in_cases Hc; try reflexivity; exfalso; apply HcV; left; reflexivity.
  - exact H.
  - split; [exact H1 | exact H2].
Defined.
